(** * Grid path finding: the A*-style search of [APCSP_pathfinder.py]
      and [pathfinder.py], and their waypoint chainers.

    The two Python files are two variants of one program.  Each is embedded
    in a module of its own, [APCSP] for [APCSP_pathfinder.py] and
    [Pathfinder] for [pathfinder.py].  The [Point] objects are shared and
    mutated: each lives at the same time in the heap list and in the
    dictionary of seen points.  They are modelled by a store: the
    dictionary maps a cell to the [Point] record registered for it, and the
    heap list holds references, a reference to a [Point] being the cell
    under which it is registered (every [Point] is registered under its own
    coordinates when it is created, and a key is never overwritten).
    [heapq] is embedded from the Python module of the standard library.

    Python floats are IEEE 754 binary64 numbers.  The search is written over
    an interface [Score] of the float operations it uses; the instance
    [float_Score] interprets it with the primitive binary64 floats.  The
    general theorems hold for every interpretation of the interface, the
    concrete runs are evaluated with the binary64 one.

    Loops that Python runs until a condition fails are given a number of
    iterations (fuel); a search that runs out of it returns [None], and the
    theorems show that it does not.

    The functions of the two GUIs that work on the grid and on the list of
    waypoints are embedded in [APCSP_gui] and [Pathfinder_gui], over Python
    lists with their indexing and their exceptions ([result]).  A function
    that changes its arguments in place returns them.  The event loop of
    [main] is a function of the events that pygame delivers.  Calls that
    change none of the variables ([print], [pygame.display.flip],
    [clock.tick], [time.sleep]) are left out.  No exception is caught in
    either file: a computation that raises ends the program.

    First the definitions: the embedding of the two files, the control
    structure they share ([Astar]) with its invariant, and the predicates
    the properties are stated with.  Then the proofs. *)

From Stdlib Require Import ZArith Floats Uint63.
From stdpp Require Import gmap list strings.

Open Scope Z_scope.

(** ** Cells and scores *)

(** A cell is a tuple [(c[0], c[1])] of Python integers. *)
Abbreviation Cell := (Z * Z)%type.

(** The float operations of the program: the literals [0] and
    [float('inf')], [+], [<], [>=] and [math.dist] on two cells. *)
Class Score (S : Type) := {
  s_zero : S;
  s_inf : S;
  s_add : S -> S -> S;
  s_lt : S -> S -> bool;
  s_ge : S -> S -> bool;
  s_dist : Cell -> Cell -> S
}.

(** [math.dist] on integer tuples: the square root of the sum of the squared
    coordinate differences.  The sum is computed exactly and converted to a
    float (exact below 2^53, that is for coordinate differences below 2^26),
    and the square root is the IEEE 754 one, rounded to nearest. *)
Definition float_of_Z (z : Z) : float := PrimFloat.of_uint63 (Uint63.of_Z z).

Definition float_dist (p q : Cell) : float :=
  let dx := p.1 - q.1 in
  let dy := p.2 - q.2 in
  PrimFloat.sqrt (float_of_Z (dx * dx + dy * dy)).

#[export] Instance float_Score : Score float := {
  s_zero := PrimFloat.zero;
  s_inf := PrimFloat.infinity;
  s_add := PrimFloat.add;
  s_lt := PrimFloat.ltb;
  s_ge := fun a b => PrimFloat.leb b a;
  s_dist := float_dist
}.

(** [<] is a strict weak order on the scores, as [<] on floats other than
    NaN is: asymmetric, and [>=] is transitive. *)
Class ScoreOrder (S : Type) `{!Score S} := {
  s_lt_asym : forall a b : S, s_lt a b = true -> s_lt b a = false;
  s_lt_negtrans : forall a b c : S,
    s_lt a b = false -> s_lt b c = false -> s_lt a c = false
}.

(** An interpretation of the scores by integers, with the squared distance
    for [math.dist]; its [<] is a strict weak order. *)
#[export] Instance integer_Score : Score Z := {
  s_zero := 0;
  s_inf := 2 ^ 62;
  s_add := Z.add;
  s_lt := Z.ltb;
  s_ge := Z.geb;
  s_dist := fun p q => (p.1 - q.1) * (p.1 - q.1) + (p.2 - q.2) * (p.2 - q.2)
}.

(** ** heapq *)

(** The list operations of [heapq.py], over a list of references and the
    comparison [lt] that Python finds in [__lt__].  [heap[i]] is
    [heap !!! i] and [heap[i] = v] is [<[i:=v]> heap]; every index the
    functions use is in range. *)
Module Heapq.
Section Heapq.
Context {A : Type} `{!Inhabited A}.
Variable lt : A -> A -> bool.

(** The loop of [_siftdown]: [pos] decreases at every iteration, so [pos]
    iterations are enough and the fuel is [pos]. *)
Fixpoint _siftdown_loop (fuel : nat) (heap : list A) (startpos pos : nat)
    (newitem : A) : list A :=
  match fuel with
  | O => <[pos := newitem]> heap
  | S fuel =>
      if (startpos <? pos)%nat then
        let parentpos := ((pos - 1) / 2)%nat in
        let parent := heap !!! parentpos in
        if lt newitem parent then
          _siftdown_loop fuel (<[pos := parent]> heap) startpos parentpos newitem
        else <[pos := newitem]> heap
      else <[pos := newitem]> heap
  end.

Definition _siftdown (heap : list A) (startpos pos : nat) : list A :=
  let newitem := heap !!! pos in
  _siftdown_loop pos heap startpos pos newitem.

(** The loop of [_siftup]: [childpos = 2*pos + 1] grows at every
    iteration and stays below [endpos], so [endpos] iterations are
    enough.  Returns the list and the final [pos]. *)
Fixpoint _siftup_loop (fuel : nat) (heap : list A) (endpos pos : nat)
    : list A * nat :=
  match fuel with
  | O => (heap, pos)
  | S fuel =>
      let childpos := (2 * pos + 1)%nat in
      if (childpos <? endpos)%nat then
        let rightpos := (childpos + 1)%nat in
        let childpos :=
          if (rightpos <? endpos)%nat
             && negb (lt (heap !!! childpos) (heap !!! rightpos))
          then rightpos else childpos in
        _siftup_loop fuel (<[pos := heap !!! childpos]> heap) endpos childpos
      else (heap, pos)
  end.

Definition _siftup (heap : list A) (pos : nat) : list A :=
  let endpos := length heap in
  let startpos := pos in
  let newitem := heap !!! pos in
  let '(heap, pos) := _siftup_loop endpos heap endpos pos in
  _siftdown (<[pos := newitem]> heap) startpos pos.

Definition heappush (heap : list A) (item : A) : list A :=
  _siftdown (heap ++ [item]) 0 (length (heap ++ [item]) - 1).

(** [heappop] raises [IndexError] on an empty list: [None]. *)
Definition heappop (heap : list A) : option (A * list A) :=
  match last heap with
  | None => None
  | Some lastelt =>
      let heap := removelast heap in
      match heap with
      | [] => Some (lastelt, heap)
      | returnitem :: _ => Some (returnitem, _siftup (<[0%nat := lastelt]> heap) 0)
      end
  end.

(** [for i in reversed(range(n//2)): _siftup(x, i)] *)
Definition heapify (x : list A) : list A :=
  let n := length x in
  fold_left (fun x i => _siftup x i) (reverse (seq 0 (n / 2))) x.
End Heapq.
End Heapq.




(** [c in obstacles], for the list (or set) of obstacle cells. *)
Definition mem (c : Cell) (obstacles : list Cell) : bool :=
  bool_decide (c ∈ obstacles).

(** The eight offsets, in the order of the [directions] literal of both
    files. *)
Definition directions : list (Z * Z) :=
  [(0, 1); (0, -1); (1, 0); (-1, 0); (1, 1); (-1, -1); (1, -1); (-1, 1)].

(** The number of loop iterations [navigate] is given: one per cell that
    can pass the bounds test of [neighbors], one for the start cell, and one
    to see the empty heap.  Lemma [navigate_loop_Inv] shows that the loop
    returns within them. *)
Definition search_fuel (N M : Z) : nat :=
  S (S (Z.to_nat (N - 1) * Z.to_nat (M - 1))).

(** ** APCSP_pathfinder.py *)
Module APCSP.
Section APCSP.
Context {F : Type} `{!Score F}.

Record Point := mkPoint {
  x : Z;
  y : Z;
  dist_to_start : F;
  dist_to_end : F;
  visited : bool;
  parent : option Cell
}.

#[global] Instance Point_inhabited : Inhabited Point :=
  populate (mkPoint 0 0 s_zero s_zero false None).

(** [Point.__lt__]: both sides add [self.dist_to_start]. *)
Definition Point_lt (self other : Point) : bool :=
  s_lt (s_add (dist_to_start self) (dist_to_end self))
       (s_add (dist_to_start self) (dist_to_end other)).

(** The comparison of two references of the heap. *)
Definition ref_lt (point_dict : gmap Cell Point) (a b : Cell) : bool :=
  Point_lt (point_dict !!! a) (point_dict !!! b).

Definition neighbors (p : Point) (obstacles : list Cell) (N M : Z)
    : list Cell :=
  fold_left
    (fun good_neighbors d =>
       let x := x p + d.1 in
       let y := y p + d.2 in
       if mem (x, y) obstacles || (x <=? 0) || (y <=? 0)
          || (N <=? x) || (M <=? y)
       then good_neighbors
       else good_neighbors ++ [(x, y)])
    directions [].

(** The loop of [retrace_steps]; [current] is a reference or [None]. *)
Fixpoint retrace_loop (fuel : nat) (point_dict : gmap Cell Point)
    (current : option Cell) (path : list Cell) : option (list Cell) :=
  match current with
  | None => Some path
  | Some c =>
      match fuel with
      | O => None
      | S fuel =>
          let cur := point_dict !!! c in
          retrace_loop fuel point_dict (parent cur) (path ++ [(x cur, y cur)])
      end
  end.

(** [retrace_steps]: the parent links visit every [Point] at most once,
    so the fuel is the number of points. *)
Definition retrace_steps (point_dict : gmap Cell Point) (p : Cell)
    : option (list Cell) :=
  reverse <$> retrace_loop (size point_dict) point_dict (Some p) [].

(** The body of [for n in my_neighbors]. *)
Definition visit (end_ current : Cell)
    (st : list Cell * gmap Cell Point) (n : Cell)
    : list Cell * gmap Cell Point :=
  let '(candidates, point_dict) := st in
  let cur := point_dict !!! current in
  match point_dict !! n with
  | Some p =>
      if visited p then st
      else
        let offered_dist_to_start :=
          s_add (dist_to_start cur) (s_dist n (x cur, y cur)) in
        if s_ge offered_dist_to_start (dist_to_start p) then st
        else
          let p := mkPoint (x p) (y p) offered_dist_to_start
                     (s_dist n end_) (visited p) (Some current) in
          let point_dict := <[n := p]> point_dict in
          (Heapq.heapify (ref_lt point_dict) candidates, point_dict)
  | None =>
      let p := mkPoint n.1 n.2 (s_dist (x cur, y cur) n) (s_dist n end_)
                 false (Some current) in
      let point_dict := <[(x p, y p) := p]> point_dict in
      (Heapq.heappush (ref_lt point_dict) candidates (x p, y p), point_dict)
  end.

(** [current.visited = True] *)
Definition set_visited (p : Point) : Point :=
  mkPoint (x p) (y p) (dist_to_start p) (dist_to_end p) true (parent p).

(** One iteration of [while candidates], from the test of the loop to
    the end of its body: [inl r] when the function returns [r], [inr] of
    the heap and the dictionary when the loop goes on. *)
Definition iteration (end_ : Cell) (obstacles : list Cell) (N M : Z)
    (candidates : list Cell) (point_dict : gmap Cell Point)
    : option (list Cell) + list Cell * gmap Cell Point :=
  match candidates with
  | [] => inl (Some [])
  | _ :: _ =>
      match Heapq.heappop (ref_lt point_dict) candidates with
      | None => inl None
      | Some (current, candidates) =>
          let point_dict := alter set_visited current point_dict in
          let cur := point_dict !!! current in
          if (x cur =? end_.1) && (y cur =? end_.2) then
            inl (retrace_steps point_dict current)
          else
            let my_neighbors := neighbors cur obstacles N M in
            inr (fold_left (visit end_ current) my_neighbors
                   (candidates, point_dict))
      end
  end.

(** The [while candidates] loop. [None]: out of fuel. *)
Fixpoint navigate_loop (fuel : nat) (end_ : Cell) (obstacles : list Cell)
    (N M : Z) (candidates : list Cell) (point_dict : gmap Cell Point)
    : option (list Cell) :=
  match fuel with
  | O => None
  | S fuel =>
      match iteration end_ obstacles N M candidates point_dict with
      | inl result => result
      | inr (candidates, point_dict) =>
          navigate_loop fuel end_ obstacles N M candidates point_dict
      end
  end.

Definition navigate (start end_ : Cell) (obstacles : list Cell) (N M : Z)
    : option (list Cell) :=
  let start_point := mkPoint start.1 start.2 s_zero (s_dist start end_)
                       false None in
  let candidates := [start] in
  let point_dict : gmap Cell Point := {[start := start_point]} in
  navigate_loop (search_fuel N M) end_ obstacles N M candidates point_dict.

(** [for i in range(len(waypoints) - 1)]: the list is walked by pairs
    [(waypoints[i], waypoints[i + 1])]. *)
Fixpoint find_path_loop (waypoints : list Cell) (obstacles : list Cell)
    (N M : Z) (final_path : list (list Cell)) : option (list (list Cell)) :=
  match waypoints with
  | w_i :: ((w_i1 :: _) as rest) =>
      path_segment ← navigate w_i w_i1 obstacles N M;
      match path_segment with
      | _ :: _ => find_path_loop rest obstacles N M (final_path ++ [path_segment])
      | [] => Some (final_path ++ [[]])
      end
  | _ => Some final_path
  end.

Definition find_path (waypoints : list Cell) (obstacles : list Cell)
    (N M : Z) : option (list (list Cell)) :=
  find_path_loop waypoints obstacles N M [].
End APCSP.
End APCSP.

(** ** pathfinder.py *)
Module Pathfinder.
Section Pathfinder.
Context {F : Type} `{!Score F}.

Record Point := mkPoint {
  x : Z;
  y : Z;
  f_score : F;
  g_score : F;
  state : Z;
  parent : option Cell
}.

#[global] Instance Point_inhabited : Inhabited Point :=
  populate (mkPoint 0 0 s_zero s_zero 0 None).

(** [Point.__lt__] *)
Definition Point_lt (self other : Point) : bool :=
  s_lt (f_score self) (f_score other).

(** The comparison of two references of the heap. *)
Definition ref_lt (visited : gmap Cell Point) (a b : Cell) : bool :=
  Point_lt (visited !!! a) (visited !!! b).

Definition neighbors (p : Point) (obstacles : list Cell) (N M : Z)
    : list Cell :=
  fold_left
    (fun good_neighbors d =>
       let x := x p + d.1 in
       let y := y p + d.2 in
       if mem (x, y) obstacles || (y <=? 0) || (x <=? 0)
          || (N <=? y) || (M <=? x)
       then good_neighbors
       else if negb (d.1 =? 0) && negb (d.2 =? 0)
               && (mem (Pathfinder.x p + d.1, Pathfinder.y p) obstacles
                   || mem (Pathfinder.x p, Pathfinder.y p + d.2) obstacles)
       then good_neighbors
       else good_neighbors ++ [(x, y)])
    directions [].

(** The loop of [retrace_steps]; [current] is a reference or [None]. *)
Fixpoint retrace_loop (fuel : nat) (visited : gmap Cell Point)
    (current : option Cell) (path : list Cell) : option (list Cell) :=
  match current with
  | None => Some path
  | Some c =>
      match fuel with
      | O => None
      | S fuel =>
          let cur := visited !!! c in
          retrace_loop fuel visited (parent cur) (path ++ [(x cur, y cur)])
      end
  end.

(** [retrace_steps]: the parent links visit every [Point] at most once,
    so the fuel is the number of points. *)
Definition retrace_steps (visited : gmap Cell Point) (p : Cell)
    : option (list Cell) :=
  reverse <$> retrace_loop (size visited) visited (Some p) [].

(** The body of [for n in my_neighbors]. *)
Definition visit (p2 current : Cell)
    (st : list Cell * gmap Cell Point) (n : Cell)
    : list Cell * gmap Cell Point :=
  let '(openpoints, visited) := st in
  let cur := visited !!! current in
  match visited !! n with
  | Some p =>
      if state p =? 1 then st
      else
        let offered_gscore :=
          s_add (g_score cur) (s_dist n (x cur, y cur)) in
        if s_ge offered_gscore (g_score p) then st
        else
          let p := mkPoint (x p) (y p)
                     (s_add offered_gscore (s_dist n p2)) offered_gscore
                     (state p) (Some current) in
          let visited := <[n := p]> visited in
          (Heapq.heapify (ref_lt visited) openpoints, visited)
  | None =>
      let g_score := s_dist (x cur, y cur) n in
      let f_score := s_add g_score (s_dist n p2) in
      let p := mkPoint n.1 n.2 f_score g_score 0 (Some current) in
      let visited := <[(x p, y p) := p]> visited in
      (Heapq.heappush (ref_lt visited) openpoints (x p, y p), visited)
  end.

(** [current.state = 1] *)
Definition set_closed (p : Point) : Point :=
  mkPoint (x p) (y p) (f_score p) (g_score p) 1 (parent p).

(** One iteration of [while openpoints], from the test of the loop to
    the end of its body: [inl r] when the function returns [r], [inr] of
    the heap and the dictionary when the loop goes on. *)
Definition iteration (p2 : Cell) (obstacles : list Cell) (N M : Z)
    (openpoints : list Cell) (visited : gmap Cell Point)
    : option (list Cell) + list Cell * gmap Cell Point :=
  match openpoints with
  | [] => inl (Some [])
  | _ :: _ =>
      match Heapq.heappop (ref_lt visited) openpoints with
      | None => inl None
      | Some (current, openpoints) =>
          let visited := alter set_closed current visited in
          let cur := visited !!! current in
          if (x cur =? p2.1) && (y cur =? p2.2) then
            inl (retrace_steps visited current)
          else
            let my_neighbors := neighbors cur obstacles N M in
            inr (fold_left (visit p2 current) my_neighbors
                   (openpoints, visited))
      end
  end.

(** The [while openpoints] loop. [None]: out of fuel. *)
Fixpoint navigate_loop (fuel : nat) (p2 : Cell) (obstacles : list Cell)
    (N M : Z) (openpoints : list Cell) (visited : gmap Cell Point)
    : option (list Cell) :=
  match fuel with
  | O => None
  | S fuel =>
      match iteration p2 obstacles N M openpoints visited with
      | inl result => result
      | inr (openpoints, visited) =>
          navigate_loop fuel p2 obstacles N M openpoints visited
      end
  end.

Definition navigate (p1 p2 : Cell) (obstacles : list Cell) (N M : Z)
    : option (list Cell) :=
  let start := mkPoint p1.1 p1.2 s_zero s_zero 0 None in
  let visited : gmap Cell Point := {[p1 := start]} in
  let openpoints := Heapq.heappush (ref_lt visited) [] p1 in
  navigate_loop (search_fuel N M) p2 obstacles N M openpoints visited.

Definition get_path_to_obstacle (waypoint obstacle : Cell)
    (obstacles : list Cell) (N M : Z) : option (list Cell) :=
  path_to_obstacle ← navigate waypoint obstacle obstacles N M;
  match path_to_obstacle with
  | _ :: _ => Some (removelast path_to_obstacle)
  | [] => Some []
  end.

(** [for obstacle in obstacles]: the scan for the obstacle with the least
    sum of distances; the state is [(obstacle_point, min_distance)]. *)
Definition nearest_obstacle (w_i w_i1 : Cell) (obstacles : list Cell)
    : option Cell :=
  fst (fold_left
         (fun '(obstacle_point, min_distance) obstacle =>
            let dist := s_add (s_dist w_i obstacle) (s_dist obstacle w_i1) in
            if s_lt dist min_distance then (Some obstacle, dist)
            else (obstacle_point, min_distance))
         obstacles (None, s_inf)).

(** [for i in range(len(waypoints) - 1)]: the list is walked by pairs
    [(waypoints[i], waypoints[i + 1])], [i] counted from 0. *)
Fixpoint find_path_loop (i : nat) (waypoints : list Cell)
    (obstacles : list Cell) (N M : Z) (final_path : list Cell)
    : option (list Cell * bool) :=
  match waypoints with
  | w_i :: ((w_i1 :: _) as rest) =>
      path_segment ← navigate w_i w_i1 obstacles N M;
      match path_segment with
      | [] =>
          match nearest_obstacle w_i w_i1 obstacles with
          | Some obstacle_point =>
              path_to_obstacle ←
                get_path_to_obstacle w_i obstacle_point obstacles N M;
              Some ((final_path ++ path_to_obstacle) ++ [obstacle_point], false)
          | None => Some (final_path, false)
          end
      | _ :: _ =>
          if (i =? 0)%nat then
            find_path_loop (S i) rest obstacles N M (final_path ++ path_segment)
          else
            find_path_loop (S i) rest obstacles N M
              (final_path ++ tail path_segment)
      end
  | _ => Some (final_path, true)
  end.

Definition find_path (waypoints : list Cell) (polygons : list Cell)
    (N M : Z) : option (list Cell * bool) :=
  let obstacles := polygons in
  find_path_loop 0 waypoints obstacles N M [].
End Pathfinder.
End Pathfinder.

(** ** The search the two files share *)

(** The control structure of [retrace_steps] and [navigate] is the same in
    both files; they differ in the fields of [Point], in [__lt__], in
    [neighbors] and in the scores they store.  [Astar] is that structure
    over these parts, used to prove once what holds for both;
    [APCSP.navigate_loop] and [Pathfinder.navigate_loop] are instances of
    it (lemmas [APCSP_navigate_loop_eq] and [Pathfinder_navigate_loop_eq]). *)
Module Astar.
Section Astar.
Context {P : Type} `{!Inhabited P}.
(** [(p.x, p.y)], the closed flag, the parent reference. *)
Variable coords : P -> Cell.
Variable closed : P -> bool.
Variable par : P -> option Cell.
(** Marking a point closed. *)
Variable close : P -> P.
(** The comparison of two references, given the dictionary. *)
Variable lt : gmap Cell P -> Cell -> Cell -> bool.
Variable nbrs : P -> list Cell.
(** The test that the end is reached. *)
Variable reached : P -> bool.
(** [worse cur n p]: the offered score is [>=] the score of [p]. *)
Variable worse : P -> Cell -> P -> bool.
(** [relaxed current cur n p]: [p] after its update through [current]. *)
Variable relaxed : Cell -> P -> Cell -> P -> P.
(** [fresh current cur n]: the new point for [n], found from [current]. *)
Variable fresh : Cell -> P -> Cell -> P.

Fixpoint retrace_loop (fuel : nat) (store : gmap Cell P)
    (current : option Cell) (path : list Cell) : option (list Cell) :=
  match current with
  | None => Some path
  | Some c =>
      match fuel with
      | O => None
      | S fuel =>
          let cur := store !!! c in
          retrace_loop fuel store (par cur) (path ++ [coords cur])
      end
  end.

Definition retrace_steps (store : gmap Cell P) (p : Cell)
    : option (list Cell) :=
  reverse <$> retrace_loop (size store) store (Some p) [].

Definition visit (current : Cell) (st : list Cell * gmap Cell P) (n : Cell)
    : list Cell * gmap Cell P :=
  let '(heap, store) := st in
  let cur := store !!! current in
  match store !! n with
  | Some p =>
      if closed p then st
      else if worse cur n p then st
      else
        let p := relaxed current cur n p in
        let store := <[n := p]> store in
        (Heapq.heapify (lt store) heap, store)
  | None =>
      let p := fresh current cur n in
      let store := <[coords p := p]> store in
      (Heapq.heappush (lt store) heap (coords p), store)
  end.

Definition iteration (heap : list Cell) (store : gmap Cell P)
    : option (list Cell) + list Cell * gmap Cell P :=
  match heap with
  | [] => inl (Some [])
  | _ :: _ =>
      match Heapq.heappop (lt store) heap with
      | None => inl None
      | Some (current, heap) =>
          let store := alter close current store in
          let cur := store !!! current in
          if reached cur then inl (retrace_steps store current)
          else inr (fold_left (visit current) (nbrs cur) (heap, store))
      end
  end.

Fixpoint navigate_loop (fuel : nat) (heap : list Cell) (store : gmap Cell P)
    : option (list Cell) :=
  match fuel with
  | O => None
  | S fuel =>
      match iteration heap store with
      | inl result => result
      | inr (heap, store) => navigate_loop fuel heap store
      end
  end.

(** The heap and the store at the head of the loop after [k] iterations
    from [heap0] and [store0]; [None] when the loop has returned before. *)
Fixpoint loop_state (k : nat) (heap0 : list Cell) (store0 : gmap Cell P)
    : option (list Cell * gmap Cell P) :=
  match k with
  | O => Some (heap0, store0)
  | S k =>
      '(heap, store) ← loop_state k heap0 store0;
      match iteration heap store with
      | inl _ => None
      | inr st => Some st
      end
  end.

(** *** The invariant of the loop *)

(** [edge q c]: the step from [q] to its neighbour [c] is one [nbrs]
    offers. *)
Variable edge : Cell -> Cell -> Prop.
Variable start : Cell.

(** [chain store c path]: following the parent references from [c] leads
    through closed points to the start point, the only one without a
    parent; [path] lists the cells from the start to [c]. *)
Inductive chain (store : gmap Cell P) : Cell -> list Cell -> Prop :=
  | chain_root p :
      store !! start = Some p -> par p = None -> chain store start [start]
  | chain_step c p q pq path :
      store !! c = Some p -> par p = Some q ->
      store !! q = Some pq -> closed pq = true ->
      edge q c -> chain store q path ->
      chain store c (path ++ [c]).

(** The invariant at the head of the loop, after [k] iterations: the heap
    holds distinct references to open points; every point is registered
    under its own coordinates, for a cell of [universe]; every point has a
    chain, of at most [k] cells when closed and [k + 1] when open; and [k]
    points are closed. *)
Record Inv (universe : list Cell) (k : nat) (heap : list Cell)
    (store : gmap Cell P) : Prop := {
  inv_nodup : NoDup heap;
  inv_open : forall c, c ∈ heap ->
    exists p, store !! c = Some p /\ closed p = false;
  inv_coords : forall c p, store !! c = Some p -> coords p = c;
  inv_universe : forall c p, store !! c = Some p -> c ∈ universe;
  inv_chain : forall c p, store !! c = Some p ->
    exists path, chain store c path
      /\ (length path <= if closed p then k else S k)%nat;
  inv_closed : exists cl, NoDup cl /\ length cl = k
    /\ forall c, c ∈ cl <-> exists p, store !! c = Some p /\ closed p = true
}.

(** The state inside [for n in my_neighbors]: the invariant, and the
    point of [current] is registered and closed. *)
Definition Inner (universe : list Cell) (k : nat) (current : Cell)
    (st : list Cell * gmap Cell P) : Prop :=
  Inv universe k st.1 st.2
  /\ exists cur, st.2 !! current = Some cur /\ closed cur = true.
End Astar.
End Astar.

(** What the search has explored.  [current] is the cell whose neighbours
    the loop is going through, [None] at the head of the [while] loop.  The
    start cell is registered; every open point is in the heap; every step
    from a closed point other than [current] leads to a registered cell;
    and the end cell is not closed. *)
Section Explored.
Context {P : Type}.
Variable closed : P -> bool.
Variable edge : Cell -> Cell -> Prop.
Variable start end_ : Cell.

Record Explored (current : option Cell) (heap : list Cell)
    (store : gmap Cell P) : Prop := {
  exp_start : is_Some (store !! start);
  exp_open : forall c p, store !! c = Some p -> closed p = false -> c ∈ heap;
  exp_edge : forall c p n, store !! c = Some p -> closed p = true ->
    current <> Some c -> edge c n -> is_Some (store !! n);
  exp_end : forall p, store !! end_ = Some p -> closed p = false
}.
End Explored.

(** ** Paths *)

(** Two cells are 8-adjacent: distinct, and one step apart at most in each
    coordinate. *)
Definition adjacent8 (a b : Cell) : Prop :=
  a <> b /\ Z.abs (a.1 - b.1) <= 1 /\ Z.abs (a.2 - b.2) <= 1.

(** Every step of [path] is in the relation [edge]. *)
Fixpoint is_walk (edge : Cell -> Cell -> Prop) (path : list Cell) : Prop :=
  match path with
  | a :: (b :: _) as rest => edge a b /\ is_walk edge rest
  | _ => True
  end.

(** The cells of the rectangle [0 < c.1 < A], [0 < c.2 < B]. *)
Definition rectangle (A B : Z) : list Cell :=
  list_prod (seqZ 1 (A - 1)) (seqZ 1 (B - 1)).

(** The step counts [(orthogonal, diagonal)] of a path; its Euclidean
    length is [orthogonal + diagonal * sqrt 2]. *)
Fixpoint steps (path : list Cell) : nat * nat :=
  match path with
  | a :: (b :: _) as rest =>
      let '(o, d) := steps rest in
      if (a.1 =? b.1) || (a.2 =? b.2) then (S o, d) else (o, S d)
  | _ => (O, O)
  end.

(** [shorter s t]: the step counts [s] give a strictly shorter length than
    [t], having no more steps of either kind and fewer of one. *)
Definition shorter (s t : nat * nat) : Prop :=
  (s.1 <= t.1)%nat /\ (s.2 <= t.2)%nat /\ s <> t.

(** The consecutive pairs [(waypoints[i], waypoints[i + 1])]. *)
Fixpoint pairs (waypoints : list Cell) : list (Cell * Cell) :=
  match waypoints with
  | w_i :: ((w_i1 :: _) as rest) => (w_i, w_i1) :: pairs rest
  | _ => []
  end.

(** [c] can be reached from [start] by steps of [edge]: some walk leads
    from [start] to [c]. *)
Definition reachable (edge : Cell -> Cell -> Prop) (start c : Cell) : Prop :=
  exists path, head path = Some start /\ last path = Some c /\ is_walk edge path.

(** ** APCSP_pathfinder.py: the parts of the shared search, and what
    [neighbors] accepts *)
Module APCSP_parts.
Section APCSP_parts.
Context {F : Type} `{!Score F}.
Variables (end_ : Cell) (obstacles : list Cell) (N M : Z).
Abbreviation Point := (@APCSP.Point F).

Definition coords (p : Point) : Cell := (APCSP.x p, APCSP.y p).

Definition reached (cur : Point) : bool :=
  (APCSP.x cur =? end_.1) && (APCSP.y cur =? end_.2).

Definition worse (cur : Point) (n : Cell) (p : Point) : bool :=
  s_ge (s_add (APCSP.dist_to_start cur) (s_dist n (APCSP.x cur, APCSP.y cur)))
       (APCSP.dist_to_start p).

Definition relaxed (current : Cell) (cur : Point) (n : Cell)
    (p : Point) : Point :=
  APCSP.mkPoint (APCSP.x p) (APCSP.y p)
    (s_add (APCSP.dist_to_start cur) (s_dist n (APCSP.x cur, APCSP.y cur)))
    (s_dist n end_) (APCSP.visited p) (Some current).

Definition fresh (current : Cell) (cur : Point) (n : Cell)
    : Point :=
  APCSP.mkPoint n.1 n.2 (s_dist (APCSP.x cur, APCSP.y cur) n) (s_dist n end_)
    false (Some current).

(** The cell passes the tests of [neighbors]: not an obstacle, row in
    [(0, N)] and column in [(0, M)]. *)
Definition ok (c : Cell) : Prop :=
  (c ∉ obstacles) /\ 0 < c.1 < N /\ 0 < c.2 < M.

(** A step [neighbors] offers. *)
Definition edge (q c : Cell) : Prop := adjacent8 q c /\ ok c.

(** The cells that can get a [Point]. *)
Definition universe (start : Cell) : list Cell := start :: rectangle N M.

(** The sum [dist_to_start + dist_to_end] of a point. *)
Definition total (p : Point) : F :=
  s_add (APCSP.dist_to_start p) (APCSP.dist_to_end p).

(** The heap and the dictionary at the head of the loop of
    [navigate start end_ obstacles N M] after [k] iterations; [None] when
    the function has returned before. *)
Fixpoint loop_state (k : nat) (start : Cell)
    : option (list Cell * gmap Cell Point) :=
  match k with
  | O => Some ([start],
               {[start := APCSP.mkPoint start.1 start.2 s_zero
                            (s_dist start end_) false None]})
  | S k =>
      '(candidates, point_dict) ← loop_state k start;
      match APCSP.iteration end_ obstacles N M candidates point_dict with
      | inl _ => None
      | inr st => Some st
      end
  end.
End APCSP_parts.
End APCSP_parts.

(** ** pathfinder.py: the parts of the shared search, and what
    [neighbors] accepts *)
Module Pathfinder_parts.
Section Pathfinder_parts.
Context {F : Type} `{!Score F}.
Variables (p2 : Cell) (obstacles : list Cell) (N M : Z).
Abbreviation Point := (@Pathfinder.Point F).

Definition coords (p : Point) : Cell :=
  (Pathfinder.x p, Pathfinder.y p).

Definition closed (p : Point) : bool := Pathfinder.state p =? 1.

Definition reached (cur : Point) : bool :=
  (Pathfinder.x cur =? p2.1) && (Pathfinder.y cur =? p2.2).

Definition worse (cur : Point) (n : Cell) (p : Point)
    : bool :=
  s_ge (s_add (Pathfinder.g_score cur)
              (s_dist n (Pathfinder.x cur, Pathfinder.y cur)))
       (Pathfinder.g_score p).

Definition relaxed (current : Cell) (cur : Point) (n : Cell)
    (p : Point) : Point :=
  Pathfinder.mkPoint (Pathfinder.x p) (Pathfinder.y p)
    (s_add (s_add (Pathfinder.g_score cur)
                  (s_dist n (Pathfinder.x cur, Pathfinder.y cur)))
           (s_dist n p2))
    (s_add (Pathfinder.g_score cur)
           (s_dist n (Pathfinder.x cur, Pathfinder.y cur)))
    (Pathfinder.state p) (Some current).

Definition fresh (current : Cell) (cur : Point) (n : Cell)
    : Point :=
  Pathfinder.mkPoint n.1 n.2
    (s_add (s_dist (Pathfinder.x cur, Pathfinder.y cur) n) (s_dist n p2))
    (s_dist (Pathfinder.x cur, Pathfinder.y cur) n)
    0 (Some current).

(** The cell passes the first test of [neighbors]: not an obstacle, second
    coordinate in [(0, N)] and first coordinate in [(0, M)]. *)
Definition ok (c : Cell) : Prop :=
  (c ∉ obstacles) /\ 0 < c.2 < N /\ 0 < c.1 < M.

(** A step [neighbors] offers: to an accepted cell, and when diagonal, with
    no obstacle on either cell of the corner. *)
Definition edge (q c : Cell) : Prop :=
  adjacent8 q c /\ ok c
  /\ (q.1 <> c.1 -> q.2 <> c.2 ->
      ((c.1, q.2) ∉ obstacles) /\ ((q.1, c.2) ∉ obstacles)).

(** The cells that can get a [Point]. *)
Definition universe (start : Cell) : list Cell := start :: rectangle M N.

(** The heap and the dictionary at the head of the loop of
    [navigate p1 p2 obstacles N M] after [k] iterations; [None] when the
    function has returned before. *)
Fixpoint loop_state (k : nat) (p1 : Cell)
    : option (list Cell * gmap Cell Point) :=
  match k with
  | O => Some ([p1],
               {[p1 := Pathfinder.mkPoint p1.1 p1.2 s_zero s_zero 0 None]})
  | S k =>
      '(openpoints, visited) ← loop_state k p1;
      match Pathfinder.iteration p2 obstacles N M openpoints visited with
      | inl _ => None
      | inr st => Some st
      end
  end.
End Pathfinder_parts.
End Pathfinder_parts.

(** ** The two files side by side *)

(** The two variants of the program. *)
Inductive variant : Set :=
  | APCSP_file        (* APCSP_pathfinder.py *)
  | Pathfinder_file.  (* pathfinder.py *)

Definition navigate_in {F : Type} `{!Score F} (v : variant)
    : Cell -> Cell -> list Cell -> Z -> Z -> option (list Cell) :=
  match v with
  | APCSP_file => APCSP.navigate
  | Pathfinder_file => Pathfinder.navigate
  end.

(** The steps [neighbors] offers, in either file. *)
Definition step_in (v : variant) (obstacles : list Cell) (N M : Z)
    : Cell -> Cell -> Prop :=
  match v with
  | APCSP_file => APCSP_parts.edge obstacles N M
  | Pathfinder_file => Pathfinder_parts.edge obstacles N M
  end.

(** The cell passes the tests [neighbors] makes on a candidate, in either
    file. *)
Definition accepted_in (v : variant) (obstacles : list Cell) (N M : Z)
    : Cell -> Prop :=
  match v with
  | APCSP_file => APCSP_parts.ok obstacles N M
  | Pathfinder_file => Pathfinder_parts.ok obstacles N M
  end.

(** The cells that [neighbors] is specified to exclude, on a grid of [N]
    rows and [M] columns: the obstacles and the cells of row or column
    [<= 0]; and for [APCSP_pathfinder.py] the cells of row [>= N] or column
    [>= M].  A cell is a [(row, column)] pair: the callers of both files
    build the waypoints and the obstacles so, and index the grid of [N]
    rows by the first coordinate.  [neighbors] of [pathfinder.py] compares
    the first coordinate with [M] and the second with [N]; its upper bounds
    are left out here. *)
Definition excluded (v : variant) (obstacles : list Cell) (N M : Z)
    (c : Cell) : Prop :=
  c ∈ obstacles \/ c.1 <= 0 \/ c.2 <= 0
  \/ match v with
     | APCSP_file => N <= c.1 \/ M <= c.2
     | Pathfinder_file => False
     end.

(** [c] is never among the cells [neighbors] returns. *)
Definition never_neighbor {F : Type} `{!Score F} (v : variant)
    (obstacles : list Cell) (N M : Z) (c : Cell) : Prop :=
  match v with
  | APCSP_file =>
      forall p : @APCSP.Point F, c ∉ APCSP.neighbors p obstacles N M
  | Pathfinder_file =>
      forall p : @Pathfinder.Point F, c ∉ Pathfinder.neighbors p obstacles N M
  end.

(** The assembled route the chainer of pathfinder.py is said to build from
    the segments: the first segment whole, of every later segment the cells
    after the first. *)
Definition joined (segments : list (list Cell)) : list Cell :=
  match segments with
  | [] => []
  | first :: later => first ++ concat (tail <$> later)
  end.

(** ** Python lists, and the grid of the GUI *)

(** What a list operation can raise. *)
Inductive exn : Set := IndexError | ValueError | KeyError | TypeError.

(** A computation that returns a value or raises an exception. *)
Inductive result (A : Type) : Type :=
  | Ok (a : A)
  | Raise (e : exn).
Arguments Ok {A} a.
Arguments Raise {A} e.

#[global] Instance exn_eq_dec : EqDecision exn.
Proof. solve_decision. Defined.

#[global] Instance result_eq_dec {A : Type} `{!EqDecision A}
  : EqDecision (result A).
Proof. solve_decision. Defined.

#[global] Instance result_ret : MRet result := @Ok.
#[global] Instance result_bind : MBind result :=
  fun A B f r => match r with Ok a => f a | Raise e => Raise e end.

(** A [for] loop over [l] whose body can raise; [b] is what the body
    updates. *)
Fixpoint foldM {A B : Type} (f : B -> A -> result B) (l : list A) (b : B)
    : result B :=
  match l with
  | [] => Ok b
  | a :: l => b ← f b a; foldM f l b
  end.

(** The position of [l[i]]: a negative index counts from the end, and an
    index out of range raises [IndexError]. *)
Definition index {A : Type} (l : list A) (i : Z) : result nat :=
  let n := Z.of_nat (length l) in
  let i := if i <? 0 then i + n else i in
  if (0 <=? i) && (i <? n) then Ok (Z.to_nat i) else Raise IndexError.

(** [l[i]] *)
Definition getitem {A : Type} (l : list A) (i : Z) : result A :=
  j ← index l i;
  match l !! j with
  | Some a => Ok a
  | None => Raise IndexError
  end.

(** [l[i] = v] *)
Definition setitem {A : Type} (l : list A) (i : Z) (v : A) : result (list A) :=
  j ← index l i; Ok (<[j := v]> l).

(** [l.remove(x)]: the first item equal to [x] is removed, and
    [ValueError] is raised when there is none. *)
Fixpoint remove {A : Type} `{!EqDecision A} (x : A) (l : list A)
    : result (list A) :=
  match l with
  | [] => Raise ValueError
  | y :: l => if decide (y = x) then Ok l else l ← remove x l; Ok (y :: l)
  end.

(** The grid: a list of rows, each a list of cell values (0 empty,
    1 waypoint, 2 obstacle, 3 route, 4 no route).  The rows are distinct
    list objects, as both files build them, so that a write to a cell
    changes one row. *)
Abbreviation Grid := (list (list Z)).

(** [grid[row][column]] *)
Definition getcell (grid : Grid) (row column : Z) : result Z :=
  r ← getitem grid row; getitem r column.

(** [grid[row][column] = v] *)
Definition setcell (grid : Grid) (row column v : Z) : result Grid :=
  r ← getitem grid row; r ← setitem r column v; setitem grid row r.

(** ** APCSP_pathfinder.py: the functions of the GUI *)
Module APCSP_gui.

Definition grid_to_obstacles (grid : Grid) (N M : Z) : result (list Cell) :=
  foldM (fun obstacles r =>
           foldM (fun obstacles c =>
                    v ← getcell grid r c;
                    if v =? 2 then Ok (obstacles ++ [(r, c)])
                    else Ok obstacles)
                 (seqZ 0 M) obstacles)
        (seqZ 0 N) [].

(** [update_grid] changes [grid] and [waypoints] in place: it returns
    them. *)
Definition update_grid (grid : Grid) (waypoints : list Cell)
    (row column : Z) (last_key : string) : result (Grid * list Cell) :=
  if String.eqb last_key "a" then
    let waypoints := waypoints ++ [(row, column)] in
    grid ← setcell grid row column 1;
    Ok (grid, waypoints)
  else if String.eqb last_key "d" then
    v ← getcell grid row column;
    '(grid, waypoints) ←
      (if v =? 1 then
         waypoints ← remove (row, column) waypoints; Ok (grid, waypoints)
       else
         v ← getcell grid row column;
         if v =? 2 then
           grid ← foldM (fun grid '(x, y) => setcell grid x y 1) waypoints grid;
           Ok (grid, waypoints)
         else Ok (grid, waypoints));
    grid ← setcell grid row column 0;
    Ok (grid, waypoints)
  else if String.eqb last_key "s" then
    v ← getcell grid row column;
    waypoints ← (if v =? 1 then remove (row, column) waypoints
                 else Ok waypoints);
    grid ← setcell grid row column 2;
    Ok (grid, waypoints)
  else Ok (grid, waypoints).

(** The loop [for i in range(len(waypoints) - 1)] of
    [update_path_on_grid], over the indices left. *)
Fixpoint update_path_loop (indices : list nat) (grid : Grid)
    (path_list : list (list Cell)) (waypoints : list Cell) : result Grid :=
  match indices with
  | [] => Ok grid
  | i :: indices =>
      path ← getitem path_list (Z.of_nat i);
      if (length path =? 0)%nat then
        '(x, y) ← getitem waypoints (Z.of_nat i + 1);
        setcell grid x y 4
      else
        grid ← foldM (fun grid p =>
                        if mem p waypoints then Ok grid
                        else let '(x, y) := p in setcell grid x y 3)
                     path grid;
        update_path_loop indices grid path_list waypoints
  end.

Definition update_path_on_grid (grid : Grid) (path_list : list (list Cell))
    (waypoints : list Cell) : result Grid :=
  update_path_loop (seq 0 (length waypoints - 1)) grid path_list waypoints.

(** What [draw_grid] asks of pygame: [screen.fill(color)] and
    [pygame.draw.rect(screen, color, rect)]. *)
Inductive command : Set :=
  | fill (color : Z * Z * Z)
  | rect (color : Z * Z * Z) (r : Z * Z * Z * Z).

Definition point_types : list string :=
  ["border"; "waypoint"; "obstacle"; "route"; "route_unavailable"].

Definition colors : list (string * (Z * Z * Z)) :=
  [("background", (10, 10, 40));
   ("border", (30, 30, 60));
   ("waypoint", (0, 255, 0));
   ("obstacle", (255, 255, 255));
   ("route", (143, 212, 242));
   ("route_unavailable", (232, 66, 51))].

(** [d[k]] for a dictionary given by its items. *)
Definition getkey {V : Type} (d : list (string * V)) (k : string) : result V :=
  match list_find (fun kv => kv.1 = k) d with
  | Some (_, (_, v)) => Ok v
  | None => Raise KeyError
  end.

(** [draw_grid] returns the calls it makes, in order. *)
Definition draw_grid (grid : Grid) (waypoints : list Cell) (N M : Z)
    (width height margin : Z) : result (list command) :=
  background ← getkey colors "background";
  foldM (fun screen row =>
           foldM (fun screen column =>
                    cell ← getcell grid row column;
                    name ← getitem point_types cell;
                    color ← getkey colors name;
                    let rect_ := ((margin + width) * column + margin,
                                  (margin + height) * row + margin,
                                  width, height) in
                    Ok (screen ++ [rect color rect_]))
                 (seqZ 0 M) screen)
        (seqZ 0 N) [fill background].

(** *** [main]: the event loop *)

(** The events of pygame that [main] tells apart, and the keys. *)
Inductive event_type : Set := KEYDOWN | QUIT | OTHER.
Inductive key : Set := K_a | K_s | K_d | K_f | K_BACKSPACE | K_other.

(** An event that [pygame.event.get()] returns, with the answers of
    [pygame.mouse.get_pressed()[0]] and [pygame.mouse.get_pos()] at the time
    the event is handled.  [e_key] is read for a [KEYDOWN] event only. *)
Record Event : Set := {
  e_type : event_type;
  e_key : key;
  get_pressed : bool;
  get_pos : Z * Z
}.

(** The local variables of [main] that the loop changes. *)
Record Locals : Set := {
  grid : Grid;
  waypoints : list Cell;
  last_grid_changed : Cell;
  last_key : string
}.

(** What handling an event leads to: the loop goes on, or [sys.exit(0)]. *)
Inductive outcome : Set :=
  | Continue (st : Locals)
  | Exit.

Section main.
Context {F : Type} `{!Score F}.
Variables (N M : Z).
(** [width, height, margin = 20, 20, 1] *)
Definition width : Z := 20.
Definition height : Z := 20.
Definition margin : Z := 1.

(** The branch of the key [f] when there are two waypoints or more: the
    grid after it.  The outer [None] is a search out of fuel. *)
Definition find_and_show (grid : Grid) (waypoints : list Cell)
    : option (result Grid) :=
  match grid_to_obstacles grid N M with
  | Raise e => Some (Raise e)
  | Ok obstacles =>
      path ← APCSP.find_path (F:=F) waypoints obstacles N M;
      Some (grid ← foldM (fun grid i =>
                            grid ← update_path_on_grid grid (take (i + 1) path)
                                     (take (i + 2) waypoints);
                            _ ← draw_grid grid (take (i + 2) waypoints) N M
                                  width height margin;
                            Ok grid)
                         (seq 0 (length path - 1)) grid;
            update_path_on_grid grid path waypoints)
  end.

(** The body of [for event in pygame.event.get()]. *)
Definition on_event (st : Locals) (event : Event) : option (result outcome) :=
  match e_type event with
  | KEYDOWN =>
      match e_key event with
      | K_a => Some (Ok (Continue {| grid := grid st; waypoints := waypoints st;
                 last_grid_changed := last_grid_changed st; last_key := "a" |}))
      | K_s => Some (Ok (Continue {| grid := grid st; waypoints := waypoints st;
                 last_grid_changed := last_grid_changed st; last_key := "s" |}))
      | K_d => Some (Ok (Continue {| grid := grid st; waypoints := waypoints st;
                 last_grid_changed := last_grid_changed st; last_key := "d" |}))
      | K_f =>
          if (length (waypoints st) <=? 1)%nat then Some (Ok (Continue st))
          else
            r ← find_and_show (grid st) (waypoints st);
            Some (grid ← r;
                  Ok (Continue {| grid := grid; waypoints := waypoints st;
                        last_grid_changed := last_grid_changed st;
                        last_key := last_key st |}))
      | K_BACKSPACE =>
          Some (Ok (Continue
            {| grid := replicate (Z.to_nat N) (replicate (Z.to_nat M) 0);
               waypoints := [];
               last_grid_changed := last_grid_changed st;
               last_key := last_key st |}))
      | K_other => Some (Ok (Continue st))
      end
  | _ =>
      if get_pressed event then
        let pos := get_pos event in
        let column := pos.1 `div` (width + margin) in
        let row := pos.2 `div` (height + margin) in
        if bool_decide ((row, column) <> last_grid_changed st) then
          Some ('(grid, waypoints) ←
                  update_grid (grid st) (waypoints st) row column (last_key st);
                Ok (Continue {| grid := grid; waypoints := waypoints;
                      last_grid_changed := (row, column);
                      last_key := last_key st |}))
        else Some (Ok (Continue st))
      else
        match e_type event with
        | QUIT => Some (Ok Exit)
        | _ => Some (Ok (Continue st))
        end
  end.

(** [for event in pygame.event.get()] *)
Fixpoint events_loop (events : list Event) (st : Locals)
    : option (result outcome) :=
  match events with
  | [] => Some (Ok (Continue st))
  | event :: events =>
      r ← on_event st event;
      match r with
      | Ok (Continue st) => events_loop events st
      | _ => Some r
      end
  end.

(** The [while True] loop, over the event lists that the successive calls
    of [pygame.event.get()] return.  When they are used up the loop is
    still running, in the state returned. *)
Fixpoint main_loop (frames : list (list Event)) (st : Locals)
    : option (result outcome) :=
  match frames with
  | [] => Some (Ok (Continue st))
  | events :: frames =>
      r ← events_loop events st;
      match r with
      | Ok (Continue st) =>
          match draw_grid (grid st) (waypoints st) N M width height margin with
          | Ok _ => main_loop frames st
          | Raise e => Some (Raise e)
          end
      | _ => Some r
      end
  end.

Definition main (frames : list (list Event)) : option (result outcome) :=
  main_loop frames
    {| grid := replicate (Z.to_nat N) (replicate (Z.to_nat M) 0);
       waypoints := [];
       last_grid_changed := (-1, -1);
       last_key := "a" |}.
End main.
End APCSP_gui.


(** ** pathfinder.py: the functions of the GUI *)
Module Pathfinder_gui.

(** [draw] changes the module variables [grid] and [waypoints_grid]: it
    takes them and returns them. *)
Definition draw (grid : Grid) (waypoints_grid : list Cell) (row column : Z)
    (last_key : string) : result (Grid * list Cell) :=
  if String.eqb last_key "a" then
    let waypoints_grid := waypoints_grid ++ [(row, column)] in
    grid ← setcell grid row column 1;
    Ok (grid, waypoints_grid)
  else if String.eqb last_key "d" then
    v ← getcell grid row column;
    waypoints_grid ← (if v =? 1 then remove (row, column) waypoints_grid
                      else Ok waypoints_grid);
    grid ← setcell grid row column 0;
    Ok (grid, waypoints_grid)
  else if String.eqb last_key "s" then
    v ← getcell grid row column;
    waypoints_grid ← (if v =? 1 then remove (row, column) waypoints_grid
                      else Ok waypoints_grid);
    grid ← setcell grid row column 2;
    Ok (grid, waypoints_grid)
  else Ok (grid, waypoints_grid).

Definition gui_to_obstacles (grid : Grid) : result (list Cell) :=
  foldM (fun border r =>
           foldM (fun border c =>
                    v ← getcell grid r c;
                    if v =? 2 then Ok (border ++ [(r, c)]) else Ok border)
                 (seqZ 0 60) border)
        (seqZ 0 40) [].

(** [main(waypoints)]; the outer [None] is a search out of fuel. *)
Definition main {F : Type} `{!Score F} (grid : Grid) (waypoints : list Cell)
    : option (result (list Cell * bool)) :=
  match gui_to_obstacles grid with
  | Raise e => Some (Raise e)
  | Ok polygons =>
      let N := 40 in
      let M := 60 in
      r ← Pathfinder.find_path (F:=F) waypoints polygons N M;
      Some (Ok r)
  end.

(** *** The key [f] *)

(** The handler binds [path] to what [main] returns, the pair
    [(final_path, flag)], and loops over it: [i] is an item of that pair,
    the list of cells or the flag. *)
Inductive item : Set :=
  | item_route (final_path : list Cell)
  | item_flag (direct : bool).











End Pathfinder_gui.

(** ** The states of the GUI *)

(** The grid has [N] rows of [M] cells. *)
Definition rectangular (N M : Z) (grid : Grid) : Prop :=
  length grid = Z.to_nat N
  /\ Forall (fun row => length row = Z.to_nat M) grid.

(** The cell is one of the grid of [N] rows and [M] columns. *)
Definition in_grid (N M : Z) (c : Cell) : Prop :=
  0 <= c.1 < N /\ 0 <= c.2 < M.

(** The state of the GUI that its functions keep: the grid has [N] rows of
    [M] cells with values from 0 to 4, the waypoints are cells of the grid,
    and every cell that holds the value 1 is in the list of waypoints. *)
Record consistent (N M : Z) (grid : Grid) (waypoints : list Cell) : Prop := {
  con_rect : rectangular N M grid;
  con_values : forall r c v,
    in_grid N M (r, c) -> getcell grid r c = Ok v -> 0 <= v <= 4;
  con_in_grid : Forall (in_grid N M) waypoints;
  con_waypoint : forall r c,
    in_grid N M (r, c) -> getcell grid r c = Ok 1 -> (r, c) ∈ waypoints
}.

(** The shape of the path lists that [update_path_on_grid] is called with:
    at most one segment for each pair of waypoints, only the last segment
    can be empty, and when segments lack the last one is empty. *)
Definition segments_shape (path_list : list (list Cell))
    (waypoints : list Cell) : Prop :=
  (forall k : nat, path_list !! k = Some [] -> S k = length path_list)
  /\ (length path_list <= length waypoints - 1)%nat
  /\ ((length path_list < length waypoints - 1)%nat ->
      last path_list = Some []).

(** The value of a cell of the grid. *)
Definition cell_value (grid : Grid) (c : Cell) : Z :=
  (grid !!! Z.to_nat c.1) !!! Z.to_nat c.2.

(** The colour [draw_grid] gives to a cell value from 0 to 4. *)
Definition color_of (v : Z) : Z * Z * Z :=
  if v =? 0 then (30, 30, 60)
  else if v =? 1 then (0, 255, 0)
  else if v =? 2 then (255, 255, 255)
  else if v =? 3 then (143, 212, 242)
  else (232, 66, 51).

(** The mouse position is inside the window of [main], of size
    [M * (width + margin)] by [N * (height + margin)]. *)
Definition in_window (N M : Z) (pos : Z * Z) : Prop :=
  0 <= pos.1 < M * (APCSP_gui.width + APCSP_gui.margin)
  /\ 0 <= pos.2 < N * (APCSP_gui.height + APCSP_gui.margin).

(** The mouse positions that are read lie inside the window. *)
Definition reads_in_window (N M : Z) (event : APCSP_gui.Event) : Prop :=
  APCSP_gui.e_type event <> APCSP_gui.KEYDOWN ->
  APCSP_gui.get_pressed event = true ->
  in_window N M (APCSP_gui.get_pos event).

(** * Proofs *)

(** ** heapq: the operations permute the list *)
Section HeapqFacts.
Context {A : Type} `{!Inhabited A}.
Variable lt : A -> A -> bool.
Implicit Types heap : list A.

(** Writing [x] at [j] after moving the item of [j] to [i] is, up to the
    order, writing [x] at [i]. *)
Lemma insert_move_perm heap (i j : nat) x :
  (i < length heap)%nat -> (j < length heap)%nat ->
  <[j := x]> (<[i := heap !!! j]> heap) ≡ₚ <[i := x]> heap.
Proof.
  intros Hi Hj. destruct (decide (i = j)) as [->|Hne].
  { by rewrite list_insert_insert_eq. }
  apply Permutation_inj. split.
  { by rewrite !length_insert. }
  exists (fun n => if decide (n = i) then j else if decide (n = j) then i else n).
  split.
  - intros a b. repeat case_decide; intros; subst; congruence.
  - intros n. repeat case_decide; subst.
    + rewrite list_lookup_insert_ne by done.
      rewrite list_lookup_insert_eq by done.
      rewrite list_lookup_insert_ne by done.
      symmetry. by apply list_lookup_lookup_total_lt.
    + rewrite list_lookup_insert_eq by (by rewrite length_insert).
      by rewrite list_lookup_insert_eq.
    + by rewrite !list_lookup_insert_ne.
Qed.

Lemma _siftdown_loop_perm fuel heap startpos pos newitem :
  (pos < length heap)%nat ->
  Heapq._siftdown_loop lt fuel heap startpos pos newitem
    ≡ₚ <[pos := newitem]> heap.
Proof.
  revert heap pos. induction fuel as [|fuel IH]; intros heap pos Hpos; simpl.
  { done. }
  destruct (startpos <? pos)%nat eqn:Hlt; [|done].
  destruct (lt newitem _); [|done].
  assert (Hpar : ((pos - 1) / 2 < length heap)%nat).
  { eapply Nat.le_lt_trans; [apply Nat.Div0.div_le_upper_bound with (q := (pos - 1)%nat); lia|lia]. }
  rewrite IH by (by rewrite length_insert).
  by apply insert_move_perm.
Qed.

Lemma _siftdown_perm heap startpos pos :
  (pos < length heap)%nat -> Heapq._siftdown lt heap startpos pos ≡ₚ heap.
Proof.
  intros Hpos. unfold Heapq._siftdown. rewrite _siftdown_loop_perm by done.
  rewrite list_insert_id; [done|]. by apply list_lookup_lookup_total_lt.
Qed.

Lemma _siftup_loop_perm fuel heap endpos pos newitem heap' pos' :
  (pos < length heap)%nat -> (endpos <= length heap)%nat ->
  Heapq._siftup_loop lt fuel heap endpos pos = (heap', pos') ->
  (pos' < length heap')%nat /\ <[pos' := newitem]> heap' ≡ₚ <[pos := newitem]> heap.
Proof.
  revert heap pos. induction fuel as [|fuel IH]; intros heap pos Hpos Hend;
    cbn [Heapq._siftup_loop].
  { intros Heq. injection Heq as -> ->. by split. }
  destruct (2 * pos + 1 <? endpos)%nat eqn:Hlt.
  2:{ intros Heq. injection Heq as -> ->. by split. }
  apply Nat.ltb_lt in Hlt.
  match goal with
  | |- context [Heapq._siftup_loop _ _ _ _ ?c] => set (childpos := c)
  end.
  assert (Hc : (childpos < length heap)%nat).
  { subst childpos. destruct (_ <? _)%nat eqn:Hr; simpl.
    - apply Nat.ltb_lt in Hr. destruct (negb _); lia.
    - lia. }
  intros Hloop. apply IH in Hloop as [Hp' Hperm]; rewrite ?length_insert; try done.
  split; [done|]. rewrite Hperm. by apply insert_move_perm.
Qed.

Lemma _siftup_perm heap pos :
  (pos < length heap)%nat -> Heapq._siftup lt heap pos ≡ₚ heap.
Proof.
  intros Hpos. unfold Heapq._siftup.
  destruct (Heapq._siftup_loop _ _ _ _ _) as [heap' pos'] eqn:Hloop.
  eapply (_siftup_loop_perm _ _ _ _ (heap !!! pos)) in Hloop as [Hp' Hperm]; try done.
  rewrite _siftdown_perm by (by rewrite length_insert).
  rewrite Hperm. rewrite list_insert_id; [done|].
  by apply list_lookup_lookup_total_lt.
Qed.

Lemma heappush_perm heap item : Heapq.heappush lt heap item ≡ₚ item :: heap.
Proof.
  unfold Heapq.heappush. rewrite _siftdown_perm.
  - by rewrite Permutation_app_comm.
  - rewrite length_app. simpl. lia.
Qed.

Lemma heappop_perm heap item heap' :
  Heapq.heappop lt heap = Some (item, heap') -> item :: heap' ≡ₚ heap.
Proof.
  unfold Heapq.heappop. destruct (last heap) as [lastelt|] eqn:Hlast; [|done].
  apply last_Some in Hlast as [front ->]. rewrite removelast_last.
  destruct front as [|returnitem front]; intros [= <- <-].
  { done. }
  rewrite _siftup_perm by (simpl; lia). simpl.
  f_equiv. by rewrite (Permutation_app_comm front).
Qed.

Lemma heappop_is_Some heap : heap <> [] -> is_Some (Heapq.heappop lt heap).
Proof.
  intros Hne. unfold Heapq.heappop. apply last_is_Some in Hne as [lastelt ->].
  destruct (removelast heap); eauto.
Qed.

Lemma heapify_perm heap : Heapq.heapify lt heap ≡ₚ heap.
Proof.
  unfold Heapq.heapify.
  assert (Hall : Forall (fun i => i < length heap)%nat (reverse (seq 0 (length heap / 2)))).
  { apply Forall_forall. intros i Hi. apply elem_of_reverse, elem_of_seq in Hi.
    assert (length heap / 2 <= length heap)%nat by (apply Nat.Div0.div_le_upper_bound; lia).
    lia. }
  revert Hall. generalize (reverse (seq 0 (length heap / 2))). intros l.
  assert (Hgen : forall h, h ≡ₚ heap -> Forall (fun i => i < length heap)%nat l ->
            fold_left (fun x i => Heapq._siftup lt x i) l h ≡ₚ heap).
  { induction l as [|i l IH]; intros h Hh Hall; simpl; [done|].
    inversion Hall; subst. apply IH; [|done].
    rewrite _siftup_perm; [done|]. by rewrite (Permutation_length Hh). }
  by apply Hgen.
Qed.
(** The fuel of the loops is enough: more of it changes nothing. *)
Lemma _siftdown_loop_fuel fuel fuel' heap startpos pos newitem :
  (pos <= fuel)%nat -> (pos <= fuel')%nat ->
  Heapq._siftdown_loop lt fuel heap startpos pos newitem
  = Heapq._siftdown_loop lt fuel' heap startpos pos newitem.
Proof.
  revert fuel' heap pos.
  induction fuel as [|fuel IH]; intros [|fuel'] heap pos Hf Hf';
    cbn [Heapq._siftdown_loop]; try done.
  - assert (pos = O) as -> by lia. by destruct (startpos <? 0)%nat eqn:E; [apply Nat.ltb_lt in E; lia|].
  - assert (pos = O) as -> by lia. by destruct (startpos <? 0)%nat eqn:E; [apply Nat.ltb_lt in E; lia|].
  - destruct (startpos <? pos)%nat eqn:E; [|done].
    destruct (lt newitem _); [|done].
    assert (((pos - 1) / 2 <= pos - 1)%nat).
    { apply Nat.Div0.div_le_upper_bound. lia. }
    apply Nat.ltb_lt in E. apply IH; lia.
Qed.

Lemma _siftup_loop_fuel fuel fuel' heap endpos pos :
  (endpos - pos <= fuel)%nat -> (endpos - pos <= fuel')%nat ->
  Heapq._siftup_loop lt fuel heap endpos pos
  = Heapq._siftup_loop lt fuel' heap endpos pos.
Proof.
  revert fuel' heap pos.
  induction fuel as [|fuel IH]; intros [|fuel'] heap pos Hf Hf';
    cbn [Heapq._siftup_loop]; try done.
  - destruct (2 * pos + 1 <? endpos)%nat eqn:E; [apply Nat.ltb_lt in E; lia|done].
  - destruct (2 * pos + 1 <? endpos)%nat eqn:E; [apply Nat.ltb_lt in E; lia|done].
  - destruct (2 * pos + 1 <? endpos)%nat eqn:E; [|done].
    apply Nat.ltb_lt in E.
    match goal with
    | |- Heapq._siftup_loop _ _ _ _ ?c = _ => set (childpos := c)
    end.
    assert (2 * pos + 1 <= childpos)%nat.
    { subst childpos. destruct (_ && _); lia. }
    apply IH; lia.
Qed.
End HeapqFacts.






Section HeapqOrder.
Context {A : Type} `{!Inhabited A}.
Variable lt : A -> A -> bool.
Hypothesis lt_asym : forall a b, lt a b = true -> lt b a = false.
Hypothesis lt_negtrans : forall a b c, lt a b = false -> lt b c = false -> lt a c = false.
Implicit Types heap : list A.










End HeapqOrder.

(** ** The shared search: invariant, termination, result *)
Lemma is_walk_snoc (edge : Cell -> Cell -> Prop) (path : list Cell) (q c : Cell) :
  is_walk edge path -> last path = Some q -> edge q c ->
  is_walk edge (path ++ [c]).
Proof.
  induction path as [|a [|b path] IH]; intros Hw Hl He.
  - done.
  - simpl in *. by simplify_eq.
  - destruct Hw as [Hab Hw]. split; [done|]. by apply IH.
Qed.

Lemma NoDup_length_le_size {V} (l : list Cell) (store : gmap Cell V) :
  NoDup l -> (forall c, c ∈ l -> is_Some (store !! c)) ->
  (length l <= size store)%nat.
Proof.
  intros Hnd Hin. rewrite <- size_dom. unfold size, set_size. simpl.
  apply submseteq_length, NoDup_submseteq; [done|].
  intros c Hc. apply elem_of_elements, elem_of_dom. by apply Hin.
Qed.

Section AstarFacts.
Context {P : Type} `{!Inhabited P}.
Variable coords : P -> Cell.
Variable closed : P -> bool.
Variable par : P -> option Cell.
Variable close : P -> P.
Variable lt : gmap Cell P -> Cell -> Cell -> bool.
Variable nbrs : P -> list Cell.
Variable reached : P -> bool.
Variable worse : P -> Cell -> P -> bool.
Variable relaxed : Cell -> P -> Cell -> P -> P.
Variable fresh : Cell -> P -> Cell -> P.
Variable edge : Cell -> Cell -> Prop.
Variable start end_ : Cell.
Variable universe : list Cell.

Hypothesis close_closed : forall p, closed (close p) = true.
Hypothesis close_par : forall p, par (close p) = par p.
Hypothesis close_coords : forall p, coords (close p) = coords p.
Hypothesis relaxed_closed : forall c cur n p, closed (relaxed c cur n p) = closed p.
Hypothesis relaxed_par : forall c cur n p, par (relaxed c cur n p) = Some c.
Hypothesis relaxed_coords : forall c cur n p, coords (relaxed c cur n p) = coords p.
Hypothesis fresh_closed : forall c cur n, closed (fresh c cur n) = false.
Hypothesis fresh_par : forall c cur n, par (fresh c cur n) = Some c.
Hypothesis fresh_coords : forall c cur n, coords (fresh c cur n) = n.
Hypothesis nbrs_edge : forall p n, n ∈ nbrs p -> edge (coords p) n.
Hypothesis nbrs_universe : forall p n, n ∈ nbrs p -> n ∈ universe.
Hypothesis reached_spec : forall p, reached p = true <-> coords p = end_.

(** For the order of the pops: the comparison is a strict weak order, reads
    only the two points it compares, and does not read the closed flag. *)
Hypothesis lt_asym : forall store a b,
  lt store a b = true -> lt store b a = false.
Hypothesis lt_negtrans : forall store a b c,
  lt store a b = false -> lt store b c = false -> lt store a c = false.
Hypothesis lt_agree : forall store store' a b,
  store !! a = store' !! a -> store !! b = store' !! b ->
  lt store a b = lt store' a b.
Hypothesis lt_close : forall store c a b,
  lt (alter close c store) a b = lt store a b.

Abbreviation chain := (Astar.chain closed par edge start).
Abbreviation Inv := (Astar.Inv coords closed par edge start universe).
Abbreviation Inner := (Astar.Inner coords closed par edge start universe).
Abbreviation visit := (Astar.visit coords closed lt worse relaxed fresh).
Abbreviation iteration :=
  (Astar.iteration coords closed par close lt nbrs reached worse relaxed fresh).
Abbreviation navigate_loop :=
  (Astar.navigate_loop coords closed par close lt nbrs reached worse relaxed fresh).
Abbreviation retrace_loop := (Astar.retrace_loop coords par).
Abbreviation retrace_steps := (Astar.retrace_steps coords par).
Abbreviation loop_state :=
  (Astar.loop_state coords closed par close lt nbrs reached worse relaxed fresh).

Implicit Types (store : gmap Cell P) (heap path : list Cell) (c n : Cell).

Lemma chain_last store c path : chain store c path -> last path = Some c.
Proof. destruct 1; [done|]. apply last_snoc. Qed.

Lemma chain_head store c path : chain store c path -> head path = Some start.
Proof.
  induction 1 as [|c p q pq path _ _ _ _ _ _ IH]; [done|].
  destruct path; [done|]. done.
Qed.

Lemma chain_walk store c path : chain store c path -> is_walk edge path.
Proof.
  induction 1 as [|c p q pq path _ _ _ _ He Hq IH]; [done|].
  eapply is_walk_snoc; [done| |done]. by eapply chain_last.
Qed.

Lemma chain_alter_close store n c path :
  chain store c path -> chain (alter close n store) c path.
Proof.
  induction 1 as [p Hs Hp|c p q pq path Hc Hp Hq Hcl He _ IH].
  - destruct (decide (n = start)) as [->|Hne].
    + eapply Astar.chain_root.
      * rewrite lookup_alter_eq, Hs. done.
      * by rewrite close_par.
    + eapply Astar.chain_root; [|done]. by rewrite lookup_alter_ne.
  - assert (Hc' : exists p', alter close n store !! c = Some p' /\ par p' = Some q).
    { destruct (decide (n = c)) as [->|Hne].
      - exists (close p). by rewrite lookup_alter_eq, Hc, close_par.
      - exists p. by rewrite lookup_alter_ne. }
    assert (Hq' : exists pq', alter close n store !! q = Some pq' /\ closed pq' = true).
    { destruct (decide (n = q)) as [->|Hne].
      - exists (close pq). by rewrite lookup_alter_eq, Hq, close_closed.
      - exists pq. by rewrite lookup_alter_ne. }
    destruct Hc' as (p' & ? & ?), Hq' as (pq' & ? & ?).
    by eapply Astar.chain_step.
Qed.

(** A chain does not go through an open or unregistered cell [n], so it
    survives a write at [n]. *)
Lemma chain_insert_ne store n p' c path :
  chain store c path ->
  (forall p, store !! n = Some p -> closed p = false) ->
  c <> n ->
  chain (<[n := p']> store) c path.
Proof.
  intros Hch Hn. induction Hch as [p Hs Hp|c p q pq path Hc Hp Hq Hcl He _ IH];
    intros Hne.
  - eapply Astar.chain_root; [|done]. by rewrite lookup_insert_ne.
  - assert (q <> n).
    { intros ->. apply Hn in Hq. congruence. }
    eapply Astar.chain_step; try done.
    + by rewrite lookup_insert_ne.
    + by rewrite lookup_insert_ne.
    + by apply IH.
Qed.

Lemma retrace_loop_chain store c path fuel acc :
  chain store c path ->
  (forall c p, store !! c = Some p -> coords p = c) ->
  (length path <= fuel)%nat ->
  retrace_loop fuel store (Some c) acc = Some (acc ++ reverse path).
Proof.
  intros Hch Hco. revert fuel acc.
  induction Hch as [p Hs Hp|c p q pq path Hc Hp Hq Hcl He _ IH];
    intros fuel acc Hlen.
  - destruct fuel as [|fuel]; [simpl in Hlen; lia|]. simpl.
    rewrite (lookup_total_correct _ _ _ Hs), Hp, (Hco _ _ Hs). by destruct fuel.
  - rewrite length_app in Hlen. simpl in Hlen.
    destruct fuel as [|fuel]; [lia|]. simpl.
    rewrite (lookup_total_correct _ _ _ Hc), Hp, (Hco _ _ Hc).
    rewrite IH by lia. rewrite reverse_app. simpl. by rewrite <- app_assoc.
Qed.

Lemma retrace_steps_chain store c path :
  chain store c path ->
  (forall c p, store !! c = Some p -> coords p = c) ->
  (length path <= size store)%nat ->
  retrace_steps store c = Some path.
Proof.
  intros Hch Hco Hlen. unfold Astar.retrace_steps.
  rewrite (retrace_loop_chain _ _ _ _ _ Hch Hco Hlen). simpl.
  by rewrite reverse_involutive.
Qed.

Lemma visit_Inner k current st n :
  Inner k current st -> edge current n -> n ∈ universe ->
  Inner k current (visit current st n).
Proof.
  destruct st as [heap store]. intros [HI (cur & Hcur & Hclosed)] He Hu.
  pose proof HI as HI0.
  destruct HI as [Hnd Hopen Hco Hun Hch (cl & Hcl1 & Hcl2 & Hcl3)]. simpl in *.
  unfold Astar.visit. rewrite (lookup_total_correct _ _ _ Hcur).
  assert (Hcurch : exists path, chain store current path /\ (length path <= k)%nat).
  { destruct (Hch _ _ Hcur) as (path & ? & Hlen). rewrite Hclosed in Hlen. eauto. }
  destruct Hcurch as (pathc & Hpathc & Hlenc).
  (* what a write of an open point [p'] at [n] preserves *)
  assert (Hwrite : forall p' heap',
    (forall p, store !! n = Some p -> closed p = false) ->
    closed p' = false -> par p' = Some current -> coords p' = n ->
    NoDup heap' -> (forall c, c ∈ heap' -> c = n \/ c ∈ heap) ->
    Inner k current (heap', <[n := p']> store)).
  { intros p' heap' Hn Hp'1 Hp'2 Hp'3 Hnd' Hsub.
    assert (Hne : current <> n).
    { intros ->. apply Hn in Hcur. congruence. }
    split; [|exists cur; simpl; by rewrite lookup_insert_ne].
    split; simpl.
    - done.
    - intros c Hc. destruct (decide (c = n)) as [->|Hcn].
      + exists p'. by rewrite lookup_insert_eq.
      + rewrite lookup_insert_ne by done. apply Hopen.
        by destruct (Hsub _ Hc).
    - intros c p. destruct (decide (c = n)) as [->|Hcn].
      + rewrite lookup_insert_eq. by intros [= <-].
      + rewrite lookup_insert_ne by done. apply Hco.
    - intros c p. destruct (decide (c = n)) as [->|Hcn]; [done|].
      rewrite lookup_insert_ne by done. apply Hun.
    - intros c p. destruct (decide (c = n)) as [->|Hcn].
      + rewrite lookup_insert_eq. intros [= <-]. rewrite Hp'1.
        exists (pathc ++ [n]). split.
        * eapply Astar.chain_step; try done.
          -- by rewrite lookup_insert_eq.
          -- by rewrite lookup_insert_ne.
          -- by apply chain_insert_ne.
        * rewrite length_app. simpl. lia.
      + rewrite lookup_insert_ne by done. intros Hc.
        destruct (Hch _ _ Hc) as (path & ? & ?).
        exists path. split; [|done]. by apply chain_insert_ne.
    - exists cl. split_and!; [done..|].
      intros c. rewrite Hcl3. destruct (decide (c = n)) as [->|Hcn].
      + rewrite lookup_insert_eq. split.
        * intros (p & Hp & Hpc). apply Hn in Hp. congruence.
        * intros (p & [= <-] & ?). congruence.
      + by rewrite lookup_insert_ne. }
  destruct (store !! n) as [p|] eqn:Hn.
  - destruct (closed p) eqn:Hp.
    { by split; [|exists cur]. }
    destruct (worse cur n p).
    { by split; [|exists cur]. }
    apply Hwrite.
    + by intros ? [= <-].
    + by rewrite relaxed_closed.
    + apply relaxed_par.
    + rewrite relaxed_coords. by eapply Hco.
    + by rewrite heapify_perm.
    + intros c. rewrite heapify_perm. auto.
  - rewrite fresh_coords. apply Hwrite.
    + done.
    + apply fresh_closed.
    + apply fresh_par.
    + apply fresh_coords.
    + rewrite heappush_perm. apply NoDup_cons. split; [|done].
      intros Hin. apply Hopen in Hin as (p & Hp & _). congruence.
    + intros c. rewrite heappush_perm. intros [->|?]%elem_of_cons; auto.
Qed.

Lemma fold_visit_Inner k current ns st :
  Inner k current st ->
  (forall n, n ∈ ns -> edge current n /\ n ∈ universe) ->
  Inner k current (fold_left (visit current) ns st).
Proof.
  revert st. induction ns as [|n ns IH]; intros st HI Hns; simpl; [done|].
  apply IH.
  - apply visit_Inner; [done|apply Hns; left..].
  - intros n' Hn'. apply Hns. by right.
Qed.

Lemma Inv_closed_le k heap store : Inv k heap store -> (k <= length universe)%nat.
Proof.
  intros [_ _ _ Hun _ (cl & Hcl1 & <- & Hcl3)].
  apply submseteq_length, NoDup_submseteq; [done|].
  intros c (p & Hp & _)%Hcl3. by eapply Hun.
Qed.

(** Popping a reference and closing its point: the point was open, its
    chain has at most [k + 1] cells, no more than there are points, and the
    state is the one the loop over the neighbours starts from. *)
Lemma pop_close_Inner k heap store current heap1 :
  Inv k heap store ->
  Heapq.heappop (lt store) heap = Some (current, heap1) ->
  exists pc pathc,
    store !! current = Some pc /\ closed pc = false
    /\ chain (alter close current store) current pathc
    /\ (length pathc <= size (alter close current store))%nat
    /\ Inner (S k) current (heap1, alter close current store).
Proof.
  intros HI Hpop. apply heappop_perm in Hpop.
  destruct HI as [Hnd Hopen Hco Hun Hch (cl & Hcl1 & Hcl2 & Hcl3)].
  rewrite <- Hpop in Hnd. apply NoDup_cons in Hnd as [Hnotin Hnd1].
  destruct (Hopen current) as (pc & Hpc & Hpcopen).
  { rewrite <- Hpop. left. }
  set (store1 := alter close current store).
  assert (Hcur1 : store1 !! current = Some (close pc)).
  { unfold store1. by rewrite lookup_alter_eq, Hpc. }
  assert (Hother : forall c, c <> current -> store1 !! c = store !! c).
  { intros c Hc. unfold store1. by rewrite lookup_alter_ne. }
  destruct (Hch _ _ Hpc) as (pathc & Hpathc & Hlenc). rewrite Hpcopen in Hlenc.
  assert (Hcl' : NoDup (current :: cl)
     /\ forall c, c ∈ current :: cl <->
          exists p, store1 !! c = Some p /\ closed p = true).
  { split.
    - apply NoDup_cons. split; [|done]. intros (p & Hp & Hpc')%Hcl3. congruence.
    - intros c. rewrite elem_of_cons, Hcl3.
      destruct (decide (c = current)) as [->|Hc].
      + split; [|auto]. intros _. exists (close pc). by rewrite close_closed.
      + rewrite Hother by done. split; [by intros [?|?]|auto]. }
  destruct Hcl' as [Hcl1' Hcl3'].
  exists pc, pathc. split_and!; [done|done|by apply chain_alter_close| |].
  { etrans; [apply Hlenc|].
    rewrite <- Hcl2. change (S (length cl)) with (length (current :: cl)).
    apply NoDup_length_le_size; [done|].
    intros c (p & Hp & _)%Hcl3'. eauto. }
  split; [|exists (close pc); simpl; by rewrite close_closed].
  split; simpl.
  - done.
  - intros c Hc. rewrite Hother by (intros ->; done).
    apply Hopen. rewrite <- Hpop. by right.
  - intros c p. destruct (decide (c = current)) as [->|Hc].
    + rewrite Hcur1. intros [= <-]. rewrite close_coords. by apply Hco.
    + rewrite Hother by done. apply Hco.
  - intros c p. destruct (decide (c = current)) as [->|Hc].
    + intros _. by eapply Hun.
    + rewrite Hother by done. apply Hun.
  - intros c p. destruct (decide (c = current)) as [->|Hc].
    + rewrite Hcur1. intros [= <-]. rewrite close_closed.
      exists pathc. split; [by apply chain_alter_close|done].
    + rewrite Hother by done. intros Hp.
      destruct (Hch _ _ Hp) as (path & ? & Hlen).
      exists path. split; [by apply chain_alter_close|].
      destruct (closed p); lia.
  - exists (current :: cl). split_and!; [done|simpl; lia|done].
Qed.

(** One iteration from a state of the invariant: the function returns the
    empty list, or returns the chain of the end cell, or goes on to a state
    of the invariant with one more closed point. *)
Lemma iteration_Inv k heap store :
  Inv k heap store ->
  match iteration heap store with
  | inl r => r = Some [] \/ exists store' path, r = Some path /\ chain store' end_ path
  | inr (heap', store') => Inv (S k) heap' store'
  end.
Proof.
  intros HI. unfold Astar.iteration.
  destruct heap as [|c0 heap0] eqn:Hheap; [by left|]. rewrite <- Hheap in *.
  destruct (heappop_is_Some (lt store) heap) as [[current heap1] Hpop].
  { by rewrite Hheap. }
  rewrite Hpop.
  destruct (pop_close_Inner _ _ _ _ _ HI Hpop)
    as (pc & pathc & Hpc & Hopen & Hpathc & Hlen & Hinner).
  set (store1 := alter close current store) in *.
  assert (Hcur1 : store1 !! current = Some (close pc)).
  { unfold store1. by rewrite lookup_alter_eq, Hpc. }
  rewrite (lookup_total_correct _ _ _ Hcur1).
  pose proof (Astar.inv_coords _ _ _ _ _ _ _ _ _ (proj1 Hinner)) as Hco1.
  simpl in Hco1.
  destruct (reached (close pc)) eqn:Hreached.
  - right. apply reached_spec in Hreached.
    rewrite (Hco1 _ _ Hcur1) in Hreached. subst current.
    exists store1, pathc. split; [|done]. by apply retrace_steps_chain.
  - pose proof (fold_visit_Inner (S k) current (nbrs (close pc)) (heap1, store1)) as Hfold.
    destruct (fold_left _ _ _) as [heap' store'].
    apply Hfold; [done|].
    intros n Hn. split.
    + rewrite <- (Hco1 _ _ Hcur1). by apply nbrs_edge.
    + by eapply nbrs_universe.
Qed.

(** The loop returns when it is given more iterations than there are cells
    left to close, and what it returns is the empty list or the chain of
    the end cell. *)
Lemma navigate_loop_Inv fuel k heap store :
  Inv k heap store -> (length universe < k + fuel)%nat ->
  exists r, navigate_loop fuel heap store = Some r
    /\ (r = [] \/ exists store', chain store' end_ r).
Proof.
  revert k heap store. induction fuel as [|fuel IH]; intros k heap store HI Hfuel.
  { apply Inv_closed_le in HI. lia. }
  simpl. pose proof (iteration_Inv _ _ _ HI) as Hit.
  destruct (iteration heap store) as [r|[heap' store']].
  - destruct Hit as [->|(store' & path & -> & Hch)]; eauto.
  - eapply IH; [done|lia].
Qed.

(** What the loop returns with some fuel it returns with more. *)
Lemma navigate_loop_more_fuel fuel fuel' heap store r :
  Astar.navigate_loop coords closed par close lt nbrs reached worse relaxed
    fresh fuel heap store = Some r ->
  (fuel <= fuel')%nat ->
  Astar.navigate_loop coords closed par close lt nbrs reached worse relaxed
    fresh fuel' heap store = Some r.
Proof.
  revert fuel' heap store.
  induction fuel as [|fuel IH]; intros [|fuel'] heap store Hr Hle;
    try done; [lia|].
  cbn [Astar.navigate_loop] in *.
  destruct (Astar.iteration _ _ _ _ _ _ _ _ _ _ heap store) as [|[heap' store']];
    [done|]. apply IH; [done|lia].
Qed.

(** *** The heap invariant along the loop *)






(** *** The parent chains have no repeated cell *)

(** A cell has one point and a point one parent: the chain of a cell is
    unique. *)
Lemma chain_functional store c path1 path2 :
  chain store c path1 -> chain store c path2 -> path1 = path2.
Proof.
  intros H1. revert path2.
  induction H1 as [p Hs Hp|c p q pq path Hc Hp Hq Hcl He _ IH]; intros path2 H2.
  - inversion H2 as [p' Hs' Hp'|c' p' q' pq' path' Hc' Hp' Hq' Hcl' He' Hch'];
      [done|]. subst. congruence.
  - inversion H2 as [p' Hs' Hp'|c' p' q' pq' path' Hc' Hp' Hq' Hcl' He' Hch'];
      subst; [congruence|].
    assert (q' = q) as -> by congruence. f_equal. by apply IH.
Qed.

(** The cells of a chain have the prefixes of the chain as their chains. *)
Lemma chain_prefix store c path (i : nat) c' :
  chain store c path -> path !! i = Some c' ->
  chain store c' (take (S i) path).
Proof.
  induction 1 as [p Hs Hp|c p q pq path Hc Hp Hq Hcl He Hch IH]; intros Hi.
  - destruct i as [|i]; [|done]. injection Hi as <-. by eapply Astar.chain_root.
  - destruct (decide (i < length path)%nat) as [Hlt|Hge].
    + rewrite lookup_app_l in Hi by done. rewrite take_app_le by lia. by apply IH.
    + apply lookup_lt_Some in Hi as Hlen. rewrite length_app in Hlen. simpl in Hlen.
      assert (i = length path) as -> by lia.
      rewrite list_lookup_middle in Hi by done. injection Hi as <-.
      rewrite take_ge by (rewrite length_app; simpl; lia).
      by eapply Astar.chain_step.
Qed.

Lemma chain_NoDup store c path : chain store c path -> NoDup path.
Proof.
  intros Hch. apply NoDup_alt. intros i j c' Hi Hj.
  pose proof (chain_functional _ _ _ _ (chain_prefix _ _ _ _ _ Hch Hi)
                (chain_prefix _ _ _ _ _ Hch Hj)) as Heq.
  apply lookup_lt_Some in Hi, Hj.
  apply (f_equal length) in Heq. rewrite !length_take in Heq. lia.
Qed.

(** What the loop returns has no repeated cell. *)
Lemma navigate_loop_NoDup fuel k heap store r :
  Inv k heap store -> (length universe < k + fuel)%nat ->
  navigate_loop fuel heap store = Some r -> NoDup r.
Proof.
  intros HI Hfuel Hr.
  destruct (navigate_loop_Inv _ _ _ _ HI Hfuel) as (r' & Hr' & Hspec).
  rewrite Hr in Hr'. injection Hr' as <-.
  destruct Hspec as [->|[store' Hch]]; [constructor|by eapply chain_NoDup].
Qed.

(** *** The search is exhaustive *)

(** [nbrs] offers every step of [edge]. *)
Hypothesis nbrs_complete : forall p n, edge (coords p) n -> n ∈ nbrs p.

Abbreviation Expl := (Explored closed edge start end_).

Lemma visit_registered current st n c :
  is_Some (st.2 !! c) -> is_Some ((visit current st n).2 !! c).
Proof.
  destruct st as [heap store]. simpl. intros Hc. unfold Astar.visit.
  destruct (store !! n) as [p|] eqn:Hn.
  - destruct (closed p); [done|]. destruct (worse _ n p); [done|]. simpl.
    apply lookup_insert_is_Some'. by right.
  - simpl. apply lookup_insert_is_Some'. by right.
Qed.

Lemma fold_visit_registered current ns st c :
  is_Some (st.2 !! c) -> is_Some ((fold_left (visit current) ns st).2 !! c).
Proof.
  revert st. induction ns as [|n ns IH]; intros st Hc; simpl; [done|].
  by apply IH, visit_registered.
Qed.

Lemma visit_registers current st n : is_Some ((visit current st n).2 !! n).
Proof.
  destruct st as [heap store]. unfold Astar.visit.
  destruct (store !! n) as [p|] eqn:Hn.
  - destruct (closed p); [simpl; by rewrite Hn|].
    destruct (worse _ n p); [simpl; by rewrite Hn|].
    simpl. apply lookup_insert_is_Some'. by left.
  - simpl. rewrite fresh_coords. apply lookup_insert_is_Some'. by left.
Qed.

Lemma visit_Explored current st n :
  Expl (Some current) st.1 st.2 ->
  Expl (Some current) (visit current st n).1 (visit current st n).2.
Proof.
  destruct st as [heap store]. intros HE. pose proof HE as [Hs Ho He Hend].
  simpl in *.
  assert (Hwrite : forall p' heap', closed p' = false ->
     (forall p, store !! n = Some p -> closed p = false) ->
     (forall c, c = n \/ c ∈ heap -> c ∈ heap') ->
     Expl (Some current) heap' (<[n := p']> store)).
  { intros p' heap' Hp' Hn Hsub. split.
    - apply lookup_insert_is_Some'. by right.
    - intros c p. destruct (decide (c = n)) as [->|Hcn].
      + intros _ _. apply Hsub. by left.
      + rewrite lookup_insert_ne by done. intros Hc Hop. apply Hsub. right.
        by eapply Ho.
    - intros c p n'. destruct (decide (c = n)) as [->|Hcn].
      + rewrite lookup_insert_eq. intros [= <-]. congruence.
      + rewrite lookup_insert_ne by done. intros Hc Hcl Hcur Hed.
        apply lookup_insert_is_Some'. right. by eapply He.
    - intros p. destruct (decide (end_ = n)) as [->|Hne].
      + rewrite lookup_insert_eq. by intros [= <-].
      + rewrite lookup_insert_ne by done. apply Hend. }
  unfold Astar.visit. destruct (store !! n) as [p|] eqn:Hn.
  - destruct (closed p) eqn:Hp; [done|]. destruct (worse _ n p); [done|]. simpl.
    apply Hwrite.
    + by rewrite relaxed_closed.
    + by intros ? [= <-].
    + intros c [->|Hc]; rewrite heapify_perm; [by eapply Ho|done].
  - simpl. rewrite fresh_coords. apply Hwrite.
    + apply fresh_closed.
    + done.
    + intros c Hc. rewrite heappush_perm. apply elem_of_cons. tauto.
Qed.

Lemma fold_visit_Explored current ns st :
  Expl (Some current) st.1 st.2 ->
  Expl (Some current) (fold_left (visit current) ns st).1
    (fold_left (visit current) ns st).2
  /\ forall n, n ∈ ns -> is_Some ((fold_left (visit current) ns st).2 !! n).
Proof.
  revert st. induction ns as [|n ns IH]; intros st HE; simpl.
  { split; [done|]. intros n Hn. by apply elem_of_nil in Hn. }
  destruct (IH (visit current st n)) as [HE' Hreg]; [by apply visit_Explored|].
  split; [done|]. intros n' [->|Hn']%elem_of_cons; [|by apply Hreg].
  apply fold_visit_registered, visit_registers.
Qed.

(** One iteration from an explored state: the function returns the empty
    list only when the heap is empty, and when the loop goes on the state
    is an explored one. *)
Lemma iteration_Explored k heap store :
  Inv k heap store -> Expl None heap store ->
  match iteration heap store with
  | inl r => r = Some [] -> heap = []
  | inr (heap', store') => Expl None heap' store'
  end.
Proof.
  intros HI [Hs Ho He Hend]. unfold Astar.iteration.
  destruct heap as [|c0 heap0] eqn:Hheap; [done|]. rewrite <- Hheap in *.
  destruct (heappop_is_Some (lt store) heap) as [[current heap1] Hpop].
  { by rewrite Hheap. }
  rewrite Hpop.
  destruct (pop_close_Inner _ _ _ _ _ HI Hpop)
    as (pc & pathc & Hpc & Hopen & Hpathc & Hlen & Hinner).
  set (store1 := alter close current store) in *.
  assert (Hcur1 : store1 !! current = Some (close pc)).
  { unfold store1. by rewrite lookup_alter_eq, Hpc. }
  assert (Hother : forall c, c <> current -> store1 !! c = store !! c).
  { intros c Hc. unfold store1. by rewrite lookup_alter_ne. }
  assert (Hreg : forall c, is_Some (store !! c) -> is_Some (store1 !! c)).
  { intros c Hc. destruct (decide (c = current)) as [->|Hne]; [by rewrite Hcur1|].
    by rewrite Hother. }
  rewrite (lookup_total_correct _ _ _ Hcur1).
  pose proof (Astar.inv_coords _ _ _ _ _ _ _ _ _ (proj1 Hinner)) as Hco1.
  simpl in Hco1.
  destruct (reached (close pc)) eqn:Hreached.
  { rewrite (retrace_steps_chain _ _ _ Hpathc Hco1 Hlen). intros [= ->].
    by apply chain_last in Hpathc. }
  assert (HE1 : Expl (Some current) heap1 store1).
  { split.
    - by apply Hreg.
    - intros c p Hc Hop. destruct (decide (c = current)) as [->|Hne].
      + rewrite Hcur1 in Hc. injection Hc as <-. by rewrite close_closed in Hop.
      + rewrite Hother in Hc by done. pose proof (Ho _ _ Hc Hop) as Hin.
        apply heappop_perm in Hpop. rewrite <- Hpop in Hin.
        by apply elem_of_cons in Hin as [?|?].
    - intros c p n Hc Hcl Hne Hed. assert (c <> current) by congruence.
      rewrite Hother in Hc by done. apply Hreg. by eapply He.
    - intros p Hp. destruct (decide (end_ = current)) as [Heq|Hne].
      + rewrite Heq, Hcur1 in Hp. injection Hp as <-.
        assert (reached (close pc) = true); [|congruence].
        apply reached_spec. rewrite (Hco1 _ _ Hcur1). done.
      + rewrite Hother in Hp by done. by apply Hend. }
  pose proof (fold_visit_Explored current (nbrs (close pc)) (heap1, store1) HE1)
    as [[Hs' Ho' He' Hend'] Hnb].
  destruct (fold_left _ _ _) as [heap' store']. simpl in *.
  split; [done..| |done].
  intros c p n Hc Hcl _ Hed. destruct (decide (c = current)) as [->|Hne].
  - apply Hnb, nbrs_complete. by rewrite (Hco1 _ _ Hcur1).
  - eapply He'; [done..| |done]. congruence.
Qed.

(** When the heap is empty every registered cell is closed, and the
    registered cells are all that can be reached: the end cell cannot. *)
Lemma Explored_exhausted store :
  Expl None [] store -> ~ reachable edge start end_.
Proof.
  intros [Hs Ho He Hend] Hreach.
  assert (Hclosed : forall c p, store !! c = Some p -> closed p = true).
  { intros c p Hc. destruct (closed p) eqn:Hp; [done|].
    by apply (Ho _ _ Hc), elem_of_nil in Hp. }
  assert (Hall : is_Some (store !! end_)).
  { destruct Hreach as (path & Hh & Hl & Hw). revert Hs Hh Hw.
    generalize start. induction path as [|a path IH]; intros s Hs Hh Hw; [done|].
    simpl in Hh. injection Hh as ->. destruct path as [|b path].
    - simpl in Hl. by injection Hl as <-.
    - destruct Hw as [Hab Hw]. apply (IH Hl b); [|done|done].
      destruct Hs as [p Hp]. eapply He; [done|by eapply Hclosed|done|done]. }
  destruct Hall as [p Hp]. pose proof (Hend _ Hp) as Hop.
  by rewrite (Hclosed _ _ Hp) in Hop.
Qed.

(** The loop returns the empty list only when no walk leads from the start
    to the end. *)
Lemma navigate_loop_exhaustive fuel k heap store :
  Inv k heap store -> Expl None heap store ->
  navigate_loop fuel heap store = Some [] -> ~ reachable edge start end_.
Proof.
  revert k heap store. induction fuel as [|fuel IH]; intros k heap store HI HE;
    [done|].
  simpl. pose proof (iteration_Inv _ _ _ HI) as Hit.
  pose proof (iteration_Explored _ _ _ HI HE) as Hex.
  destruct (iteration heap store) as [r|[heap' store']].
  - intros ->. rewrite Hex in HE by done. by eapply Explored_exhausted.
  - by eapply IH.
Qed.

(** The heap holds the open points, each once. *)
Lemma loop_state_open k heap0 store0 heap store :
  Inv 0 heap0 store0 -> Expl None heap0 store0 ->
  loop_state k heap0 store0 = Some (heap, store) ->
  Inv k heap store /\ Expl None heap store.
Proof.
  intros HI0 HE0. revert heap store.
  induction k as [|k IH]; intros heap store; simpl.
  { intros [= <- <-]. done. }
  destruct (loop_state k heap0 store0) as [[heap1 store1]|]; [|done]. simpl.
  destruct (IH _ _ eq_refl) as [HI1 HE1].
  pose proof (iteration_Inv _ _ _ HI1) as HI'.
  pose proof (iteration_Explored _ _ _ HI1 HE1) as HE'.
  destruct (iteration heap1 store1) as [|[heap' store']] eqn:Hit; [done|].
  by intros [= <- <-].
Qed.
End AstarFacts.

(** ** APCSP_pathfinder.py: [neighbors] and [navigate] *)
(** The [for d in directions] loop appends the accepted candidates. *)
Lemma fold_left_candidates {D} (step : list Cell -> D -> list Cell)
    (test : D -> bool) (g : D -> Cell) (ds : list D) (acc : list Cell) :
  (forall acc d, step acc d = if test d then acc else acc ++ [g d]) ->
  fold_left step ds acc = acc ++ (g <$> filter (fun d => test d = false) ds).
Proof.
  intros Hstep. revert acc. induction ds as [|d ds IH]; intros acc; simpl.
  { by rewrite app_nil_r. }
  rewrite IH, Hstep. rewrite filter_cons. destruct (test d) eqn:Ht.
  - by rewrite decide_False by done.
  - rewrite decide_True by done. simpl. by rewrite <- app_assoc.
Qed.

Lemma directions_adjacent8 (c : Cell) (d : Z * Z) :
  d ∈ directions -> adjacent8 c (c.1 + d.1, c.2 + d.2).
Proof.
  destruct c as [cx cy]. unfold directions, adjacent8.
  rewrite !elem_of_cons, elem_of_nil.
  intros [->|[->|[->|[->|[->|[->|[->|[->|[]]]]]]]]]; simpl;
    (split; [intros [=]; lia|lia]).
Qed.

Lemma elem_of_rectangle (A B : Z) (c : Cell) :
  c ∈ rectangle A B <-> 0 < c.1 < A /\ 0 < c.2 < B.
Proof.
  unfold rectangle.
  rewrite <- list_cprod_list_prod, list_elem_of_cprod, !elem_of_seqZ. lia.
Qed.

Lemma length_rectangle (A B : Z) :
  length (rectangle A B) = (Z.to_nat (A - 1) * Z.to_nat (B - 1))%nat.
Proof. unfold rectangle. by rewrite length_prod, !length_seqZ. Qed.

Section APCSP_facts.
Context {F : Type} `{!Score F}.
Implicit Types (obstacles : list Cell) (N M : Z) (p : @APCSP.Point F).

Lemma APCSP_visit_eq end_ current st n :
  APCSP.visit end_ current st n
  = Astar.visit APCSP_parts.coords APCSP.visited APCSP.ref_lt
      APCSP_parts.worse (APCSP_parts.relaxed end_) (APCSP_parts.fresh end_)
      current st n.
Proof. reflexivity. Qed.

Lemma APCSP_iteration_eq end_ obstacles N M heap store :
  APCSP.iteration end_ obstacles N M heap store
  = Astar.iteration APCSP_parts.coords APCSP.visited APCSP.parent
      APCSP.set_visited APCSP.ref_lt (fun p => APCSP.neighbors p obstacles N M)
      (APCSP_parts.reached end_) APCSP_parts.worse (APCSP_parts.relaxed end_)
      (APCSP_parts.fresh end_) heap store.
Proof. reflexivity. Qed.

Lemma APCSP_navigate_loop_eq fuel end_ obstacles N M heap store :
  APCSP.navigate_loop fuel end_ obstacles N M heap store
  = Astar.navigate_loop APCSP_parts.coords APCSP.visited APCSP.parent
      APCSP.set_visited APCSP.ref_lt (fun p => APCSP.neighbors p obstacles N M)
      (APCSP_parts.reached end_) APCSP_parts.worse (APCSP_parts.relaxed end_)
      (APCSP_parts.fresh end_) fuel heap store.
Proof.
  revert heap store. induction fuel as [|fuel IH]; intros heap store; [done|].
  simpl. rewrite <- APCSP_iteration_eq.
  destruct (APCSP.iteration _ _ _ _ _ _) as [|[]]; [done|apply IH].
Qed.

Lemma APCSP_neighbors_spec p obstacles N M n :
  n ∈ APCSP.neighbors p obstacles N M <->
  (exists d, d ∈ directions /\ n = (APCSP.x p + d.1, APCSP.y p + d.2))
  /\ APCSP_parts.ok obstacles N M n.
Proof.
  unfold APCSP.neighbors.
  rewrite (fold_left_candidates _
    (fun d => mem (APCSP.x p + d.1, APCSP.y p + d.2) obstacles
              || (APCSP.x p + d.1 <=? 0) || (APCSP.y p + d.2 <=? 0)
              || (N <=? APCSP.x p + d.1) || (M <=? APCSP.y p + d.2))
    (fun d => (APCSP.x p + d.1, APCSP.y p + d.2))) by done.
  simpl app. rewrite list_elem_of_fmap. unfold APCSP_parts.ok, mem.
  split.
  - intros (d & -> & [Ht Hd]%list_elem_of_filter). split; [eauto|].
    rewrite !orb_false_iff, bool_decide_eq_false, !Z.leb_gt in Ht. simpl. tauto.
  - intros [(d & Hd & ->) Hok]. exists d. split; [done|].
    apply list_elem_of_filter. split; [|done].
    rewrite !orb_false_iff, bool_decide_eq_false, !Z.leb_gt. simpl in Hok. tauto.
Qed.

Lemma APCSP_neighbors_edge p obstacles N M n :
  n ∈ APCSP.neighbors p obstacles N M ->
  APCSP_parts.edge obstacles N M (APCSP_parts.coords p) n.
Proof.
  intros [(d & Hd & ->) Hok]%APCSP_neighbors_spec. split; [|done].
  by apply (directions_adjacent8 (APCSP_parts.coords p)).
Qed.

(** [navigate] returns, and what it returns is the empty list or a walk
    along the steps of [neighbors] from the start to the end. *)
Lemma APCSP_navigate_walk start end_ obstacles N M :
  exists r, APCSP.navigate (F:=F) start end_ obstacles N M = Some r
    /\ (r = [] \/
        head r = Some start /\ last r = Some end_
        /\ is_walk (APCSP_parts.edge obstacles N M) r
        /\ (r = [start] \/ APCSP_parts.ok obstacles N M end_)).
Proof.
  unfold APCSP.navigate. rewrite APCSP_navigate_loop_eq.
  set (sp := APCSP.mkPoint _ _ _ _ _ _).
  edestruct (navigate_loop_Inv APCSP_parts.coords APCSP.visited APCSP.parent
    APCSP.set_visited APCSP.ref_lt (fun p => APCSP.neighbors p obstacles N M)
    (APCSP_parts.reached end_) APCSP_parts.worse (APCSP_parts.relaxed end_)
    (APCSP_parts.fresh end_) (APCSP_parts.edge obstacles N M) start end_
    (APCSP_parts.universe N M start))
    with (k := O) (fuel := search_fuel N M) (heap := [start])
         (store := ({[start := sp]} : gmap Cell APCSP.Point))
    as (r & Hr & Hspec); try done.
  - by intros c cur [nx ny].
  - intros p n. apply APCSP_neighbors_edge.
  - intros p n [_ (_ & ? & ?)]%APCSP_neighbors_spec. right.
    by apply elem_of_rectangle.
  - intros p. unfold APCSP_parts.reached, APCSP_parts.coords.
    destruct end_ as [ex ey]. simpl. rewrite andb_true_iff, !Z.eqb_eq.
    split; [by intros [-> ->]|by intros [= -> ->]].
  - split.
    + apply NoDup_singleton.
    + intros c ->%list_elem_of_singleton. exists sp. by rewrite lookup_singleton_eq.
    + intros c p [<- <-]%lookup_singleton_Some. subst sp. by destruct start.
    + intros c p [<- _]%lookup_singleton_Some. left.
    + intros c p [<- <-]%lookup_singleton_Some. exists [start]. split; [|done].
      eapply Astar.chain_root; [apply lookup_singleton_eq|done].
    + exists []. split_and!; [constructor|done|].
      intros c. split; [by intros ?%elem_of_nil|].
      by intros (p & [<- <-]%lookup_singleton_Some & ?).
  - unfold APCSP_parts.universe, search_fuel. simpl. rewrite length_rectangle. lia.
  - exists r. split; [done|]. destruct Hspec as [->|[store' Hch]]; [by left|right].
    split_and!.
    + by eapply chain_head.
    + by eapply chain_last.
    + by eapply chain_walk.
    + inversion Hch as [|? ? ? ? ? ? ? ? ? [_ ?]]; auto.
Qed.
End APCSP_facts.

(** ** pathfinder.py: [neighbors] and [navigate] *)
Section Pathfinder_facts.
Context {F : Type} `{!Score F}.
Implicit Types (obstacles : list Cell) (N M : Z) (pt : @Pathfinder.Point F).

Lemma Pathfinder_iteration_eq p2 obstacles N M heap store :
  Pathfinder.iteration p2 obstacles N M heap store
  = Astar.iteration Pathfinder_parts.coords Pathfinder_parts.closed
      Pathfinder.parent Pathfinder.set_closed Pathfinder.ref_lt
      (fun p => Pathfinder.neighbors p obstacles N M)
      (Pathfinder_parts.reached p2) Pathfinder_parts.worse
      (Pathfinder_parts.relaxed p2) (Pathfinder_parts.fresh p2) heap store.
Proof. reflexivity. Qed.

Lemma Pathfinder_navigate_loop_eq fuel p2 obstacles N M heap store :
  Pathfinder.navigate_loop fuel p2 obstacles N M heap store
  = Astar.navigate_loop Pathfinder_parts.coords Pathfinder_parts.closed
      Pathfinder.parent Pathfinder.set_closed Pathfinder.ref_lt
      (fun p => Pathfinder.neighbors p obstacles N M)
      (Pathfinder_parts.reached p2) Pathfinder_parts.worse
      (Pathfinder_parts.relaxed p2) (Pathfinder_parts.fresh p2) fuel heap store.
Proof.
  revert heap store. induction fuel as [|fuel IH]; intros heap store; [done|].
  simpl. rewrite <- Pathfinder_iteration_eq.
  destruct (Pathfinder.iteration _ _ _ _ _ _) as [|[]]; [done|apply IH].
Qed.

Lemma Pathfinder_neighbors_spec pt obstacles N M n :
  n ∈ Pathfinder.neighbors pt obstacles N M <->
  exists d, d ∈ directions
    /\ n = (Pathfinder.x pt + d.1, Pathfinder.y pt + d.2)
    /\ Pathfinder_parts.ok obstacles N M n
    /\ (d.1 <> 0 -> d.2 <> 0 ->
        ((Pathfinder.x pt + d.1, Pathfinder.y pt) ∉ obstacles)
        /\ ((Pathfinder.x pt, Pathfinder.y pt + d.2) ∉ obstacles)).
Proof.
  unfold Pathfinder.neighbors.
  rewrite (fold_left_candidates _
    (fun d => mem (Pathfinder.x pt + d.1, Pathfinder.y pt + d.2) obstacles
              || (Pathfinder.y pt + d.2 <=? 0) || (Pathfinder.x pt + d.1 <=? 0)
              || (N <=? Pathfinder.y pt + d.2) || (M <=? Pathfinder.x pt + d.1)
              || (negb (d.1 =? 0) && negb (d.2 =? 0)
                  && (mem (Pathfinder.x pt + d.1, Pathfinder.y pt) obstacles
                      || mem (Pathfinder.x pt, Pathfinder.y pt + d.2) obstacles)))
    (fun d => (Pathfinder.x pt + d.1, Pathfinder.y pt + d.2))).
  2:{ intros acc d. cbv zeta. destruct (_ || _ || _ || _ || _); [done|].
      simpl. by destruct (_ && _ && _). }
  simpl app. rewrite list_elem_of_fmap. unfold Pathfinder_parts.ok, mem.
  assert (Htest : forall d : Z * Z,
    (bool_decide ((Pathfinder.x pt + d.1, Pathfinder.y pt + d.2) ∈ obstacles)
     || (Pathfinder.y pt + d.2 <=? 0) || (Pathfinder.x pt + d.1 <=? 0)
     || (N <=? Pathfinder.y pt + d.2) || (M <=? Pathfinder.x pt + d.1)
     || (negb (d.1 =? 0) && negb (d.2 =? 0)
         && (bool_decide ((Pathfinder.x pt + d.1, Pathfinder.y pt) ∈ obstacles)
             || bool_decide ((Pathfinder.x pt, Pathfinder.y pt + d.2) ∈ obstacles)))
     = false) <->
    (((Pathfinder.x pt + d.1, Pathfinder.y pt + d.2) ∉ obstacles)
     /\ 0 < Pathfinder.y pt + d.2 < N /\ 0 < Pathfinder.x pt + d.1 < M)
    /\ (d.1 <> 0 -> d.2 <> 0 ->
        ((Pathfinder.x pt + d.1, Pathfinder.y pt) ∉ obstacles)
        /\ ((Pathfinder.x pt, Pathfinder.y pt + d.2) ∉ obstacles))).
  { intros d.
    rewrite !orb_false_iff, !andb_false_iff, !orb_false_iff, !negb_false_iff,
      !bool_decide_eq_false, !Z.leb_gt, !Z.eqb_eq.
    destruct (decide (d.1 = 0)), (decide (d.2 = 0)); tauto. }
  split.
  - intros (d & -> & [Ht Hd]%list_elem_of_filter). exists d.
    apply Htest in Ht. simpl. tauto.
  - intros (d & Hd & -> & Hok & Hcorner). exists d. split; [done|].
    apply list_elem_of_filter. split; [|done]. apply Htest. simpl in Hok. tauto.
Qed.

Lemma Pathfinder_neighbors_edge pt obstacles N M n :
  n ∈ Pathfinder.neighbors pt obstacles N M ->
  Pathfinder_parts.edge obstacles N M (Pathfinder_parts.coords pt) n.
Proof.
  intros (d & Hd & -> & Hok & Hcorner)%Pathfinder_neighbors_spec.
  split_and!; [|done|].
  - by apply (directions_adjacent8 (Pathfinder_parts.coords pt)).
  - simpl. intros ??. apply Hcorner; lia.
Qed.

Lemma Pathfinder_Inv_start (p1 : Cell) obstacles N M :
  Astar.Inv Pathfinder_parts.coords Pathfinder_parts.closed Pathfinder.parent
    (Pathfinder_parts.edge obstacles N M) p1
    (Pathfinder_parts.universe N M p1) 0 [p1]
    ({[p1 := Pathfinder.mkPoint p1.1 p1.2 s_zero s_zero 0 None]}
       : gmap Cell (@Pathfinder.Point F)).
Proof.
  set (sp := Pathfinder.mkPoint _ _ _ _ _ _). split.
  - apply NoDup_singleton.
  - intros c ->%list_elem_of_singleton. exists sp. by rewrite lookup_singleton_eq.
  - intros c p [<- <-]%lookup_singleton_Some. subst sp. by destruct p1.
  - intros c p [<- _]%lookup_singleton_Some. left.
  - intros c p [<- <-]%lookup_singleton_Some. exists [p1]. split; [|done].
    eapply Astar.chain_root; [apply lookup_singleton_eq|done].
  - exists []. split_and!; [constructor|done|].
    intros c. split; [by intros ?%elem_of_nil|].
    by intros (p & [<- <-]%lookup_singleton_Some & ?).
Qed.

(** [navigate] returns, and what it returns is the empty list or a walk
    along the steps of [neighbors] from the start to the end. *)
Lemma Pathfinder_navigate_walk p1 p2 obstacles N M :
  exists r, Pathfinder.navigate (F:=F) p1 p2 obstacles N M = Some r
    /\ (r = [] \/
        head r = Some p1 /\ last r = Some p2
        /\ is_walk (Pathfinder_parts.edge obstacles N M) r
        /\ (r = [p1] \/ Pathfinder_parts.ok obstacles N M p2)).
Proof.
  unfold Pathfinder.navigate. rewrite Pathfinder_navigate_loop_eq.
  change (Heapq.heappush _ [] p1) with [p1].
  edestruct (navigate_loop_Inv Pathfinder_parts.coords Pathfinder_parts.closed
    Pathfinder.parent Pathfinder.set_closed Pathfinder.ref_lt
    (fun p => Pathfinder.neighbors p obstacles N M)
    (Pathfinder_parts.reached p2) Pathfinder_parts.worse
    (Pathfinder_parts.relaxed p2) (Pathfinder_parts.fresh p2)
    (Pathfinder_parts.edge obstacles N M) p1 p2
    (Pathfinder_parts.universe N M p1))
    with (k := O) (fuel := search_fuel N M) (heap := [p1])
         (store := ({[p1 := Pathfinder.mkPoint p1.1 p1.2 s_zero s_zero 0 None]}
                      : gmap Cell Pathfinder.Point))
    as (r & Hr & Hspec); try done.
  - by intros c cur [nx ny].
  - intros p n. apply Pathfinder_neighbors_edge.
  - intros p n (d & _ & _ & (_ & ? & ?) & _)%Pathfinder_neighbors_spec. right.
    by apply elem_of_rectangle.
  - intros p. unfold Pathfinder_parts.reached, Pathfinder_parts.coords.
    destruct p2 as [ex ey]. simpl. rewrite andb_true_iff, !Z.eqb_eq.
    split; [by intros [-> ->]|by intros [= -> ->]].
  - by apply Pathfinder_Inv_start.
  - unfold Pathfinder_parts.universe, search_fuel. simpl.
    rewrite length_rectangle. lia.
  - exists r. split; [done|]. destruct Hspec as [->|[store' Hch]]; [by left|right].
    split_and!.
    + by eapply chain_head.
    + by eapply chain_last.
    + by eapply chain_walk.
    + inversion Hch as [|? ? ? ? ? ? ? ? ? [_ [? _]]]; auto.
Qed.

Lemma Pathfinder_loop_state_eq p2 obstacles N M k p1 :
  Pathfinder_parts.loop_state (F:=F) p2 obstacles N M k p1
  = Astar.loop_state Pathfinder_parts.coords Pathfinder_parts.closed
      Pathfinder.parent Pathfinder.set_closed Pathfinder.ref_lt
      (fun p => Pathfinder.neighbors p obstacles N M)
      (Pathfinder_parts.reached p2) Pathfinder_parts.worse
      (Pathfinder_parts.relaxed p2) (Pathfinder_parts.fresh p2) k [p1]
      {[p1 := Pathfinder.mkPoint p1.1 p1.2 s_zero s_zero 0 None]}.
Proof.
  induction k as [|k IH]; [done|]. simpl. rewrite IH.
  destruct (Astar.loop_state _ _ _ _ _ _ _ _ _ _ _ _ _) as [[heap store]|];
    [|done].
  simpl. by rewrite Pathfinder_iteration_eq.
Qed.

End Pathfinder_facts.

(** ** Both files: properties of [neighbors], [navigate] and [find_path] *)
Lemma is_walk_weaken (e1 e2 : Cell -> Cell -> Prop) (path : list Cell) :
  (forall a b, e1 a b -> e2 a b) -> is_walk e1 path -> is_walk e2 path.
Proof.
  intros He. induction path as [|a [|b path] IH]; [done..|].
  intros [Hab Hw]. split; [by apply He|by apply IH].
Qed.

Lemma is_walk_tail_Forall (e : Cell -> Cell -> Prop) (Q : Cell -> Prop)
    (path : list Cell) :
  (forall a b, e a b -> Q b) -> is_walk e path -> Forall Q (tail path).
Proof.
  intros He. induction path as [|a [|b path] IH]; [by constructor..|].
  intros [Hab Hw]. simpl. constructor; [by eapply He|by apply IH].
Qed.

Section Variants.
Context {F : Type} `{!Score F}.
Implicit Types (v : variant) (obstacles path : list Cell) (N M : Z).

Lemma APCSP_ok_not_excluded obstacles N M c :
  APCSP_parts.ok obstacles N M c -> ~ excluded APCSP_file obstacles N M c.
Proof. unfold APCSP_parts.ok, excluded. intros (? & ? & ?) [?|[?|[?|[?|?]]]]; (done || lia). Qed.

Lemma Pathfinder_ok_not_excluded obstacles N M c :
  Pathfinder_parts.ok obstacles N M c -> ~ excluded Pathfinder_file obstacles N M c.
Proof. unfold Pathfinder_parts.ok, excluded. intros (? & ? & ?) [?|[?|[?|[]]]]; (done || lia). Qed.

(** Both files: [navigate] returns, and what it returns is the empty list
    or a walk of 8-adjacent cells from the start to the end, of which every
    cell after the first is not excluded. *)
Lemma navigate_in_walk v (start end_ : Cell) obstacles N M :
  exists r, navigate_in (F:=F) v start end_ obstacles N M = Some r
    /\ (r = [] \/
        head r = Some start /\ last r = Some end_
        /\ is_walk adjacent8 r
        /\ Forall (fun c => ~ excluded v obstacles N M c) (tail r)
        /\ (r = [start] \/ ~ excluded v obstacles N M end_)).
Proof.
  destruct v; simpl.
  - destruct (APCSP_navigate_walk start end_ obstacles N M) as (r & Hr & Hspec).
    exists r. split; [done|]. destruct Hspec as [->|(Hh & Hl & Hw & He)]; [by left|right].
    split_and!; [done..| | |].
    + eapply is_walk_weaken; [|done]. by intros a b [? _].
    + eapply is_walk_tail_Forall; [|done].
      intros a b [_ ?]. by apply APCSP_ok_not_excluded.
    + destruct He; [by left|right]. by apply APCSP_ok_not_excluded.
  - destruct (Pathfinder_navigate_walk start end_ obstacles N M) as (r & Hr & Hspec).
    exists r. split; [done|]. destruct Hspec as [->|(Hh & Hl & Hw & He)]; [by left|right].
    split_and!; [done..| | |].
    + eapply is_walk_weaken; [|done]. by intros a b [? _].
    + eapply is_walk_tail_Forall; [|done].
      intros a b (_ & ? & _). by apply Pathfinder_ok_not_excluded.
    + destruct He; [by left|right]. by apply Pathfinder_ok_not_excluded.
Qed.

(** C2 (amended): every non-empty path returned by [navigate], in either
    file, starts with the start argument, ends with the end argument, has
    consecutive cells 8-adjacent, and every cell after the first is outside
    the obstacle set with row and column above 0 (and in
    APCSP_pathfinder.py row below the height and column below the width).
    The first cell is the start argument as given. *)
Theorem navigate_path_valid v (start end_ : Cell) obstacles N M path :
  navigate_in (F:=F) v start end_ obstacles N M = Some path ->
  path <> [] ->
  head path = Some start /\ last path = Some end_
  /\ is_walk adjacent8 path
  /\ Forall (fun c => ~ excluded v obstacles N M c) (tail path).
Proof.
  intros Hnav Hne.
  destruct (navigate_in_walk v start end_ obstacles N M) as (r & Hr & Hspec).
  rewrite Hnav in Hr. injection Hr as <-.
  destruct Hspec as [->|(? & ? & ? & ? & _)]; done.
Qed.

(** C7 (amended): [navigate] does not validate its arguments.  An end cell
    that is excluded (an obstacle, or out of the bounds) and differs from
    the start gives the empty list of an exhausted search. *)
Theorem navigate_excluded_end_empty v (start end_ : Cell) obstacles N M :
  start <> end_ ->
  excluded v obstacles N M end_ ->
  navigate_in (F:=F) v start end_ obstacles N M = Some [].
Proof.
  intros Hne Hex.
  destruct (navigate_in_walk v start end_ obstacles N M) as (r & Hr & Hspec).
  rewrite Hr. destruct Hspec as [->|(_ & Hl & _ & _ & [->|?])]; [done| |done].
  simpl in Hl. congruence.
Qed.

Lemma never_neighbor_excluded v obstacles N M c :
  excluded v obstacles N M c -> never_neighbor (F:=F) v obstacles N M c.
Proof.
  intros Hex. destruct v; simpl; intros p Hin.
  - apply APCSP_neighbors_spec in Hin as [_ Hok].
    by apply APCSP_ok_not_excluded in Hok.
  - apply Pathfinder_neighbors_spec in Hin as (d & _ & _ & Hok & _).
    by apply Pathfinder_ok_not_excluded in Hok.
Qed.

(** C3 (amended): in either file [neighbors] excludes every candidate
    that is an obstacle or has row or column [<= 0], and in
    APCSP_pathfinder.py every candidate of row [>= N] or column [>= M];
    consequently no such cell appears in a returned path after its first
    cell. *)
Theorem excluded_never_in_path v obstacles N M (c : Cell) :
  excluded v obstacles N M c ->
  never_neighbor (F:=F) v obstacles N M c
  /\ forall (start end_ : Cell) path,
       navigate_in (F:=F) v start end_ obstacles N M = Some path ->
       c ∉ tail path.
Proof.
  intros Hex. split; [by apply never_neighbor_excluded|].
  intros start end_ path Hnav Hin.
  destruct (navigate_in_walk v start end_ obstacles N M) as (r & Hr & Hspec).
  rewrite Hnav in Hr. injection Hr as <-.
  destruct Hspec as [->|(_ & _ & _ & Hall & _)]; [by apply elem_of_nil in Hin|].
  rewrite Forall_forall in Hall. by apply (Hall c).
Qed.

(** C4: in pathfinder.py, [neighbors] rejects the diagonal candidate
    whenever one of the two cells of the corner (the candidate's first
    coordinate with the source's second, or the source's first with the
    candidate's second) is an obstacle. *)
Theorem neighbors_no_corner_cutting (p : @Pathfinder.Point F) obstacles N M
    (d : Z * Z) :
  d ∈ directions -> d.1 <> 0 -> d.2 <> 0 ->
  (Pathfinder.x p + d.1, Pathfinder.y p) ∈ obstacles
  \/ (Pathfinder.x p, Pathfinder.y p + d.2) ∈ obstacles ->
  (Pathfinder.x p + d.1, Pathfinder.y p + d.2)
    ∉ Pathfinder.neighbors p obstacles N M.
Proof.
  intros Hd H1 H2 Hcorner Hin.
  apply Pathfinder_neighbors_spec in Hin as (d' & _ & Heq & _ & Hfree).
  injection Heq as Hx Hy.
  assert (d'.1 = d.1) as Hd1 by lia. assert (d'.2 = d.2) as Hd2 by lia.
  rewrite Hd1, Hd2 in Hfree. destruct (Hfree H1 H2). tauto.
Qed.

(** C6: when the start cell is the end cell, [navigate] returns the
    single-cell path, in both files. *)
Theorem navigate_start_is_end (s : Cell) obstacles N M :
  APCSP.navigate (F:=F) s s obstacles N M = Some [s]
  /\ Pathfinder.navigate (F:=F) s s obstacles N M = Some [s].
Proof.
  destruct s as [sx sy]. split.
  - unfold APCSP.navigate, search_fuel. cbn [APCSP.navigate_loop].
    unfold APCSP.iteration. cbn [Heapq.heappop last removelast fst snd].
    rewrite alter_singleton_eq, lookup_total_singleton_eq. cbn [APCSP.set_visited APCSP.x APCSP.y fst snd].
    rewrite !Z.eqb_refl. cbn [andb].
    unfold APCSP.retrace_steps. rewrite map_size_singleton.
    cbn [APCSP.retrace_loop]. rewrite lookup_total_singleton_eq. done.
  - unfold Pathfinder.navigate, search_fuel.
    change (Heapq.heappush _ [] (sx, sy)) with [(sx, sy)].
    cbn [Pathfinder.navigate_loop].
    unfold Pathfinder.iteration. cbn [Heapq.heappop last removelast fst snd].
    rewrite alter_singleton_eq, lookup_total_singleton_eq. cbn [Pathfinder.set_closed Pathfinder.x Pathfinder.y fst snd].
    rewrite !Z.eqb_refl. cbn [andb].
    unfold Pathfinder.retrace_steps. rewrite map_size_singleton.
    cbn [Pathfinder.retrace_loop]. rewrite lookup_total_singleton_eq. done.
Qed.

(** C10: with fewer than two waypoints the pair loop of [find_path] runs
    zero times: APCSP_pathfinder.py returns the empty list, pathfinder.py
    the empty path and the flag [True]. *)
Theorem find_path_few_waypoints (waypoints : list Cell) obstacles N M :
  (length waypoints < 2)%nat ->
  APCSP.find_path (F:=F) waypoints obstacles N M = Some []
  /\ Pathfinder.find_path (F:=F) waypoints obstacles N M = Some ([], true).
Proof.
  intros Hlen. destruct waypoints as [|w0 [|w1 waypoints]]; [done..|].
  simpl in Hlen. lia.
Qed.
End Variants.

(** ** pathfinder.py: the chainer *)
Lemma is_walk_app_tail (e : Cell -> Cell -> Prop) (route t : list Cell) (w : Cell) :
  is_walk e route -> last route = Some w -> is_walk e (w :: t) ->
  is_walk e (route ++ t).
Proof.
  induction route as [|a [|b route] IH]; intros Hr Hl Ht.
  - done.
  - simpl in Hl. by simplify_eq.
  - destruct Hr as [Hab Hr]. split; [done|]. by apply IH.
Qed.

Lemma last_app_tail (route t : list Cell) (w w' : Cell) :
  last route = Some w -> last (w :: t) = Some w' -> last (route ++ t) = Some w'.
Proof.
  intros Hl Ht. destruct t as [|c t].
  - rewrite app_nil_r. simpl in Ht. congruence.
  - rewrite last_app. rewrite last_cons in Ht.
    destruct (last (c :: t)); congruence.
Qed.

Section Chainer.
Context {F : Type} `{!Score F}.
Implicit Types (obstacles path : list Cell) (N M : Z).

(** The path to an obstacle cell is searched with the cell still in the
    obstacle set, so [get_path_to_obstacle] has nothing to return. *)
Lemma get_path_to_obstacle_empty (waypoint obstacle : Cell) obstacles N M :
  obstacle ∈ obstacles ->
  Pathfinder.get_path_to_obstacle (F:=F) waypoint obstacle obstacles N M = Some [].
Proof.
  intros Hin. unfold Pathfinder.get_path_to_obstacle.
  destruct (navigate_in_walk Pathfinder_file waypoint obstacle obstacles N M)
    as (r & Hr & Hspec).
  simpl in Hr. rewrite Hr. simpl.
  destruct Hspec as [->|(_ & _ & _ & _ & [->|Hex])]; [done..|].
  destruct Hex. by left.
Qed.

Lemma nearest_obstacle_elem (w_i w_i1 : Cell) obstacles (o : Cell) :
  Pathfinder.nearest_obstacle (F:=F) w_i w_i1 obstacles = Some o -> o ∈ obstacles.
Proof.
  unfold Pathfinder.nearest_obstacle.
  assert (Hgen : forall l st,
    (forall o, st.1 = Some o -> o ∈ obstacles) ->
    (forall c, c ∈ l -> c ∈ obstacles) ->
    forall o,
    (fold_left
       (fun '(obstacle_point, min_distance) obstacle =>
          let dist := s_add (s_dist w_i obstacle) (s_dist obstacle w_i1) in
          if s_lt dist min_distance then (Some obstacle, dist)
          else (obstacle_point, min_distance)) l st).1 = Some o -> o ∈ obstacles).
  { induction l as [|c l IH]; intros [op md] Hst Hl o'; simpl; [apply Hst|].
    apply IH.
    - destruct (s_lt _ _); simpl; [|apply Hst].
      intros ? [= <-]. apply Hl. left.
    - intros c' Hc'. apply Hl. by right. }
  apply Hgen; [done|auto].
Qed.

(** What [find_path] of pathfinder.py returns when the first segment is
    not found: the nearest obstacle alone. *)
Lemma find_path_blocked (w0 w1 : Cell) obstacles N M :
  Pathfinder.navigate (F:=F) w0 w1 obstacles N M = Some [] ->
  Pathfinder.find_path (F:=F) [w0; w1] obstacles N M
  = Some (match Pathfinder.nearest_obstacle w0 w1 obstacles with
          | Some obstacle_point => [obstacle_point]
          | None => []
          end, false).
Proof.
  intros Hnav. unfold Pathfinder.find_path. simpl. rewrite Hnav. simpl.
  destruct (Pathfinder.nearest_obstacle w0 w1 obstacles) as [o|] eqn:Ho; [|done].
  rewrite get_path_to_obstacle_empty; [done|]. by eapply nearest_obstacle_elem.
Qed.

Lemma segments_walk (ws : list Cell) (w : Cell) obstacles N M
    (segs : list (list Cell)) (route : list Cell) :
  Forall2 (fun ab seg =>
             Pathfinder.navigate (F:=F) ab.1 ab.2 obstacles N M = Some seg
             /\ seg <> []) (pairs (w :: ws)) segs ->
  is_walk adjacent8 route -> last route = Some w ->
  is_walk adjacent8 (route ++ concat (tail <$> segs)).
Proof.
  revert w segs route. induction ws as [|w' ws IH]; intros w segs route HF Hw Hl.
  { simpl in HF. apply Forall2_nil_inv_l in HF as ->. by rewrite app_nil_r. }
  change (pairs (w :: w' :: ws)) with ((w, w') :: pairs (w' :: ws)) in HF.
  apply Forall2_cons_inv_l in HF as (seg & segs' & [Hnav Hne] & HF & ->).
  simpl in Hnav.
  destruct (navigate_in_walk Pathfinder_file w w' obstacles N M) as (r & Hr & Hspec).
  simpl in Hr. rewrite Hnav in Hr. injection Hr as <-.
  destruct Hspec as [?|(Hh & Hlast & Hwalk & _)]; [done|].
  destruct seg as [|c t]; [done|]. simpl in Hh. injection Hh as ->.
  rewrite fmap_cons. simpl. rewrite app_assoc. eapply IH; [exact HF| |].
  - by eapply is_walk_app_tail.
  - by eapply last_app_tail.
Qed.

Lemma find_path_loop_found (i : nat) (w w' : Cell) (ws : list Cell)
    obstacles N M (final_path seg : list Cell) :
  Pathfinder.navigate (F:=F) w w' obstacles N M = Some seg -> seg <> [] ->
  Pathfinder.find_path_loop i (w :: w' :: ws) obstacles N M final_path
  = Pathfinder.find_path_loop (S i) (w' :: ws) obstacles N M
      (final_path ++ if (i =? 0)%nat then seg else tail seg).
Proof.
  intros Hnav Hne. cbn [Pathfinder.find_path_loop]. rewrite Hnav.
  destruct seg as [|c t]; [done|]. by destruct i.
Qed.

Lemma find_path_loop_later (ws : list Cell) (w : Cell) obstacles N M
    (segs : list (list Cell)) (i : nat) (final_path : list Cell) :
  i <> O ->
  Forall2 (fun ab seg =>
             Pathfinder.navigate (F:=F) ab.1 ab.2 obstacles N M = Some seg
             /\ seg <> []) (pairs (w :: ws)) segs ->
  Pathfinder.find_path_loop i (w :: ws) obstacles N M final_path
  = Some (final_path ++ concat (tail <$> segs), true).
Proof.
  revert w segs i final_path.
  induction ws as [|w' ws IH]; intros w segs i final_path Hi HF.
  { simpl in HF. apply Forall2_nil_inv_l in HF as ->. simpl. by rewrite app_nil_r. }
  change (pairs (w :: w' :: ws)) with ((w, w') :: pairs (w' :: ws)) in HF.
  apply Forall2_cons_inv_l in HF as (seg & segs' & [Hnav Hne] & HF & ->).
  simpl in Hnav. rewrite (find_path_loop_found _ _ _ _ _ _ _ _ _ Hnav Hne).
  destruct i as [|i]; [done|]. change (S i =? 0)%nat with false. cbv iota.
  rewrite (IH w' segs' (S (S i)) _ ltac:(done) HF). by rewrite <- app_assoc.
Qed.

(** C9 (amended): when every consecutive pair of waypoints has a non-empty
    segment, [find_path] of pathfinder.py returns, with the flag [True], the
    first segment whole followed by the cells after the first of every
    later segment; consecutive cells of that route are 8-adjacent, so no
    waypoint is written twice in a row at a junction. *)
Theorem find_path_joins_segments (waypoints : list Cell) obstacles N M
    (segments : list (list Cell)) :
  Forall2 (fun ab seg =>
             Pathfinder.navigate (F:=F) ab.1 ab.2 obstacles N M = Some seg
             /\ seg <> []) (pairs waypoints) segments ->
  Pathfinder.find_path (F:=F) waypoints obstacles N M
    = Some (joined segments, true)
  /\ is_walk adjacent8 (joined segments).
Proof.
  intros HF. unfold Pathfinder.find_path.
  destruct waypoints as [|w [|w' ws]].
  - simpl in HF. by apply Forall2_nil_inv_l in HF as ->.
  - simpl in HF. by apply Forall2_nil_inv_l in HF as ->.
  - change (pairs (w :: w' :: ws)) with ((w, w') :: pairs (w' :: ws)) in HF.
    apply Forall2_cons_inv_l in HF as (seg & segs' & [Hnav Hne] & HF & ->).
    simpl in Hnav. rewrite (find_path_loop_found _ _ _ _ _ _ _ _ _ Hnav Hne).
    destruct (navigate_in_walk Pathfinder_file w w' obstacles N M) as (r & Hr & Hspec).
    simpl in Hr. rewrite Hnav in Hr. injection Hr as <-.
    destruct Hspec as [?|(Hh & Hlast & Hwalk & _)]; [done|].
    destruct seg as [|c t]; [done|]. split.
    + by rewrite (find_path_loop_later _ _ _ _ _ _ 1%nat _ ltac:(done) HF).
    + by eapply segments_walk.
Qed.
End Chainer.

(** ** Both files: the search is exhaustive, and its paths are simple *)

Lemma adjacent8_directions (c n : Cell) :
  adjacent8 c n -> (n.1 - c.1, n.2 - c.2) ∈ directions.
Proof.
  destruct c as [cx cy], n as [nx ny]. unfold adjacent8. simpl.
  intros (Hne & H1 & H2).
  assert (nx - cx = -1 \/ nx - cx = 0 \/ nx - cx = 1) as Hx by lia.
  assert (ny - cy = -1 \/ ny - cy = 0 \/ ny - cy = 1) as Hy by lia.
  unfold directions.
  destruct Hx as [Hx|[Hx|Hx]], Hy as [Hy|[Hy|Hy]]; rewrite Hx, Hy;
    try (by repeat constructor).
  destruct Hne. f_equal; lia.
Qed.

Lemma reachable_refl (edge : Cell -> Cell -> Prop) (c : Cell) : reachable edge c c.
Proof. by exists [c]. Qed.

Lemma reachable_step_l (edge : Cell -> Cell -> Prop) (a b c : Cell) :
  edge a b -> reachable edge b c -> reachable edge a c.
Proof.
  intros Hab (path & Hh & Hl & Hw). exists (a :: path).
  destruct path as [|b' path]; [done|]. simpl in Hh. injection Hh as ->.
  split_and!; [done|by rewrite last_cons, Hl|done].
Qed.

(** A set of cells that holds [start] and is closed under the steps holds
    every cell that can be reached. *)
Lemma reachable_closure (edge : Cell -> Cell -> Prop) (Q : Cell -> Prop)
    (start c : Cell) :
  Q start -> (forall a b, Q a -> edge a b -> Q b) ->
  reachable edge start c -> Q c.
Proof.
  intros Hs Hstep (path & Hh & Hl & Hw). revert Hs Hh Hw. generalize start.
  induction path as [|a path IH]; intros s Hs Hh Hw; [done|].
  simpl in Hh. injection Hh as ->. destruct path as [|b path].
  - simpl in Hl. by injection Hl as <-.
  - destruct Hw as [Hab Hw]. apply (IH Hl b); [by eapply Hstep|done|done].
Qed.

Section Search_facts.
Context {F : Type} `{!Score F}.
Implicit Types (v : variant) (obstacles path : list Cell) (N M : Z).

Lemma APCSP_reached_spec (end_ : Cell) (p : @APCSP.Point F) :
  APCSP_parts.reached end_ p = true <-> APCSP_parts.coords p = end_.
Proof.
  unfold APCSP_parts.reached, APCSP_parts.coords.
  destruct end_ as [ex ey]. simpl. rewrite andb_true_iff, !Z.eqb_eq.
  split; [by intros [-> ->]|by intros [= -> ->]].
Qed.

Lemma Pathfinder_reached_spec (p2 : Cell) (p : @Pathfinder.Point F) :
  Pathfinder_parts.reached p2 p = true <-> Pathfinder_parts.coords p = p2.
Proof.
  unfold Pathfinder_parts.reached, Pathfinder_parts.coords.
  destruct p2 as [ex ey]. simpl. rewrite andb_true_iff, !Z.eqb_eq.
  split; [by intros [-> ->]|by intros [= -> ->]].
Qed.

Lemma APCSP_neighbors_universe (p : @APCSP.Point F) obstacles N M (start n : Cell) :
  n ∈ APCSP.neighbors p obstacles N M -> n ∈ APCSP_parts.universe N M start.
Proof.
  intros [_ (_ & ? & ?)]%APCSP_neighbors_spec. right. by apply elem_of_rectangle.
Qed.

Lemma Pathfinder_neighbors_universe (p : @Pathfinder.Point F) obstacles N M
    (start n : Cell) :
  n ∈ Pathfinder.neighbors p obstacles N M ->
  n ∈ Pathfinder_parts.universe N M start.
Proof.
  intros (d & _ & _ & (_ & ? & ?) & _)%Pathfinder_neighbors_spec. right.
  by apply elem_of_rectangle.
Qed.

(** [neighbors] offers every step to an accepted 8-adjacent cell. *)
Lemma APCSP_neighbors_complete (p : @APCSP.Point F) obstacles N M (n : Cell) :
  APCSP_parts.edge obstacles N M (APCSP_parts.coords p) n ->
  n ∈ APCSP.neighbors p obstacles N M.
Proof.
  intros [Hadj Hok]. apply APCSP_neighbors_spec. split; [|done].
  exists (n.1 - APCSP.x p, n.2 - APCSP.y p). split.
  - by apply (adjacent8_directions (APCSP_parts.coords p)).
  - destruct n as [nx ny]. simpl. f_equal; lia.
Qed.

Lemma Pathfinder_neighbors_complete (p : @Pathfinder.Point F) obstacles N M
    (n : Cell) :
  Pathfinder_parts.edge obstacles N M (Pathfinder_parts.coords p) n ->
  n ∈ Pathfinder.neighbors p obstacles N M.
Proof.
  intros (Hadj & Hok & Hcorner). apply Pathfinder_neighbors_spec.
  exists (n.1 - Pathfinder.x p, n.2 - Pathfinder.y p).
  destruct n as [nx ny]. simpl in *. split_and!.
  - by apply (adjacent8_directions (Pathfinder_parts.coords p) (nx, ny)).
  - f_equal; lia.
  - done.
  - intros H1 H2.
    replace (Pathfinder.x p + (nx - Pathfinder.x p)) with nx by lia.
    replace (Pathfinder.y p + (ny - Pathfinder.y p)) with ny by lia.
    apply Hcorner; lia.
Qed.

Lemma APCSP_Inv_start (start end_ : Cell) obstacles N M :
  Astar.Inv APCSP_parts.coords APCSP.visited APCSP.parent
    (APCSP_parts.edge obstacles N M) start
    (APCSP_parts.universe N M start) 0 [start]
    ({[start := APCSP.mkPoint start.1 start.2 s_zero (s_dist start end_)
                  false None]} : gmap Cell (@APCSP.Point F)).
Proof.
  set (sp := APCSP.mkPoint _ _ _ _ _ _). split.
  - apply NoDup_singleton.
  - intros c ->%list_elem_of_singleton. exists sp. by rewrite lookup_singleton_eq.
  - intros c p [<- <-]%lookup_singleton_Some. subst sp. by destruct start.
  - intros c p [<- _]%lookup_singleton_Some. left.
  - intros c p [<- <-]%lookup_singleton_Some. exists [start]. split; [|done].
    eapply Astar.chain_root; [apply lookup_singleton_eq|done].
  - exists []. split_and!; [constructor|done|].
    intros c. split; [by intros ?%elem_of_nil|].
    by intros (p & [<- <-]%lookup_singleton_Some & ?).
Qed.

(** The state [navigate] starts from is an explored one: the start point is
    open and in the heap. *)
Lemma Explored_start {P : Type} (closed : P -> bool)
    (edge : Cell -> Cell -> Prop) (start end_ : Cell) (sp : P) :
  closed sp = false ->
  Explored closed edge start end_ None [start] {[start := sp]}.
Proof.
  intros Hsp. split.
  - by rewrite lookup_singleton_eq.
  - intros c p [<- _]%lookup_singleton_Some _. left.
  - intros c p n [<- <-]%lookup_singleton_Some. congruence.
  - by intros p [_ <-]%lookup_singleton_Some.
Qed.

Lemma APCSP_loop_state_eq end_ obstacles N M k start :
  APCSP_parts.loop_state (F:=F) end_ obstacles N M k start
  = Astar.loop_state APCSP_parts.coords APCSP.visited APCSP.parent
      APCSP.set_visited APCSP.ref_lt (fun p => APCSP.neighbors p obstacles N M)
      (APCSP_parts.reached end_) APCSP_parts.worse (APCSP_parts.relaxed end_)
      (APCSP_parts.fresh end_) k [start]
      {[start := APCSP.mkPoint start.1 start.2 s_zero (s_dist start end_)
                   false None]}.
Proof.
  induction k as [|k IH]; [done|]. simpl. rewrite IH.
  destruct (Astar.loop_state _ _ _ _ _ _ _ _ _ _ _ _ _) as [[heap store]|];
    [|done].
  simpl. by rewrite APCSP_iteration_eq.
Qed.

Lemma APCSP_navigate_exhaustive (start end_ : Cell) obstacles N M :
  APCSP.navigate (F:=F) start end_ obstacles N M = Some [] ->
  ~ reachable (APCSP_parts.edge obstacles N M) start end_.
Proof.
  unfold APCSP.navigate. rewrite APCSP_navigate_loop_eq.
  eapply (navigate_loop_exhaustive APCSP_parts.coords APCSP.visited APCSP.parent
    APCSP.set_visited APCSP.ref_lt (fun p => APCSP.neighbors p obstacles N M)
    (APCSP_parts.reached end_) APCSP_parts.worse (APCSP_parts.relaxed end_)
    (APCSP_parts.fresh end_) (APCSP_parts.edge obstacles N M) start end_
    (APCSP_parts.universe N M start)); try done.
  - by intros c cur [nx ny].
  - intros p n. apply APCSP_neighbors_edge.
  - intros p n. apply APCSP_neighbors_universe.
  - apply APCSP_reached_spec.
  - intros p n. apply APCSP_neighbors_complete.
  - apply APCSP_Inv_start.
  - by apply Explored_start.
Qed.

Lemma Pathfinder_navigate_exhaustive (p1 p2 : Cell) obstacles N M :
  Pathfinder.navigate (F:=F) p1 p2 obstacles N M = Some [] ->
  ~ reachable (Pathfinder_parts.edge obstacles N M) p1 p2.
Proof.
  unfold Pathfinder.navigate. rewrite Pathfinder_navigate_loop_eq.
  change (Heapq.heappush _ [] p1) with [p1].
  eapply (navigate_loop_exhaustive Pathfinder_parts.coords Pathfinder_parts.closed
    Pathfinder.parent Pathfinder.set_closed Pathfinder.ref_lt
    (fun p => Pathfinder.neighbors p obstacles N M)
    (Pathfinder_parts.reached p2) Pathfinder_parts.worse
    (Pathfinder_parts.relaxed p2) (Pathfinder_parts.fresh p2)
    (Pathfinder_parts.edge obstacles N M) p1 p2
    (Pathfinder_parts.universe N M p1)); try done.
  - by intros c cur [nx ny].
  - intros p n. apply Pathfinder_neighbors_edge.
  - intros p n. apply Pathfinder_neighbors_universe.
  - apply Pathfinder_reached_spec.
  - intros p n. apply Pathfinder_neighbors_complete.
  - apply Pathfinder_Inv_start.
  - by apply Explored_start.
Qed.
Lemma APCSP_navigate_NoDup (start end_ : Cell) obstacles N M path :
  APCSP.navigate (F:=F) start end_ obstacles N M = Some path -> NoDup path.
Proof.
  unfold APCSP.navigate. rewrite APCSP_navigate_loop_eq.
  eapply (navigate_loop_NoDup APCSP_parts.coords APCSP.visited APCSP.parent
    APCSP.set_visited APCSP.ref_lt (fun p => APCSP.neighbors p obstacles N M)
    (APCSP_parts.reached end_) APCSP_parts.worse (APCSP_parts.relaxed end_)
    (APCSP_parts.fresh end_) (APCSP_parts.edge obstacles N M) start end_
    (APCSP_parts.universe N M start)) with (k := O); try done.
  - by intros c cur [nx ny].
  - intros p n. apply APCSP_neighbors_edge.
  - intros p n. apply APCSP_neighbors_universe.
  - apply APCSP_reached_spec.
  - apply APCSP_Inv_start.
  - unfold APCSP_parts.universe, search_fuel. simpl. rewrite length_rectangle. lia.
Qed.

Lemma Pathfinder_navigate_NoDup (p1 p2 : Cell) obstacles N M path :
  Pathfinder.navigate (F:=F) p1 p2 obstacles N M = Some path -> NoDup path.
Proof.
  unfold Pathfinder.navigate. rewrite Pathfinder_navigate_loop_eq.
  change (Heapq.heappush _ [] p1) with [p1].
  eapply (navigate_loop_NoDup Pathfinder_parts.coords Pathfinder_parts.closed
    Pathfinder.parent Pathfinder.set_closed Pathfinder.ref_lt
    (fun p => Pathfinder.neighbors p obstacles N M)
    (Pathfinder_parts.reached p2) Pathfinder_parts.worse
    (Pathfinder_parts.relaxed p2) (Pathfinder_parts.fresh p2)
    (Pathfinder_parts.edge obstacles N M) p1 p2
    (Pathfinder_parts.universe N M p1)) with (k := O); try done.
  - by intros c cur [nx ny].
  - intros p n. apply Pathfinder_neighbors_edge.
  - intros p n. apply Pathfinder_neighbors_universe.
  - apply Pathfinder_reached_spec.
  - apply Pathfinder_Inv_start.
  - unfold Pathfinder_parts.universe, search_fuel. simpl.
    rewrite length_rectangle. lia.
Qed.

(** Both files: [navigate] returns, and what it returns is the empty list
    or a walk along the steps of [neighbors] from the start to the end. *)
Lemma navigate_in_steps v (start end_ : Cell) obstacles N M :
  exists r, navigate_in (F:=F) v start end_ obstacles N M = Some r
    /\ (r = [] \/
        head r = Some start /\ last r = Some end_
        /\ is_walk (step_in v obstacles N M) r).
Proof.
  destruct v; simpl.
  - destruct (APCSP_navigate_walk start end_ obstacles N M) as (r & Hr & Hspec).
    exists r. split; [done|]. destruct Hspec as [->|(? & ? & ? & _)]; auto.
  - destruct (Pathfinder_navigate_walk start end_ obstacles N M) as (r & Hr & Hspec).
    exists r. split; [done|]. destruct Hspec as [->|(? & ? & ? & _)]; auto.
Qed.

Lemma step_in_accepted v obstacles N M (a b : Cell) :
  step_in v obstacles N M a b -> accepted_in v obstacles N M b.
Proof. destruct v; simpl; [by intros [_ ?]|by intros (_ & ? & _)]. Qed.

Lemma step_in_sym v obstacles N M (a b : Cell) :
  accepted_in v obstacles N M a -> step_in v obstacles N M a b ->
  step_in v obstacles N M b a.
Proof.
  assert (Hadj : adjacent8 a b -> adjacent8 b a).
  { intros (? & ? & ?). split_and!; [done|lia..]. }
  destruct v; simpl.
  - intros Ha [? _]. split; [by apply Hadj|done].
  - intros Ha (? & _ & Hc). split_and!; [by apply Hadj|done|].
    intros ??. destruct Hc; [done..|]. done.
Qed.

Lemma reachable_sym v obstacles N M (a b : Cell) :
  accepted_in v obstacles N M a ->
  reachable (step_in v obstacles N M) a b ->
  reachable (step_in v obstacles N M) b a.
Proof.
  intros Ha Hab.
  apply (reachable_closure (step_in v obstacles N M)
           (fun c => accepted_in v obstacles N M c
                     /\ reachable (step_in v obstacles N M) c a) a b);
    [| |done].
  - split; [done|apply reachable_refl].
  - intros x y [Hx Hxa] Hxy. split; [by eapply step_in_accepted|].
    eapply reachable_step_l; [|done]. by apply step_in_sym.
Qed.

Lemma accepted_in_rectangle v obstacles N M (c : Cell) :
  accepted_in v obstacles N M c ->
  c ∈ match v with
      | APCSP_file => rectangle N M
      | Pathfinder_file => rectangle M N
      end.
Proof.
  destruct v; simpl; intros (_ & ? & ?); by apply elem_of_rectangle.
Qed.


Lemma navigate_in_empty_iff v (start end_ : Cell) obstacles N M :
  navigate_in (F:=F) v start end_ obstacles N M = Some []
  <-> ~ reachable (step_in v obstacles N M) start end_.
Proof.
  split.
  - destruct v; simpl; [apply APCSP_navigate_exhaustive|
                        apply Pathfinder_navigate_exhaustive].
  - intros Hno.
    destruct (navigate_in_steps v start end_ obstacles N M) as (r & Hr & Hspec).
    rewrite Hr. destruct Hspec as [->|(Hh & Hl & Hw)]; [done|].
    destruct Hno. by exists r.
Qed.

(** X2: the search is exhaustive.  [navigate] returns the empty list
    exactly when no walk along the steps that [neighbors] offers leads from
    the start cell to the end cell; whenever such a walk exists it returns
    a path. *)
Theorem navigate_empty_iff_unreachable v (start end_ : Cell) obstacles N M :
  navigate_in (F:=F) v start end_ obstacles N M = Some []
  <-> ~ reachable (step_in v obstacles N M) start end_.
Proof. apply navigate_in_empty_iff. Qed.

(** X3: a path returned by [navigate] goes through no cell twice, and has
    at most [(N-1) * (M-1) + 1] cells. *)
Theorem navigate_path_simple v (start end_ : Cell) obstacles N M path :
  navigate_in (F:=F) v start end_ obstacles N M = Some path ->
  NoDup path
  /\ (length path <= S (Z.to_nat (N - 1) * Z.to_nat (M - 1)))%nat.
Proof.
  intros Hnav.
  assert (Hnd : NoDup path).
  { destruct v; simpl in Hnav;
      [by eapply APCSP_navigate_NoDup|by eapply Pathfinder_navigate_NoDup]. }
  split; [done|].
  destruct (navigate_in_steps v start end_ obstacles N M) as (r & Hr & Hspec).
  rewrite Hnav in Hr. injection Hr as <-.
  destruct Hspec as [->|(Hh & Hl & Hw)]; [apply Nat.le_0_l|].
  destruct path as [|c t]; [done|]. cbn [length]. apply le_n_S.
  apply NoDup_cons in Hnd as [_ Hnd].
  assert (Hin : forall c', c' ∈ t ->
            c' ∈ match v with
                 | APCSP_file => rectangle N M
                 | Pathfinder_file => rectangle M N
                 end).
  { intros c' Hc'. apply accepted_in_rectangle with (obstacles := obstacles).
    pose proof (is_walk_tail_Forall (step_in v obstacles N M)
                  (accepted_in v obstacles N M) (c :: t)
                  (step_in_accepted v obstacles N M) Hw) as Hall.
    simpl in Hall. rewrite Forall_forall in Hall. by apply Hall. }
  etrans; [apply submseteq_length, NoDup_submseteq; [exact Hnd|exact Hin]|].
  destruct v; rewrite length_rectangle; lia.
Qed.

(** X4: a path returned by [navigate] of pathfinder.py cuts no corner: at
    every diagonal step of the path the two cells that share a side with
    both ends of the step are free of obstacles. *)
Theorem navigate_cuts_no_corner (p1 p2 : Cell) obstacles N M path :
  Pathfinder.navigate (F:=F) p1 p2 obstacles N M = Some path ->
  is_walk (fun a b : Cell =>
             a.1 <> b.1 -> a.2 <> b.2 ->
             ((b.1, a.2) ∉ obstacles) /\ ((a.1, b.2) ∉ obstacles)) path.
Proof.
  intros Hnav.
  destruct (Pathfinder_navigate_walk p1 p2 obstacles N M) as (r & Hr & Hspec).
  rewrite Hnav in Hr. injection Hr as <-.
  destruct Hspec as [->|(_ & _ & Hw & _)]; [done|].
  eapply is_walk_weaken; [|exact Hw]. by intros a b (_ & _ & ?).
Qed.

(** X5: between two cells that pass the tests of [neighbors], [navigate]
    finds a path in one direction exactly when it finds one in the other:
    the steps can be walked backwards. *)
Theorem navigate_reversible v (a b : Cell) obstacles N M :
  accepted_in v obstacles N M a -> accepted_in v obstacles N M b ->
  (navigate_in (F:=F) v a b obstacles N M = Some []
   <-> navigate_in (F:=F) v b a obstacles N M = Some []).
Proof.
  intros Ha Hb. rewrite !navigate_in_empty_iff. split.
  - intros Hno Hba. apply Hno. by apply reachable_sym.
  - intros Hno Hab. apply Hno. by apply reachable_sym.
Qed.
(** X6: at the head of the [while] loop, after any number of iterations,
    the heap holds exactly the points of the dictionary that are not yet
    closed, each once; in both files. *)
Theorem heap_holds_open_points (start end_ : Cell) obstacles N M (k : nat) :
  (forall candidates point_dict,
     APCSP_parts.loop_state (F:=F) end_ obstacles N M k start
       = Some (candidates, point_dict) ->
     NoDup candidates
     /\ forall c, c ∈ candidates <->
          exists p, point_dict !! c = Some p /\ APCSP.visited p = false)
  /\ (forall openpoints visited,
        Pathfinder_parts.loop_state (F:=F) end_ obstacles N M k start
          = Some (openpoints, visited) ->
        NoDup openpoints
        /\ forall c, c ∈ openpoints <->
             exists p, visited !! c = Some p /\ Pathfinder.state p <> 1).
Proof.
  split.
  - intros candidates point_dict. rewrite APCSP_loop_state_eq. intros Hstate.
    edestruct (loop_state_open APCSP_parts.coords APCSP.visited APCSP.parent
      APCSP.set_visited APCSP.ref_lt (fun p => APCSP.neighbors p obstacles N M)
      (APCSP_parts.reached end_) APCSP_parts.worse (APCSP_parts.relaxed end_)
      (APCSP_parts.fresh end_) (APCSP_parts.edge obstacles N M) start end_
      (APCSP_parts.universe N M start)) as [HI HE]; [..|exact Hstate|]; try done.
    + by intros c cur [nx ny].
    + intros p n. apply APCSP_neighbors_edge.
    + intros p n. apply APCSP_neighbors_universe.
    + apply APCSP_reached_spec.
    + intros p n. apply APCSP_neighbors_complete.
    + apply APCSP_Inv_start.
    + by apply Explored_start.
    + destruct HI as [Hnd Hopen _ _ _ _], HE as [_ Ho _ _].
      split; [done|]. intros c. split; [apply Hopen|].
      intros (p & Hp & Hv). by eapply Ho.
  - intros openpoints visited. rewrite Pathfinder_loop_state_eq. intros Hstate.
    edestruct (loop_state_open Pathfinder_parts.coords Pathfinder_parts.closed
      Pathfinder.parent Pathfinder.set_closed Pathfinder.ref_lt
      (fun p => Pathfinder.neighbors p obstacles N M)
      (Pathfinder_parts.reached end_) Pathfinder_parts.worse
      (Pathfinder_parts.relaxed end_) (Pathfinder_parts.fresh end_)
      (Pathfinder_parts.edge obstacles N M) start end_
      (Pathfinder_parts.universe N M start)) as [HI HE]; [..|exact Hstate|];
      try done.
    + by intros c cur [nx ny].
    + intros p n. apply Pathfinder_neighbors_edge.
    + intros p n. apply Pathfinder_neighbors_universe.
    + apply Pathfinder_reached_spec.
    + intros p n. apply Pathfinder_neighbors_complete.
    + apply Pathfinder_Inv_start.
    + by apply Explored_start.
    + destruct HI as [Hnd Hopen _ _ _ _], HE as [_ Ho _ _].
      split; [done|]. intros c. split.
      * intros (p & Hp & Hcl)%Hopen. exists p. split; [done|].
        unfold Pathfinder_parts.closed in Hcl. by apply Z.eqb_neq.
      * intros (p & Hp & Hst). eapply Ho; [done|].
        unfold Pathfinder_parts.closed. by apply Z.eqb_neq.
Qed.
End Search_facts.

(** ** The chainers: what [find_path] returns *)
Section Chainers.
Context {F : Type} `{!Score F}.
Implicit Types (obstacles : list Cell) (N M : Z).

Lemma APCSP_find_path_loop_cons (w w' : Cell) (ws : list Cell) obstacles N M
    (acc : list (list Cell)) :
  APCSP.find_path_loop (F:=F) (w :: w' :: ws) obstacles N M acc
  = path_segment ← APCSP.navigate w w' obstacles N M;
    match path_segment with
    | _ :: _ =>
        APCSP.find_path_loop (w' :: ws) obstacles N M (acc ++ [path_segment])
    | [] => Some (acc ++ [[]])
    end.
Proof. reflexivity. Qed.

Lemma APCSP_find_path_loop_spec (ws : list Cell) obstacles N M
    (acc : list (list Cell)) :
  exists segs,
    APCSP.find_path_loop (F:=F) ws obstacles N M acc = Some (acc ++ segs)
    /\ (length segs <= length ws - 1)%nat
    /\ (forall (i : nat) seg, segs !! i = Some seg ->
          exists a b, ws !! i = Some a /\ ws !! S i = Some b
            /\ APCSP.navigate (F:=F) a b obstacles N M = Some seg)
    /\ (forall i : nat, segs !! i = Some [] -> S i = length segs)
    /\ ((length segs < length ws - 1)%nat -> last segs = Some []).
Proof.
  revert acc. induction ws as [|w ws IH]; intros acc.
  { exists []. simpl. rewrite app_nil_r. split_and!; [done|lia|done|done|lia]. }
  destruct ws as [|w' ws].
  { exists []. simpl. rewrite app_nil_r. split_and!; [done|lia|done|done|lia]. }
  rewrite APCSP_find_path_loop_cons.
  destruct (APCSP_navigate_walk w w' obstacles N M) as (seg & Hseg & _).
  rewrite Hseg. cbn [mbind option_bind].
  destruct seg as [|c t].
  - exists [[]]. split_and!.
    + done.
    + simpl. lia.
    + intros [|i] seg; [|done]. intros [= <-]. by exists w, w'.
    + by intros [|i].
    + done.
  - destruct (IH (acc ++ [c :: t])) as (segs & Hres & Hlen & Hnav & Hemp & Hlast).
    exists ((c :: t) :: segs). split_and!.
    + rewrite Hres. by rewrite <- app_assoc.
    + simpl in *. lia.
    + intros [|i] seg.
      * intros [= <-]. by exists w, w'.
      * simpl. intros Hi. by apply Hnav in Hi.
    + intros [|i]; [done|]. simpl. intros Hi. apply Hemp in Hi. lia.
    + simpl. intros Hlt. rewrite last_cons. rewrite Hlast; [done|].
      simpl in *. lia.
Qed.

(** X8: [find_path] of APCSP_pathfinder.py returns one segment for every
    consecutive pair of waypoints, in order, up to and including the first
    pair for which [navigate] finds no path: segment [i] is what [navigate]
    returns from waypoint [i] to waypoint [i + 1], only the last segment
    can be empty, and when fewer segments than pairs are returned the last
    one is empty. *)
Theorem APCSP_find_path_segments (waypoints : list Cell) obstacles N M :
  exists segments,
    APCSP.find_path (F:=F) waypoints obstacles N M = Some segments
    /\ (length segments <= length waypoints - 1)%nat
    /\ (forall (i : nat) seg, segments !! i = Some seg ->
          exists a b, waypoints !! i = Some a /\ waypoints !! S i = Some b
            /\ APCSP.navigate (F:=F) a b obstacles N M = Some seg)
    /\ (forall i : nat, segments !! i = Some [] -> S i = length segments)
    /\ ((length segments < length waypoints - 1)%nat ->
        last segments = Some []).
Proof. apply (APCSP_find_path_loop_spec waypoints obstacles N M []). Qed.

Lemma get_path_to_obstacle_total (waypoint obstacle : Cell) obstacles N M :
  is_Some (Pathfinder.get_path_to_obstacle (F:=F) waypoint obstacle obstacles N M).
Proof.
  unfold Pathfinder.get_path_to_obstacle.
  destruct (Pathfinder_navigate_walk waypoint obstacle obstacles N M)
    as (r & Hr & _).
  rewrite Hr. simpl. by destruct r.
Qed.

Lemma Pathfinder_find_path_loop_flag (i : nat) (ws : list Cell) obstacles N M
    (acc : list Cell) :
  exists route flag,
    Pathfinder.find_path_loop (F:=F) i ws obstacles N M acc = Some (route, flag)
    /\ (flag = true <->
        forall a b, (a, b) ∈ pairs ws ->
          Pathfinder.navigate (F:=F) a b obstacles N M <> Some []).
Proof.
  revert i acc. induction ws as [|w ws IH]; intros i acc.
  { exists acc, true. split; [done|]. split; [|done].
    intros _ a b Hin. by apply elem_of_nil in Hin. }
  destruct ws as [|w' ws].
  { exists acc, true. split; [done|]. split; [|done].
    intros _ a b Hin. by apply elem_of_nil in Hin. }
  cbn [Pathfinder.find_path_loop pairs].
  destruct (Pathfinder_navigate_walk w w' obstacles N M) as (seg & Hseg & _).
  rewrite Hseg. cbn [mbind option_bind].
  destruct seg as [|c t].
  - assert (Hno : forall flag : bool, flag = false ->
              (flag = true <->
               forall a b, (a, b) ∈ (w, w') :: pairs (w' :: ws) ->
                 Pathfinder.navigate (F:=F) a b obstacles N M <> Some [])).
    { intros flag ->. split; [done|]. intros Hall.
      destruct (Hall w w'); [left|done]. }
    destruct (Pathfinder.nearest_obstacle w w' obstacles) as [o|].
    + destruct (get_path_to_obstacle_total w o obstacles N M) as [gp Hgp].
      rewrite Hgp. simpl. eexists _, false. split; [done|]. by apply Hno.
    + eexists _, false. split; [done|]. by apply Hno.
  - assert (Hyes : forall flag : bool,
              (flag = true <->
               forall a b, (a, b) ∈ pairs (w' :: ws) ->
                 Pathfinder.navigate (F:=F) a b obstacles N M <> Some []) ->
              (flag = true <->
               forall a b, (a, b) ∈ (w, w') :: pairs (w' :: ws) ->
                 Pathfinder.navigate (F:=F) a b obstacles N M <> Some [])).
    { intros flag ->. split.
      - intros Hall a b [[= -> ->]|Hin]%elem_of_cons; [by rewrite Hseg|].
        by apply Hall.
      - intros Hall a b Hin. apply Hall. by right. }
    destruct (i =? 0)%nat.
    + destruct (IH (S i) (acc ++ c :: t)) as (route & flag & Hres & Hflag).
      exists route, flag. split; [done|]. by apply Hyes.
    + destruct (IH (S i) (acc ++ t)) as (route & flag & Hres & Hflag).
      exists route, flag. split; [done|]. by apply Hyes.
Qed.


(** The cell [find_path] of pathfinder.py ends the route with when the
    pair [(w, w')] has no path: the obstacle the scan selects, if any. *)
Lemma find_path_loop_blocked (i : nat) (w w' : Cell) (rest : list Cell)
    obstacles N M (acc : list Cell) :
  Pathfinder.navigate (F:=F) w w' obstacles N M = Some [] ->
  Pathfinder.find_path_loop (F:=F) i (w :: w' :: rest) obstacles N M acc
  = Some (acc ++ match Pathfinder.nearest_obstacle w w' obstacles with
                 | Some obstacle_point => [obstacle_point]
                 | None => []
                 end, false).
Proof.
  intros Hnav. cbn [Pathfinder.find_path_loop]. rewrite Hnav. simpl.
  destruct (Pathfinder.nearest_obstacle w w' obstacles) as [o|] eqn:Ho.
  - rewrite get_path_to_obstacle_empty by by eapply nearest_obstacle_elem.
    simpl. by rewrite app_nil_r.
  - by rewrite app_nil_r.
Qed.

Lemma find_path_loop_blocked_later (pre : list Cell) (w w' : Cell)
    (rest : list Cell) obstacles N M (segs : list (list Cell)) (i : nat)
    (acc : list Cell) :
  i <> O ->
  Forall2 (fun ab seg =>
             Pathfinder.navigate (F:=F) ab.1 ab.2 obstacles N M = Some seg
             /\ seg <> []) (pairs (pre ++ [w])) segs ->
  Pathfinder.navigate (F:=F) w w' obstacles N M = Some [] ->
  Pathfinder.find_path_loop (F:=F) i (pre ++ w :: w' :: rest) obstacles N M acc
  = Some ((acc ++ concat (tail <$> segs))
          ++ match Pathfinder.nearest_obstacle w w' obstacles with
             | Some obstacle_point => [obstacle_point]
             | None => []
             end, false).
Proof.
  intros Hi HF Hnav. revert segs i acc Hi HF.
  induction pre as [|a pre IH]; intros segs i acc Hi HF.
  { simpl in HF. apply Forall2_nil_inv_l in HF as ->. simpl.
    rewrite app_nil_r. by apply find_path_loop_blocked. }
  assert (Hsplit : exists b l, pre ++ [w] = b :: l
                    /\ pre ++ w :: w' :: rest = b :: l ++ w' :: rest).
  { destruct pre as [|b pre]; [by exists w, []|].
    exists b, (pre ++ [w]). split; [done|]. simpl. by rewrite <- app_assoc. }
  destruct Hsplit as (b & l & E1 & E2).
  change ((a :: pre) ++ [w]) with (a :: (pre ++ [w])) in HF.
  rewrite E1 in HF.
  change (pairs (a :: b :: l)) with ((a, b) :: pairs (b :: l)) in HF.
  apply Forall2_cons_inv_l in HF as (seg & segs' & [Hseg Hne] & HF & ->).
  simpl in Hseg.
  change ((a :: pre) ++ w :: w' :: rest) with (a :: (pre ++ w :: w' :: rest)).
  rewrite E2. rewrite (find_path_loop_found _ _ _ _ _ _ _ _ _ Hseg Hne).
  rewrite <- E2. rewrite <- E1 in HF.
  destruct i as [|i]; [done|]. change (S i =? 0)%nat with false. cbv iota.
  rewrite (IH segs' (S (S i)) _ ltac:(done) HF).
  rewrite fmap_cons. simpl. by rewrite !app_assoc.
Qed.

(** X10: in pathfinder.py, when the segments are found up to the waypoint
    [w] and no path leads from [w] to the next waypoint, [find_path]
    returns the flag [False] and the route joined so far, followed by the
    obstacle cell that the scan selects and by nothing else, or by nothing
    when there is no obstacle; the later waypoints are not looked at. *)
Theorem find_path_blocked_shape (pre : list Cell) (w w' : Cell)
    (rest : list Cell) obstacles N M (segments : list (list Cell)) :
  Forall2 (fun ab seg =>
             Pathfinder.navigate (F:=F) ab.1 ab.2 obstacles N M = Some seg
             /\ seg <> []) (pairs (pre ++ [w])) segments ->
  Pathfinder.navigate (F:=F) w w' obstacles N M = Some [] ->
  Pathfinder.find_path (F:=F) (pre ++ w :: w' :: rest) obstacles N M
  = Some (joined segments
          ++ match Pathfinder.nearest_obstacle w w' obstacles with
             | Some obstacle_point => [obstacle_point]
             | None => []
             end, false).
Proof.
  intros HF Hnav. unfold Pathfinder.find_path.
  destruct pre as [|a pre].
  { simpl in HF. apply Forall2_nil_inv_l in HF as ->.
    change ([] ++ w :: w' :: rest) with (w :: w' :: rest).
    by rewrite (find_path_loop_blocked _ _ _ _ _ _ _ _ Hnav). }
  assert (Hsplit : exists b l, pre ++ [w] = b :: l
                    /\ pre ++ w :: w' :: rest = b :: l ++ w' :: rest).
  { destruct pre as [|b pre]; [by exists w, []|].
    exists b, (pre ++ [w]). split; [done|]. simpl. by rewrite <- app_assoc. }
  destruct Hsplit as (b & l & E1 & E2).
  change ((a :: pre) ++ [w]) with (a :: (pre ++ [w])) in HF.
  rewrite E1 in HF.
  change (pairs (a :: b :: l)) with ((a, b) :: pairs (b :: l)) in HF.
  apply Forall2_cons_inv_l in HF as (seg & segs' & [Hseg Hne] & HF & ->).
  simpl in Hseg.
  change ((a :: pre) ++ w :: w' :: rest) with (a :: (pre ++ w :: w' :: rest)).
  rewrite E2. rewrite (find_path_loop_found _ _ _ _ _ _ _ _ _ Hseg Hne).
  rewrite <- E2. rewrite <- E1 in HF. change (0 =? 0)%nat with true. cbv iota.
  by rewrite (find_path_loop_blocked_later pre w w' rest obstacles N M segs'
                1%nat _ ltac:(done) HF Hnav).
Qed.


End Chainers.

(** ** Both files: the obstacles as a set, and the waypoints on the route *)

Lemma fold_left_ext {A B} (f g : A -> B -> A) (l : list B) (a : A) :
  (forall a b, f a b = g a b) -> fold_left f l a = fold_left g l a.
Proof.
  intros Hfg. revert a. induction l as [|b l IH]; intros a; simpl; [done|].
  by rewrite Hfg, IH.
Qed.

Section obstacle_set.
Context {F : Type} `{!Score F}.
Variables (obstacles obstacles' : list Cell).
Hypothesis same : forall c : Cell, c ∈ obstacles <-> c ∈ obstacles'.

Lemma mem_set (c : Cell) : mem c obstacles = mem c obstacles'.
Proof. unfold mem. by apply bool_decide_ext. Qed.

Lemma APCSP_neighbors_set (p : @APCSP.Point F) (N M : Z) :
  APCSP.neighbors p obstacles N M = APCSP.neighbors p obstacles' N M.
Proof.
  unfold APCSP.neighbors. apply fold_left_ext. intros acc d. cbv zeta.
  by rewrite mem_set.
Qed.

Lemma Pathfinder_neighbors_set (p : @Pathfinder.Point F) (N M : Z) :
  Pathfinder.neighbors p obstacles N M = Pathfinder.neighbors p obstacles' N M.
Proof.
  unfold Pathfinder.neighbors. apply fold_left_ext. intros acc d. cbv zeta.
  by rewrite !mem_set.
Qed.

Lemma APCSP_navigate_loop_set fuel end_ N M candidates point_dict :
  APCSP.navigate_loop (F:=F) fuel end_ obstacles N M candidates point_dict
  = APCSP.navigate_loop fuel end_ obstacles' N M candidates point_dict.
Proof.
  revert candidates point_dict.
  induction fuel as [|fuel IH]; intros candidates point_dict; [done|].
  cbn [APCSP.navigate_loop].
  assert (APCSP.iteration end_ obstacles N M candidates point_dict
          = APCSP.iteration end_ obstacles' N M candidates point_dict) as ->.
  { unfold APCSP.iteration. destruct candidates; [done|].
    destruct (Heapq.heappop _ _) as [[current rest]|]; [|done].
    by rewrite APCSP_neighbors_set. }
  destruct (APCSP.iteration _ _ _ _ _ _) as [|[]]; [done|apply IH].
Qed.

Lemma Pathfinder_navigate_loop_set fuel p2 N M openpoints visited :
  Pathfinder.navigate_loop (F:=F) fuel p2 obstacles N M openpoints visited
  = Pathfinder.navigate_loop fuel p2 obstacles' N M openpoints visited.
Proof.
  revert openpoints visited.
  induction fuel as [|fuel IH]; intros openpoints visited; [done|].
  cbn [Pathfinder.navigate_loop].
  assert (Pathfinder.iteration p2 obstacles N M openpoints visited
          = Pathfinder.iteration p2 obstacles' N M openpoints visited) as ->.
  { unfold Pathfinder.iteration. destruct openpoints; [done|].
    destruct (Heapq.heappop _ _) as [[current rest]|]; [|done].
    by rewrite Pathfinder_neighbors_set. }
  destruct (Pathfinder.iteration _ _ _ _ _ _) as [|[]]; [done|apply IH].
Qed.
End obstacle_set.

(** X12: [navigate] reads the obstacles only through [in]: two
    collections of obstacles with the same cells, in whatever order and
    however often, give the same result, in both files. *)
Theorem navigate_obstacles_as_set {F : Type} `{!Score F} (v : variant)
    (start end_ : Cell) (obstacles obstacles' : list Cell) (N M : Z) :
  (forall c : Cell, c ∈ obstacles <-> c ∈ obstacles') ->
  navigate_in (F:=F) v start end_ obstacles N M
  = navigate_in (F:=F) v start end_ obstacles' N M.
Proof.
  intros Hsame. destruct v; simpl.
  - by apply APCSP_navigate_loop_set.
  - by apply Pathfinder_navigate_loop_set.
Qed.

Section visits.
Context {F : Type} `{!Score F}.
Implicit Types (obstacles : list Cell) (N M : Z).

(** The segments of the pairs of waypoints, when every pair has a path. *)
Lemma segments_exist (ws : list Cell) obstacles N M :
  (forall a b, (a, b) ∈ pairs ws ->
     Pathfinder.navigate (F:=F) a b obstacles N M <> Some []) ->
  exists segments,
    Forall2 (fun ab seg =>
               Pathfinder.navigate (F:=F) ab.1 ab.2 obstacles N M = Some seg
               /\ seg <> []) (pairs ws) segments.
Proof.
  induction (pairs ws) as [|[a b] l IH]; intros Hall; [by exists []|].
  destruct IH as [segments HF]; [intros ???; apply Hall; by right|].
  destruct (Pathfinder_navigate_walk a b obstacles N M) as (seg & Hseg & _).
  exists (seg :: segments). constructor; [|done]. split; [done|].
  intros ->. by apply (Hall a b); [left|].
Qed.

Lemma find_path_all_found (waypoints : list Cell) obstacles N M
    (segments : list (list Cell)) :
  Forall2 (fun ab seg =>
             Pathfinder.navigate (F:=F) ab.1 ab.2 obstacles N M = Some seg
             /\ seg <> []) (pairs waypoints) segments ->
  Pathfinder.find_path (F:=F) waypoints obstacles N M
  = Some (joined segments, true).
Proof.
  intros HF. unfold Pathfinder.find_path.
  destruct waypoints as [|w [|w' ws]].
  - simpl in HF. by apply Forall2_nil_inv_l in HF as ->.
  - simpl in HF. by apply Forall2_nil_inv_l in HF as ->.
  - change (pairs (w :: w' :: ws)) with ((w, w') :: pairs (w' :: ws)) in HF.
    apply Forall2_cons_inv_l in HF as (seg & segs' & [Hnav Hne] & HF & ->).
    simpl in Hnav. rewrite (find_path_loop_found _ _ _ _ _ _ _ _ _ Hnav Hne).
    change (0 =? 0)%nat with true. cbv iota.
    by rewrite (find_path_loop_later _ _ _ _ _ _ 1%nat _ ltac:(done) HF).
Qed.

Lemma joined_later (ws : list Cell) (w : Cell) obstacles N M
    (segs : list (list Cell)) (route : list Cell) :
  Forall2 (fun ab seg =>
             Pathfinder.navigate (F:=F) ab.1 ab.2 obstacles N M = Some seg
             /\ seg <> []) (pairs (w :: ws)) segs ->
  last route = Some w ->
  last (route ++ concat (tail <$> segs)) = last (w :: ws)
  /\ forall x, x ∈ ws -> x ∈ route ++ concat (tail <$> segs).
Proof.
  revert w segs route. induction ws as [|w' ws IH]; intros w segs route HF Hl.
  { simpl in HF. apply Forall2_nil_inv_l in HF as ->. simpl.
    rewrite app_nil_r. split; [done|]. by intros x ?%elem_of_nil. }
  change (pairs (w :: w' :: ws)) with ((w, w') :: pairs (w' :: ws)) in HF.
  apply Forall2_cons_inv_l in HF as (seg & segs' & [Hnav Hne] & HF & ->).
  simpl in Hnav.
  destruct (Pathfinder_navigate_walk w w' obstacles N M) as (r & Hr & Hspec).
  rewrite Hnav in Hr. injection Hr as <-.
  destruct Hspec as [?|(Hh & Hlast & _)]; [done|].
  destruct seg as [|c t]; [done|]. simpl in Hh. injection Hh as ->.
  rewrite fmap_cons. simpl tail. rewrite concat_cons, app_assoc.
  assert (Hl' : last (route ++ t) = Some w').
  { by apply (last_app_tail route t w w'). }
  destruct (IH w' segs' (route ++ t) HF Hl') as [Hlast' Hin].
  split.
  - rewrite Hlast'. by rewrite last_cons_cons.
  - intros x [->|Hx]%elem_of_cons; [|by apply Hin].
    apply elem_of_app. left.
    rewrite last_lookup in Hl'. by eapply list_elem_of_lookup_2.
Qed.

(** X13: when [find_path] of pathfinder.py returns the flag [True] for two
    waypoints or more, the route starts at the first waypoint, ends at the
    last one, and goes through every waypoint. *)
Theorem find_path_visits_waypoints (waypoints : list Cell) obstacles N M
    (route : list Cell) :
  (2 <= length waypoints)%nat ->
  Pathfinder.find_path (F:=F) waypoints obstacles N M = Some (route, true) ->
  head route = head waypoints /\ last route = last waypoints
  /\ forall w, w ∈ waypoints -> w ∈ route.
Proof.
  intros Hlen Hfp.
  destruct (Pathfinder_find_path_loop_flag 0 waypoints obstacles N M [])
    as (route' & flag & Hres & Hflag).
  unfold Pathfinder.find_path in Hfp. rewrite Hfp in Hres.
  injection Hres as <- <-.
  destruct (segments_exist waypoints obstacles N M) as [segments HF];
    [by apply Hflag|].
  pose proof (find_path_all_found _ _ _ _ _ HF) as Hj.
  unfold Pathfinder.find_path in Hj. rewrite Hfp in Hj. injection Hj as ->.
  destruct waypoints as [|w [|w' ws]]; [simpl in Hlen; lia..|].
  change (pairs (w :: w' :: ws)) with ((w, w') :: pairs (w' :: ws)) in HF.
  apply Forall2_cons_inv_l in HF as (seg & segs' & [Hnav Hne] & HF & ->).
  simpl in Hnav.
  destruct (Pathfinder_navigate_walk w w' obstacles N M) as (r & Hr & Hspec).
  rewrite Hnav in Hr. injection Hr as <-.
  destruct Hspec as [?|(Hh & Hlast & _)]; [done|].
  destruct (joined_later ws w' obstacles N M segs' seg HF Hlast) as [Hl Hin].
  unfold joined. split_and!.
  - destruct seg as [|c t]; [done|]. simpl in *. done.
  - rewrite Hl. by rewrite last_cons_cons.
  - intros x [->|[->|Hx]%elem_of_cons]%elem_of_cons.
    + apply elem_of_app. left. destruct seg as [|c t]; [done|].
      simpl in Hh. injection Hh as ->. left.
    + apply elem_of_app. left. rewrite last_lookup in Hlast.
      by eapply list_elem_of_lookup_2.
    + by apply Hin.
Qed.
End visits.

(** ** Python lists and the grid: indexing, [remove], the nested loops *)

Lemma bind_Ok {A B} (m : result A) (f : A -> result B) (b : B) :
  m ≫= f = Ok b <-> exists a, m = Ok a /\ f a = Ok b.
Proof.
  destruct m as [a|e]; simpl.
  - split; [by exists a|]. by intros (a' & [= <-] & ?).
  - split; [done|]. by intros (a' & ? & ?).
Qed.

Lemma index_in_range {A} (l : list A) (i : Z) :
  0 <= i < Z.of_nat (length l) -> index l i = Ok (Z.to_nat i).
Proof.
  intros Hi. unfold index.
  destruct (i <? 0) eqn:E; [apply Z.ltb_lt in E; lia|].
  destruct (0 <=? i) eqn:E1; [|apply Z.leb_gt in E1; lia].
  destruct (i <? Z.of_nat (length l)) eqn:E2; [done|apply Z.ltb_ge in E2; lia].
Qed.

Lemma getitem_in_range {A} (l : list A) (i : Z) (a : A) :
  0 <= i -> l !! Z.to_nat i = Some a -> getitem l i = Ok a.
Proof.
  intros Hi Ha. unfold getitem. rewrite index_in_range.
  - simpl. by rewrite Ha.
  - apply lookup_lt_Some in Ha. lia.
Qed.

Lemma setitem_in_range {A} (l : list A) (i : Z) (v : A) :
  0 <= i < Z.of_nat (length l) -> setitem l i v = Ok (<[Z.to_nat i := v]> l).
Proof. intros Hi. unfold setitem. by rewrite index_in_range. Qed.

(** What [getitem] raises is [IndexError]. *)
Lemma getitem_Raise {A} (l : list A) (i : Z) (e : exn) :
  getitem l i = Raise e -> e = IndexError.
Proof.
  unfold getitem, index.
  destruct (_ && _); simpl; [|by intros [= <-]].
  destruct (l !! _); [done|by intros [= <-]].
Qed.

Lemma getitem_Ok_range {A} (l : list A) (i : Z) (a : A) :
  0 <= i -> getitem l i = Ok a -> l !! Z.to_nat i = Some a.
Proof.
  intros Hi. unfold getitem, index.
  destruct (i <? 0) eqn:E; [apply Z.ltb_lt in E; lia|].
  destruct (_ && _); simpl; [|done]. by destruct (l !! _); intros [= <-].
Qed.

Section grid.
Variables (N M : Z).
Implicit Types (grid : Grid) (r c v : Z).

Lemma rectangular_row grid r :
  rectangular N M grid -> 0 <= r < N ->
  exists row, grid !! Z.to_nat r = Some row /\ length row = Z.to_nat M.
Proof.
  intros [Hlen Hrows] Hr.
  destruct (lookup_lt_is_Some_2 grid (Z.to_nat r)) as [row Hrow]; [lia|].
  exists row. split; [done|].
  rewrite Forall_forall in Hrows. apply Hrows. by eapply list_elem_of_lookup_2.
Qed.

Lemma getcell_in_grid grid r c :
  rectangular N M grid -> in_grid N M (r, c) ->
  getcell grid r c = Ok ((grid !!! Z.to_nat r) !!! Z.to_nat c).
Proof.
  intros Hrect [Hr Hc]. simpl in *.
  destruct (rectangular_row grid r Hrect Hr) as (row & Hrow & Hlen).
  unfold getcell. rewrite (getitem_in_range _ _ _ (proj1 Hr) Hrow). simpl.
  rewrite (list_lookup_total_correct _ _ _ Hrow).
  destruct (lookup_lt_is_Some_2 row (Z.to_nat c)) as [v Hv]; [lia|].
  rewrite (getitem_in_range _ _ _ (proj1 Hc) Hv).
  by rewrite (list_lookup_total_correct _ _ _ Hv).
Qed.

Lemma setcell_in_grid grid r c v :
  rectangular N M grid -> in_grid N M (r, c) ->
  setcell grid r c v
  = Ok (<[Z.to_nat r := <[Z.to_nat c := v]> (grid !!! Z.to_nat r)]> grid).
Proof.
  intros Hrect [Hr Hc]. simpl in *.
  destruct (rectangular_row grid r Hrect Hr) as (row & Hrow & Hlen).
  unfold setcell. rewrite (getitem_in_range _ _ _ (proj1 Hr) Hrow). simpl.
  rewrite (list_lookup_total_correct _ _ _ Hrow).
  rewrite setitem_in_range by lia. simpl.
  rewrite setitem_in_range; [done|]. destruct Hrect as [-> _]. lia.
Qed.

Lemma rectangular_insert grid (i j : nat) v :
  rectangular N M grid ->
  rectangular N M (<[i := <[j := v]> (grid !!! i)]> grid).
Proof.
  intros [Hlen Hrows]. split; [by rewrite length_insert|].
  destruct (decide (i < length grid)%nat) as [Hi|Hi].
  - apply Forall_insert; [done|]. rewrite length_insert.
    rewrite Forall_forall in Hrows. apply Hrows.
    apply list_elem_of_lookup_total_2. done.
  - rewrite list_insert_ge by lia. done.
Qed.

(** A write to a cell of the grid: the grid keeps its shape, the cell
    has the value written, the other cells keep theirs. *)
Lemma setcell_spec grid r c v :
  rectangular N M grid -> in_grid N M (r, c) ->
  exists grid', setcell grid r c v = Ok grid'
    /\ rectangular N M grid'
    /\ getcell grid' r c = Ok v
    /\ forall r' c', in_grid N M (r', c') -> (r', c') <> (r, c) ->
         getcell grid' r' c' = getcell grid r' c'.
Proof.
  intros Hrect Hin. eexists. split; [by apply setcell_in_grid|].
  pose proof (rectangular_insert grid (Z.to_nat r) (Z.to_nat c) v Hrect) as Hrect'.
  split; [done|].
  destruct Hin as [Hr Hc]. simpl in *.
  destruct (rectangular_row grid r Hrect Hr) as (row & Hrow & Hlen).
  destruct Hrect as [HlenN Hrows].
  split.
  - rewrite getcell_in_grid by done.
    rewrite list_lookup_total_insert_eq by lia.
    rewrite list_lookup_total_insert_eq; [done|].
    rewrite (list_lookup_total_correct _ _ _ Hrow). lia.
  - intros r' c' [Hr' Hc'] Hne. simpl in *.
    rewrite !getcell_in_grid by done.
    destruct (decide (Z.to_nat r' = Z.to_nat r)) as [Heq|Hner].
    + rewrite Heq. rewrite list_lookup_total_insert_eq by lia.
      rewrite list_lookup_total_insert_ne; [done|].
      intros Hc2. apply Hne. f_equal; lia.
    + rewrite list_lookup_total_insert_ne; [done|]. done.
Qed.
End grid.

Lemma getcell_Raise (grid : Grid) (r c : Z) (e : exn) :
  getcell grid r c = Raise e -> e = IndexError.
Proof.
  unfold getcell. destruct (getitem grid r) as [row|e'] eqn:E; simpl.
  - apply getitem_Raise.
  - intros [= <-]. by eapply getitem_Raise.
Qed.

(** ** APCSP_pathfinder.py: [grid_to_obstacles] *)

Section grid_to_obstacles.
Variable grid : Grid.

(** A loop that appends [(r, c)] for the columns [c] whose cell holds 2. *)
Lemma grid_to_obstacles_row (f : list Cell -> Z -> result (list Cell))
    (r : Z) (cs : list Z) (acc : list Cell) :
  (forall obstacles c,
     f obstacles c
     = v ← getcell grid r c;
       if v =? 2 then Ok (obstacles ++ [(r, c)]) else Ok obstacles) ->
  match foldM f cs acc with
  | Ok acc' =>
      acc' = acc ++ ((fun c => (r, c)) <$>
                       filter (fun c => getcell grid r c = Ok 2) cs)
  | Raise e => e = IndexError
               /\ exists c, c ∈ cs /\ getcell grid r c = Raise IndexError
  end.
Proof.
  intros Hf. revert acc. induction cs as [|c cs IH]; intros acc; simpl.
  { by rewrite app_nil_r. }
  rewrite Hf. destruct (getcell grid r c) as [v|e] eqn:Hv; simpl.
  - rewrite filter_cons. destruct (v =? 2) eqn:E.
    + apply Z.eqb_eq in E as ->. rewrite decide_True by done. simpl.
      specialize (IH (acc ++ [(r, c)])). destruct (foldM f cs _) as [acc'|e].
      * rewrite IH. simpl. by rewrite <- app_assoc.
      * destruct IH as [-> (c' & ? & ?)]. split; [done|]. exists c'.
        split; [by right|done].
    + apply Z.eqb_neq in E. rewrite decide_False by congruence. simpl.
      specialize (IH acc). destruct (foldM f cs _) as [acc'|e]; [done|].
      destruct IH as [-> (c' & ? & ?)]. split; [done|]. exists c'.
      split; [by right|done].
  - apply getcell_Raise in Hv as Heq. subst e. split; [done|]. exists c.
    split; [left|done].
Qed.

Lemma filter_row (r : Z) (cs : list Z) :
  filter (fun c : Cell => getcell grid c.1 c.2 = Ok 2)
    (map (fun c => (r, c)) cs)
  = (fun c => (r, c)) <$> filter (fun c => getcell grid r c = Ok 2) cs.
Proof.
  induction cs as [|c cs IH]; [done|].
  simpl. rewrite !filter_cons. simpl.
  destruct (decide (getcell grid r c = Ok 2)); simpl; by rewrite IH.
Qed.

Lemma grid_to_obstacles_rows (g : list Cell -> Z -> result (list Cell))
    (M : Z) (rs : list Z) (acc : list Cell) :
  (forall obstacles r,
     g obstacles r
     = foldM (fun obstacles c =>
                v ← getcell grid r c;
                if v =? 2 then Ok (obstacles ++ [(r, c)]) else Ok obstacles)
             (seqZ 0 M) obstacles) ->
  match foldM g rs acc with
  | Ok acc' =>
      acc' = acc ++ filter (fun c : Cell => getcell grid c.1 c.2 = Ok 2)
                      (list_prod rs (seqZ 0 M))
  | Raise e => e = IndexError
               /\ exists r c, r ∈ rs /\ c ∈ seqZ 0 M
                    /\ getcell grid r c = Raise IndexError
  end.
Proof.
  intros Hg. revert acc. induction rs as [|r rs IH]; intros acc; simpl.
  { by rewrite app_nil_r. }
  rewrite Hg.
  pose proof (grid_to_obstacles_row _ r (seqZ 0 M) acc (fun _ _ => eq_refl))
    as Hrow.
  destruct (foldM _ (seqZ 0 M) acc) as [acc1|e]; simpl.
  - specialize (IH acc1). destruct (foldM g rs acc1) as [acc'|e].
    + rewrite IH, Hrow, filter_app, <- app_assoc. do 2 f_equal.
      symmetry. apply filter_row.
    + destruct IH as [-> (r' & c' & ? & ? & ?)]. split; [done|].
      exists r', c'. split_and!; [by right|done..].
  - destruct Hrow as [-> (c & ? & ?)]. split; [done|]. exists r, c.
    split_and!; [left|done..].
Qed.
End grid_to_obstacles.

Lemma elem_of_cells (N M : Z) (c : Cell) :
  c ∈ list_prod (seqZ 0 N) (seqZ 0 M) <-> in_grid N M c.
Proof.
  unfold in_grid.
  rewrite <- list_cprod_list_prod, list_elem_of_cprod, !elem_of_seqZ. lia.
Qed.

Lemma NoDup_list_prod {A B} (l : list A) (k : list B) :
  NoDup l -> NoDup k -> NoDup (list_prod l k).
Proof.
  intros Hl Hk. induction Hl as [|a l Ha Hl IH]; simpl; [constructor|].
  apply NoDup_app. split_and!.
  - assert (Inj (=) (=) (@pair A B a)) by (by intros ?? [= ->]).
    by apply (NoDup_fmap_2 (pair a)).
  - intros [a' b] [b' [[= <- <-] _]]%(list_elem_of_fmap_1 (pair a)) Hin.
    apply Ha. apply list_elem_of_In, in_prod_iff in Hin as [Hin _].
    by apply list_elem_of_In.
  - done.
Qed.

Lemma NoDup_cells (N M : Z) : NoDup (list_prod (seqZ 0 N) (seqZ 0 M)).
Proof. apply NoDup_list_prod; apply NoDup_seqZ. Qed.

(** What [grid_to_obstacles] returns, and when it raises. *)
Lemma grid_to_obstacles_cells (grid : Grid) (N M : Z) :
  match APCSP_gui.grid_to_obstacles grid N M with
  | Ok obstacles =>
      NoDup obstacles
      /\ forall r c, (r, c) ∈ obstacles <->
           in_grid N M (r, c) /\ getcell grid r c = Ok 2
  | Raise e =>
      e = IndexError
      /\ exists r c, in_grid N M (r, c) /\ getcell grid r c = Raise IndexError
  end.
Proof.
  unfold APCSP_gui.grid_to_obstacles.
  pose proof (grid_to_obstacles_rows grid _ M (seqZ 0 N) [] (fun _ _ => eq_refl))
    as H.
  destruct (foldM _ _ _) as [obstacles|e].
  - simpl in H. subst obstacles. split.
    + apply NoDup_filter, NoDup_cells.
    + intros r c. rewrite list_elem_of_filter, elem_of_cells. simpl. tauto.
  - destruct H as [-> (r & c & Hr & Hc & Hraise)]. split; [done|].
    exists r, c. split; [|done]. apply elem_of_seqZ in Hr, Hc.
    unfold in_grid. simpl. lia.
Qed.


Lemma remove_Ok {A} `{!EqDecision A} (x : A) (l l' : list A) :
  remove x l = Ok l' -> l ≡ₚ x :: l'.
Proof.
  revert l'. induction l as [|y l IH]; intros l'; simpl; [done|].
  destruct (decide (y = x)) as [->|Hne]; [by intros [= ->]|].
  destruct (remove x l) as [l1|e]; simpl; [|done].
  intros [= <-]. rewrite (IH l1 eq_refl). apply Permutation_swap.
Qed.

Lemma remove_elem {A} `{!EqDecision A} (x : A) (l : list A) :
  x ∈ l -> exists l', remove x l = Ok l'.
Proof.
  induction l as [|y l IH]; [by intros ?%elem_of_nil|].
  simpl. destruct (decide (y = x)) as [->|Hne]; [by eexists|].
  intros [?|Hin]%elem_of_cons; [done|].
  destruct (IH Hin) as [l' ->]. by eexists.
Qed.

Lemma remove_Raise {A} `{!EqDecision A} (x : A) (l : list A) (e : exn) :
  remove x l = Raise e -> e = ValueError /\ x ∉ l.
Proof.
  induction l as [|y l IH]; simpl.
  { intros [= <-]. split; [done|]. by intros ?%elem_of_nil. }
  destruct (decide (y = x)) as [->|Hne]; [done|].
  destruct (remove x l) as [l1|e']; simpl; [done|].
  intros [= <-]. destruct (IH eq_refl) as [-> Hnot]. split; [done|].
  by intros [?|?]%elem_of_cons.
Qed.

(** ** APCSP_pathfinder.py: [update_grid] *)

Section update_grid.
Variables (N M : Z).
Implicit Types (grid : Grid) (waypoints : list Cell).

(** Writing [v] to the cells of a list of cells of the grid. *)
Lemma foldM_setcell (f : Grid -> Cell -> result Grid) (v : Z)
    (cells : list Cell) grid :
  (forall grid x y, f grid (x, y) = setcell grid x y v) ->
  rectangular N M grid -> Forall (in_grid N M) cells ->
  exists grid', foldM f cells grid = Ok grid'
    /\ rectangular N M grid'
    /\ forall r c, in_grid N M (r, c) ->
         getcell grid' r c
         = if decide ((r, c) ∈ cells) then Ok v else getcell grid r c.
Proof.
  intros Hf. revert grid. induction cells as [|[x y] cells IH];
    intros grid Hrect Hall.
  { exists grid. split_and!; [done..|]. intros r c _.
    rewrite decide_False; [done|]. by intros ?%elem_of_nil. }
  apply Forall_cons in Hall as [Hxy Hall]. simpl. rewrite Hf.
  destruct (setcell_spec N M grid x y v Hrect Hxy)
    as (grid1 & -> & Hrect1 & Hset & Hother). simpl.
  destruct (IH grid1 Hrect1 Hall) as (grid' & -> & Hrect' & Hget).
  exists grid'. split_and!; [done..|]. intros r c Hrc. rewrite (Hget r c Hrc).
  destruct (decide ((r, c) ∈ cells)) as [Hin|Hnin].
  - rewrite decide_True; [done|by right].
  - destruct (decide ((r, c) = (x, y))) as [[= -> ->]|Hne].
    + rewrite decide_True by left. done.
    + rewrite decide_False by (by intros [?|?]%elem_of_cons).
      by apply Hother.
Qed.

(** A write of a value from 0 to 4 to a cell of the grid keeps the state
    consistent, when the waypoints that go with it hold the cell if the
    value is 1, and the other cells of value 1. *)
Lemma setcell_consistent grid waypoints waypoints' (r c v : Z) :
  rectangular N M grid ->
  (forall r c v, in_grid N M (r, c) -> getcell grid r c = Ok v -> 0 <= v <= 4) ->
  in_grid N M (r, c) -> 0 <= v <= 4 ->
  Forall (in_grid N M) waypoints' ->
  (v = 1 -> (r, c) ∈ waypoints') ->
  (forall r' c', in_grid N M (r', c') -> (r', c') <> (r, c) ->
     getcell grid r' c' = Ok 1 -> (r', c') ∈ waypoints') ->
  exists grid', setcell grid r c v = Ok grid'
    /\ consistent N M grid' waypoints'.
Proof.
  intros Hrect Hval Hrc Hv Hall Hone Hothers.
  destruct (setcell_spec N M grid r c v Hrect Hrc)
    as (grid' & -> & Hrect' & Hset & Hother).
  exists grid'. split; [done|]. split; [done| |done|].
  - intros r' c' v' Hin. destruct (decide ((r', c') = (r, c))) as [[= -> ->]|Hne].
    + rewrite Hset. by intros [= <-].
    + rewrite Hother by done. by apply Hval.
  - intros r' c' Hin. destruct (decide ((r', c') = (r, c))) as [[= -> ->]|Hne].
    + rewrite Hset. intros [= ->]. by apply Hone.
    + rewrite Hother by done. by apply Hothers.
Qed.

(** [update_grid] keeps the state consistent. *)
Lemma update_grid_keeps_consistent grid waypoints (row column : Z)
    (last_key : string) :
  consistent N M grid waypoints -> in_grid N M (row, column) ->
  exists grid' waypoints',
    APCSP_gui.update_grid grid waypoints row column last_key
      = Ok (grid', waypoints')
    /\ consistent N M grid' waypoints'.
Proof.
  intros [Hrect Hval Hall Hone] Hrc. unfold APCSP_gui.update_grid.
  assert (Hread : exists v, getcell grid row column = Ok v)
    by (rewrite (getcell_in_grid N M) by done; eauto).
  destruct Hread as [v0 Hv0].
  (* removing the cell from the waypoints when it holds 1 *)
  assert (Hrem : v0 = 1 -> exists waypoints',
            remove (row, column) waypoints = Ok waypoints'
            /\ Forall (in_grid N M) waypoints'
            /\ forall r' c', (r', c') <> (row, column) ->
                 (r', c') ∈ waypoints -> (r', c') ∈ waypoints').
  { intros ->. destruct (remove_elem (row, column) waypoints) as [w' Hw'];
      [by apply Hone|].
    exists w'. split; [done|]. apply remove_Ok in Hw' as Hperm. split.
    - rewrite Hperm in Hall. by apply Forall_cons in Hall as [_ ?].
    - intros r' c' Hne. rewrite Hperm. by intros [?|?]%elem_of_cons. }
  destruct (String.eqb last_key "a").
  { destruct (setcell_consistent grid waypoints (waypoints ++ [(row, column)])
                row column 1) as (grid' & -> & Hcon); try done.
    - apply Forall_app. split; [done|]. by apply Forall_singleton.
    - intros _. apply elem_of_app. right. left.
    - intros r' c' Hin _ H1. apply elem_of_app. left. by apply Hone.
    - simpl. eauto. }
  destruct (String.eqb last_key "d").
  { rewrite Hv0. simpl. destruct (v0 =? 1) eqn:E1.
    - apply Z.eqb_eq in E1. destruct (Hrem E1) as (w' & -> & Hall' & Hkeep).
      simpl.
      destruct (setcell_consistent grid waypoints w' row column 0)
        as (grid' & -> & Hcon); try done.
      + intros r' c' Hin Hne H1. apply Hkeep; [done|]. by apply Hone.
      + simpl. eauto.
    - simpl. destruct (v0 =? 2) eqn:E2.
      + destruct (foldM_setcell (fun grid '(x, y) => setcell grid x y 1) 1
                    waypoints grid) as (grid1 & -> & Hrect1 & Hget1);
          [done..|]. simpl.
        destruct (setcell_consistent grid1 waypoints waypoints row column 0)
          as (grid' & -> & Hcon); try done.
        * intros r' c' v' Hin. rewrite Hget1 by done.
          destruct (decide _); [by intros [= <-]|by apply Hval].
        * intros r' c' Hin _. rewrite Hget1 by done.
          destruct (decide _); [done|by apply Hone].
        * simpl. eauto.
      + simpl.
        destruct (setcell_consistent grid waypoints waypoints row column 0)
          as (grid' & -> & Hcon); try done.
        * intros r' c' Hin _. by apply Hone.
        * simpl. eauto. }
  destruct (String.eqb last_key "s").
  { rewrite Hv0. simpl. destruct (v0 =? 1) eqn:E1.
    - apply Z.eqb_eq in E1. destruct (Hrem E1) as (w' & -> & Hall' & Hkeep).
      simpl.
      destruct (setcell_consistent grid waypoints w' row column 2)
        as (grid' & -> & Hcon); try done.
      + intros r' c' Hin Hne H1. apply Hkeep; [done|]. by apply Hone.
      + simpl. eauto.
    - simpl.
      destruct (setcell_consistent grid waypoints waypoints row column 2)
        as (grid' & -> & Hcon); try done.
      + intros r' c' Hin _. by apply Hone.
      + simpl. eauto. }
  by exists grid, waypoints.
Qed.

(** X15: on a consistent state (a grid of [N] rows of [M] cells with
    values from 0 to 4, waypoints that are cells of the grid, every cell of
    value 1 among the waypoints) and for a cell of the grid, [update_grid]
    raises no exception, whatever the key, and leaves a consistent state;
    in particular its [waypoints.remove] always finds the cell. *)
Theorem update_grid_consistent grid waypoints (row column : Z)
    (last_key : string) :
  consistent N M grid waypoints -> in_grid N M (row, column) ->
  exists grid' waypoints',
    APCSP_gui.update_grid grid waypoints row column last_key
      = Ok (grid', waypoints')
    /\ consistent N M grid' waypoints'.
Proof. apply update_grid_keeps_consistent. Qed.
End update_grid.

Lemma getitem_nat {A} (l : list A) (i : nat) (a : A) :
  l !! i = Some a -> getitem l (Z.of_nat i) = Ok a.
Proof. intros Ha. apply getitem_in_range; [lia|by rewrite Nat2Z.id]. Qed.

Lemma getitem_nat_S {A} (l : list A) (i : nat) (a : A) :
  l !! S i = Some a -> getitem l (Z.of_nat i + 1) = Ok a.
Proof.
  intros Ha. apply getitem_in_range; [lia|].
  by replace (Z.to_nat (Z.of_nat i + 1)) with (S i) by lia.
Qed.

(** ** APCSP_pathfinder.py: [update_path_on_grid] *)

Section update_path_on_grid.
Variables (N M : Z).
Implicit Types (grid : Grid) (waypoints : list Cell)
  (path_list : list (list Cell)).

(** The loop [for p in path]: the cells of the path that are not waypoints
    get the value 3. *)
Lemma mark_path (f : Grid -> Cell -> result Grid) waypoints
    (path : list Cell) grid :
  (forall grid p,
     f grid p = if mem p waypoints then Ok grid
                else let '(x, y) := p in setcell grid x y 3) ->
  rectangular N M grid ->
  (forall p, p ∈ path -> p ∈ waypoints \/ in_grid N M p) ->
  exists grid', foldM f path grid = Ok grid'
    /\ rectangular N M grid'
    /\ forall r c, in_grid N M (r, c) ->
         getcell grid' r c
         = if decide ((r, c) ∈ path /\ (r, c) ∉ waypoints) then Ok 3
           else getcell grid r c.
Proof.
  intros Hf. revert grid. induction path as [|[x y] path IH];
    intros grid Hrect Hcells.
  { exists grid. split_and!; [done..|]. intros r c _.
    rewrite decide_False; [done|]. by intros [?%elem_of_nil _]. }
  simpl. rewrite Hf. unfold mem.
  assert (Hcells' : forall p, p ∈ path -> p ∈ waypoints \/ in_grid N M p).
  { intros p Hp. apply Hcells. by right. }
  destruct (decide ((x, y) ∈ waypoints)) as [Hin|Hnin].
  - rewrite bool_decide_eq_true_2 by done. simpl.
    destruct (IH grid Hrect Hcells') as (grid' & -> & Hrect' & Hget).
    exists grid'. split_and!; [done..|]. intros r c Hrc. rewrite Hget by done.
    destruct (decide ((r, c) ∈ path /\ (r, c) ∉ waypoints)) as [[? ?]|Hno].
    + rewrite decide_True; [done|]. split; [by right|done].
    + rewrite decide_False; [done|]. intros [[Heq|?]%elem_of_cons ?]; [|tauto].
      congruence.
  - rewrite bool_decide_eq_false_2 by done.
    assert (Hxy : in_grid N M (x, y)).
    { destruct (Hcells (x, y)); [left|done|done]. }
    destruct (setcell_spec N M grid x y 3 Hrect Hxy)
      as (grid1 & -> & Hrect1 & Hset & Hother). simpl.
    destruct (IH grid1 Hrect1 Hcells') as (grid' & -> & Hrect' & Hget).
    exists grid'. split_and!; [done..|]. intros r c Hrc. rewrite Hget by done.
    destruct (decide ((r, c) ∈ path /\ (r, c) ∉ waypoints)) as [[? ?]|Hno].
    + rewrite decide_True; [done|]. split; [by right|done].
    + destruct (decide ((r, c) = (x, y))) as [[= -> ->]|Hne].
      * rewrite decide_True; [done|]. split; [left|done].
      * rewrite decide_False.
        -- by apply Hother.
        -- intros [[?|?]%elem_of_cons ?]; tauto.
Qed.

Lemma update_path_loop_spec path_list waypoints (n s : nat) grid :
  segments_shape path_list waypoints ->
  (forall path p, path ∈ path_list -> p ∈ path ->
     p ∈ waypoints \/ in_grid N M p) ->
  Forall (in_grid N M) waypoints ->
  rectangular N M grid ->
  (s + n = length waypoints - 1)%nat ->
  (forall j : nat, (j < s)%nat -> path_list !! j <> Some []) ->
  exists grid',
    APCSP_gui.update_path_loop (seq s n) grid path_list waypoints = Ok grid'
    /\ rectangular N M grid'
    /\ forall r c, in_grid N M (r, c) ->
         getcell grid' r c
         = if decide (last path_list = Some []
                      /\ waypoints !! length path_list = Some (r, c))
           then Ok 4
           else if decide (((r, c) ∉ waypoints)
                           /\ (r, c) ∈ concat (drop s path_list))
           then Ok 3
           else getcell grid r c.
Proof.
  intros (Hempty & Hlen & Hshort) Hcells Hwps.
  revert s grid. induction n as [|n IH]; intros s grid Hrect Hsn Hdone.
  { exists grid. split_and!; [done..|]. intros r c Hrc.
    rewrite decide_False.
    2:{ intros [Hlast _]. rewrite last_lookup in Hlast.
        apply lookup_lt_Some in Hlast as Hlt.
        apply (Hdone (pred (length path_list))); [lia|done]. }
    rewrite decide_False; [done|].
    rewrite drop_ge by lia. by intros [_ ?%elem_of_nil]. }
  assert (Hs : (s < length waypoints - 1)%nat) by lia.
  assert (Hpath : exists path, path_list !! s = Some path).
  { destruct (decide (s < length path_list)%nat) as [Hlt|Hge].
    - by apply lookup_lt_is_Some_2.
    - assert (Hlast : last path_list = Some []) by (apply Hshort; lia).
      rewrite last_lookup in Hlast. apply lookup_lt_Some in Hlast as Hlt.
      destruct (Hdone (pred (length path_list))); [lia|done]. }
  destruct Hpath as [path Hpath].
  cbn [seq APCSP_gui.update_path_loop].
  rewrite (getitem_nat path_list s path) by done.
  cbn [mbind result_bind].
  destruct path as [|p0 path'] eqn:Epath.
  - (* no path for this pair: the destination gets 4 *)
    cbn [length Nat.eqb].
    pose proof (Hempty _ Hpath) as Hlast.
    destruct (lookup_lt_is_Some_2 waypoints (S s)) as [[x y] Hdest]; [lia|].
    rewrite (getitem_nat_S waypoints s (x, y)) by done.
    cbn [mbind result_bind].
    assert (Hxy : in_grid N M (x, y)).
    { rewrite Forall_forall in Hwps. apply Hwps.
      by eapply list_elem_of_lookup_2. }
    destruct (setcell_spec N M grid x y 4 Hrect Hxy)
      as (grid' & -> & Hrect' & Hset & Hother).
    exists grid'. split_and!; [done..|]. intros r c Hrc.
    assert (Hl : last path_list = Some []).
    { rewrite last_lookup. rewrite <- Hlast. simpl. done. }
    rewrite <- Hlast, Hdest.
    destruct (decide ((r, c) = (x, y))) as [[= -> ->]|Hne].
    + by rewrite decide_True.
    + rewrite decide_False by (intros [_ [= -> ->]]; done).
      rewrite decide_False; [by apply Hother|].
      rewrite (drop_S _ _ _ Hpath). rewrite drop_ge by lia.
      by intros [_ ?%elem_of_nil].
  - cbn [length Nat.eqb]. rewrite <- Epath in *.
    destruct (mark_path _ waypoints path grid (fun _ _ => eq_refl) Hrect)
      as (grid1 & -> & Hrect1 & Hget1).
    { intros p Hp. eapply Hcells; [|done]. by eapply list_elem_of_lookup_2. }
    cbn [mbind result_bind].
    destruct (IH (S s) grid1 Hrect1) as (grid' & -> & Hrect' & Hget); [lia| |].
    { intros j Hj. destruct (decide (j = s)) as [->|Hne].
      - rewrite Hpath, Epath. done.
      - apply Hdone. lia. }
    exists grid'. split_and!; [done..|]. intros r c Hrc.
    rewrite Hget by done. destruct (decide (last path_list = Some [] /\ _));
      [done|].
    rewrite (drop_S _ _ _ Hpath). rewrite concat_cons.
    destruct (decide (((r, c) ∉ waypoints)
                      /\ (r, c) ∈ concat (drop (S s) path_list)))
      as [[? ?]|Hno].
    + rewrite decide_True; [done|]. split; [done|]. apply elem_of_app. by right.
    + rewrite Hget1 by done.
      destruct (decide ((r, c) ∈ path /\ (r, c) ∉ waypoints)) as [[? ?]|Hno'].
      * rewrite decide_True; [done|]. split; [done|]. apply elem_of_app. by left.
      * rewrite decide_False; [done|].
        intros [? [?|?]%elem_of_app]; tauto.
Qed.
End update_path_on_grid.

Lemma elem_of_concat {A} (x : A) (ls : list (list A)) :
  x ∈ concat ls <-> exists l, x ∈ l /\ l ∈ ls.
Proof.
  induction ls as [|l ls IH]; simpl.
  - split; [by intros ?%elem_of_nil|]. by intros (l & _ & ?%elem_of_nil).
  - rewrite elem_of_app, IH. split.
    + intros [?|(l' & ? & ?)]; [exists l; split; [done|left]|].
      exists l'. split; [done|by right].
    + intros (l' & ? & [->|?]%elem_of_cons); [by left|right; eauto].
Qed.

Section show_route.
Context {F : Type} `{!Score F}.
Variables (N M : Z).
Implicit Types (grid : Grid) (waypoints obstacles : list Cell).

(** The cells of a segment: its start cell, and cells that [neighbors]
    accepts. *)
Lemma APCSP_segment_cells (a b : Cell) obstacles (seg : list Cell) (p : Cell) :
  APCSP.navigate (F:=F) a b obstacles N M = Some seg -> p ∈ seg ->
  p = a \/ APCSP_parts.ok obstacles N M p.
Proof.
  intros Hnav Hp.
  destruct (APCSP_navigate_walk a b obstacles N M) as (r & Hr & Hspec).
  rewrite Hnav in Hr. injection Hr as <-.
  destruct Hspec as [->|(Hh & _ & Hw & _)]; [by apply elem_of_nil in Hp|].
  destruct seg as [|c t]; [done|]. simpl in Hh. injection Hh as ->.
  apply elem_of_cons in Hp as [->|Hp]; [by left|right].
  pose proof (is_walk_tail_Forall (APCSP_parts.edge obstacles N M)
                (APCSP_parts.ok obstacles N M) (a :: t)) as Hall.
  simpl in Hall. rewrite Forall_forall in Hall. apply Hall; [|done|done].
  by intros ?? [_ ?].
Qed.

Lemma APCSP_ok_in_grid obstacles (p : Cell) :
  APCSP_parts.ok obstacles N M p -> in_grid N M p.
Proof. intros (_ & ? & ?). unfold in_grid. lia. Qed.

(** What [find_path] returns has the shape [update_path_on_grid] relies
    on, and its cells are waypoints or cells of the grid. *)
Lemma find_path_segments_shape waypoints obstacles path :
  APCSP.find_path (F:=F) waypoints obstacles N M = Some path ->
  segments_shape path waypoints
  /\ forall seg p, seg ∈ path -> p ∈ seg ->
       p ∈ waypoints \/ (in_grid N M p /\ p ∉ obstacles).
Proof.
  intros Hfp.
  destruct (APCSP_find_path_loop_spec waypoints obstacles N M [])
    as (segs & Hsegs & Hlen & Hnav & Hemp & Hlast).
  unfold APCSP.find_path in Hfp. rewrite Hfp in Hsegs.
  injection Hsegs as ->. split; [done|].
  intros seg p [i Hi]%list_elem_of_lookup_1 Hp.
  destruct (Hnav _ _ Hi) as (a & b & Ha & _ & Hab).
  destruct (APCSP_segment_cells a b obstacles seg p Hab Hp) as [->|Hok].
  - left. by eapply list_elem_of_lookup_2.
  - right. split; [by eapply APCSP_ok_in_grid|]. by destruct Hok.
Qed.

(** The grid after [update_path_on_grid] on what [find_path] returns. *)
Lemma show_route_cells grid waypoints obstacles path :
  rectangular N M grid -> Forall (in_grid N M) waypoints ->
  APCSP.find_path (F:=F) waypoints obstacles N M = Some path ->
  exists grid',
    APCSP_gui.update_path_on_grid grid path waypoints = Ok grid'
    /\ rectangular N M grid'
    /\ forall r c, in_grid N M (r, c) ->
         getcell grid' r c
         = if decide (last path = Some []
                      /\ waypoints !! length path = Some (r, c))
           then Ok 4
           else if decide (((r, c) ∉ waypoints) /\ (r, c) ∈ concat path)
           then Ok 3
           else getcell grid r c.
Proof.
  intros Hrect Hwps Hfp.
  destruct (find_path_segments_shape _ _ _ Hfp) as [Hshape Hcells].
  destruct (update_path_loop_spec N M path waypoints (length waypoints - 1) 0 grid)
    as (grid' & Hres & Hrect' & Hget); try done.
  - intros seg p Hseg Hp. destruct (Hcells seg p Hseg Hp) as [?|[? _]]; auto.
  - intros j Hj. lia.
  - exists grid'. split_and!; [done..|]. intros r c Hrc.
    rewrite (Hget r c Hrc). by rewrite drop_0.
Qed.

(** X17: showing the route that [find_path] returns, on a grid of [N]
    rows of [M] cells and for waypoints of the grid: [update_path_on_grid]
    raises no exception; the destination of the pair of waypoints without
    a path gets the value 4, the cells of the segments that are not
    waypoints get 3, and every other cell keeps its value. *)
Theorem update_path_on_grid_find_path grid waypoints obstacles path :
  rectangular N M grid -> Forall (in_grid N M) waypoints ->
  APCSP.find_path (F:=F) waypoints obstacles N M = Some path ->
  exists grid',
    APCSP_gui.update_path_on_grid grid path waypoints = Ok grid'
    /\ rectangular N M grid'
    /\ forall r c, in_grid N M (r, c) ->
         getcell grid' r c
         = if decide (last path = Some []
                      /\ waypoints !! length path = Some (r, c))
           then Ok 4
           else if decide (((r, c) ∉ waypoints) /\ (r, c) ∈ concat path)
           then Ok 3
           else getcell grid r c.
Proof. apply show_route_cells. Qed.

(** X18: the route shown covers no obstacle.  When the obstacles are those
    that [grid_to_obstacles] reads from the grid, a cell that holds an
    obstacle still holds it after [update_path_on_grid] has shown what
    [find_path] returns, unless it is the destination without a path. *)
Theorem update_path_on_grid_keeps_obstacles grid waypoints obstacles path grid'
    (r c : Z) :
  rectangular N M grid -> Forall (in_grid N M) waypoints ->
  APCSP_gui.grid_to_obstacles grid N M = Ok obstacles ->
  APCSP.find_path (F:=F) waypoints obstacles N M = Some path ->
  APCSP_gui.update_path_on_grid grid path waypoints = Ok grid' ->
  in_grid N M (r, c) -> getcell grid r c = Ok 2 ->
  ~ (last path = Some [] /\ waypoints !! length path = Some (r, c)) ->
  getcell grid' r c = Ok 2.
Proof.
  intros Hrect Hwps Hobs Hfp Hupd Hrc H2 Hnb.
  destruct (show_route_cells grid waypoints obstacles path
              Hrect Hwps Hfp) as (grid1 & Hres & _ & Hget).
  rewrite Hupd in Hres. injection Hres as <-.
  rewrite (Hget r c Hrc). rewrite decide_False by done.
  rewrite decide_False; [done|]. intros [Hnw Hin].
  apply elem_of_concat in Hin as (seg & Hp & Hseg).
  destruct (find_path_segments_shape _ _ _ Hfp) as [_ Hcells].
  destruct (Hcells seg (r, c) Hseg Hp) as [?|[_ Hno]]; [done|].
  apply Hno. pose proof (grid_to_obstacles_cells grid N M) as Hspec.
  rewrite Hobs in Hspec. by apply Hspec.
Qed.
End show_route.

Lemma foldM_append {A B} (f : list B -> A -> result (list B))
    (h : A -> list B) (l : list A) (acc : list B) :
  (forall acc a, a ∈ l -> f acc a = Ok (acc ++ h a)) ->
  foldM f l acc = Ok (acc ++ concat (h <$> l)).
Proof.
  revert acc. induction l as [|a l IH]; intros acc Hf; simpl.
  { by rewrite app_nil_r. }
  rewrite Hf by left. simpl. rewrite IH.
  - by rewrite <- app_assoc.
  - intros acc' a' Ha'. apply Hf. by right.
Qed.

Lemma concat_singletons {A B} (g : A -> B) (l : list A) :
  concat ((fun a => [g a]) <$> l) = g <$> l.
Proof. induction l as [|a l IH]; [done|]. simpl. by f_equal. Qed.

Lemma fmap_list_prod {A B C} (h : A * B -> C) (l : list A) (k : list B) :
  concat ((fun a => (fun b => h (a, b)) <$> k) <$> l) = h <$> list_prod l k.
Proof.
  induction l as [|a l IH]; [done|].
  rewrite fmap_cons, concat_cons, IH. cbn [list_prod]. rewrite fmap_app.
  f_equal. by rewrite <- list_fmap_compose.
Qed.

Lemma cell_color (v : Z) :
  0 <= v <= 4 ->
  (name ← getitem APCSP_gui.point_types v; APCSP_gui.getkey APCSP_gui.colors name)
  = Ok (color_of v).
Proof.
  intros Hv.
  assert (v = 0 \/ v = 1 \/ v = 2 \/ v = 3 \/ v = 4) as
    [->|[->|[->|[->| ->]]]] by lia; reflexivity.
Qed.

(** ** APCSP_pathfinder.py: [draw_grid] *)

Section draw_grid.
Variables (N M : Z).
Implicit Types (grid : Grid) (waypoints : list Cell).

Lemma getcell_value grid (r c : Z) :
  rectangular N M grid -> in_grid N M (r, c) ->
  getcell grid r c = Ok (cell_value grid (r, c)).
Proof. apply getcell_in_grid. Qed.

(** The calls [draw_grid] makes. *)
Lemma draw_grid_commands grid waypoints (width height margin : Z) :
  rectangular N M grid ->
  (forall r c v, in_grid N M (r, c) -> getcell grid r c = Ok v -> 0 <= v <= 4) ->
  APCSP_gui.draw_grid grid waypoints N M width height margin
  = Ok (APCSP_gui.fill (10, 10, 40)
        :: ((fun c : Cell =>
               APCSP_gui.rect (color_of (cell_value grid c))
                 ((margin + width) * c.2 + margin,
                  (margin + height) * c.1 + margin, width, height))
            <$> list_prod (seqZ 0 N) (seqZ 0 M))).
Proof.
  intros Hrect Hval. unfold APCSP_gui.draw_grid.
  change (APCSP_gui.getkey APCSP_gui.colors "background") with (Ok (10, 10, 40)).
  cbn [mbind result_bind].
  set (h := fun c : Cell =>
              APCSP_gui.rect (color_of (cell_value grid c))
                ((margin + width) * c.2 + margin,
                 (margin + height) * c.1 + margin, width, height)).
  rewrite (foldM_append _ (fun r => (fun c => h (r, c)) <$> seqZ 0 M)).
  { by rewrite fmap_list_prod. }
  intros acc r Hr. apply elem_of_seqZ in Hr.
  rewrite (foldM_append _ (fun c => [h (r, c)])).
  { by rewrite concat_singletons. }
  intros acc' c Hc. apply elem_of_seqZ in Hc.
  assert (Hin : in_grid N M (r, c)) by (unfold in_grid; simpl; lia).
  rewrite (getcell_value grid r c Hrect Hin). cbn [mbind result_bind].
  pose proof (cell_color (cell_value grid (r, c))) as Hcol.
  destruct (getitem APCSP_gui.point_types (cell_value grid (r, c))) as [name|e];
    cbn [mbind result_bind] in *.
  - rewrite Hcol; [done|]. eapply Hval; [done|].
    by apply getcell_value.
  - discriminate Hcol. eapply Hval; [done|]. by apply getcell_value.
Qed.

(** X19: on a grid of [N] rows of [M] cells with values from 0 to 4,
    [draw_grid] raises no exception: it fills the screen with the
    background colour and then draws for every cell, row after row, one
    rectangle of the colour of the cell's value, at
    [((margin + width) * column + margin, (margin + height) * row + margin)]
    and of size [width] by [height]. *)
Theorem draw_grid_spec grid waypoints (width height margin : Z) :
  rectangular N M grid ->
  (forall r c v, in_grid N M (r, c) -> getcell grid r c = Ok v -> 0 <= v <= 4) ->
  APCSP_gui.draw_grid grid waypoints N M width height margin
  = Ok (APCSP_gui.fill (10, 10, 40)
        :: ((fun c : Cell =>
               APCSP_gui.rect (color_of (cell_value grid c))
                 ((margin + width) * c.2 + margin,
                  (margin + height) * c.1 + margin, width, height))
            <$> list_prod (seqZ 0 N) (seqZ 0 M))).
Proof. apply draw_grid_commands. Qed.
End draw_grid.

(** ** APCSP_pathfinder.py: [main] and its event loop *)

Section main_facts.
Context {F : Type} `{!Score F}.
Variables (N M : Z).
Implicit Types (grid : Grid) (waypoints : list Cell) (st : APCSP_gui.Locals).

Lemma consistent_replicate :
  consistent N M (replicate (Z.to_nat N) (replicate (Z.to_nat M) 0)) [].
Proof.
  assert (Hrect : rectangular N M
                    (replicate (Z.to_nat N) (replicate (Z.to_nat M) 0))).
  { split; [by rewrite length_replicate|].
    apply Forall_replicate. by rewrite length_replicate. }
  assert (Hzero : forall r c v, in_grid N M (r, c) ->
            getcell (replicate (Z.to_nat N) (replicate (Z.to_nat M) 0)) r c
              = Ok v -> v = 0).
  { intros r c v Hin. rewrite (getcell_in_grid N M) by done.
    destruct Hin as [Hr Hc]. simpl in *.
    rewrite lookup_total_replicate_2 by lia.
    rewrite lookup_total_replicate_2 by lia. by intros [= <-]. }
  split; [done| | |].
  - intros r c v Hin Hv. apply Hzero in Hv; [lia|done].
  - constructor.
  - intros r c Hin Hv. by apply Hzero in Hv.
Qed.

Lemma grid_to_obstacles_Ok grid :
  rectangular N M grid ->
  exists obstacles, APCSP_gui.grid_to_obstacles grid N M = Ok obstacles.
Proof.
  intros Hrect. pose proof (grid_to_obstacles_cells grid N M) as Hspec.
  destruct (APCSP_gui.grid_to_obstacles grid N M) as [obstacles|e]; [eauto|].
  destruct Hspec as [_ (r & c & Hin & Hraise)].
  by rewrite (getcell_in_grid N M) in Hraise.
Qed.

(** [update_path_on_grid] on a consistent state, with segments of the shape
    that [find_path] returns and cells of the grid: it does not raise, and
    the state stays consistent. *)
Lemma update_path_on_grid_consistent grid waypoints path_list waypoints' :
  consistent N M grid waypoints ->
  segments_shape path_list waypoints' ->
  (forall seg p, seg ∈ path_list -> p ∈ seg -> in_grid N M p) ->
  Forall (in_grid N M) waypoints' ->
  exists grid',
    APCSP_gui.update_path_on_grid grid path_list waypoints' = Ok grid'
    /\ consistent N M grid' waypoints.
Proof.
  intros [Hrect Hval Hall Hone] Hshape Hcells Hall'.
  destruct (update_path_loop_spec N M path_list waypoints'
              (length waypoints' - 1) 0 grid)
    as (grid' & Hres & Hrect' & Hget); try done.
  - intros seg p Hseg Hp. right. by eapply Hcells.
  - intros j Hj. lia.
  - exists grid'. split; [done|]. split; [done| |done|].
    + intros r c v Hin. rewrite (Hget r c Hin).
      destruct (decide _); [intros [= <-]; lia|].
      destruct (decide _); [intros [= <-]; lia|]. by apply Hval.
    + intros r c Hin. rewrite (Hget r c Hin).
      destruct (decide _); [done|]. destruct (decide _); [done|]. by apply Hone.
Qed.

Lemma find_path_cells_in_grid waypoints obstacles path seg p :
  Forall (in_grid N M) waypoints ->
  APCSP.find_path (F:=F) waypoints obstacles N M = Some path ->
  seg ∈ path -> p ∈ seg -> in_grid N M p.
Proof.
  intros Hall Hfp Hseg Hp.
  destruct (find_path_segments_shape N M _ _ _ Hfp) as [_ Hcells].
  destruct (Hcells seg p Hseg Hp) as [Hin|[? _]]; [|done].
  rewrite Forall_forall in Hall. by apply Hall.
Qed.

Lemma find_and_show_consistent grid waypoints :
  consistent N M grid waypoints ->
  exists grid', APCSP_gui.find_and_show (F:=F) N M grid waypoints = Some (Ok grid')
    /\ consistent N M grid' waypoints.
Proof.
  intros Hcon. unfold APCSP_gui.find_and_show.
  destruct (grid_to_obstacles_Ok grid (con_rect _ _ _ _ Hcon)) as [obstacles ->].
  destruct (APCSP_find_path_loop_spec waypoints obstacles N M [])
    as (path & Hfp & Hlen & Hnav & Hemp & Hlast).
  change (APCSP.find_path_loop waypoints obstacles N M [])
    with (APCSP.find_path waypoints obstacles N M) in Hfp.
  simpl in Hfp. rewrite Hfp. cbn [mbind option_bind].
  pose proof (con_in_grid _ _ _ _ Hcon) as Hall.
  (* the loop that shows the segments one after the other *)
  assert (Hloop : forall (indices : list nat) grid0,
    consistent N M grid0 waypoints ->
    (forall i, i ∈ indices -> (i < length path - 1)%nat) ->
    exists grid1,
      foldM (fun grid i =>
               grid ← APCSP_gui.update_path_on_grid grid (take (i + 1) path)
                        (take (i + 2) waypoints);
               _ ← APCSP_gui.draw_grid grid (take (i + 2) waypoints) N M
                     APCSP_gui.width APCSP_gui.height APCSP_gui.margin;
               Ok grid) indices grid0 = Ok grid1
      /\ consistent N M grid1 waypoints).
  { induction indices as [|i indices IH]; intros grid0 Hcon0 His;
      [by exists grid0|].
    assert (Hi : (i < length path - 1)%nat) by (apply His; left).
    cbn [foldM].
    destruct (update_path_on_grid_consistent grid0 waypoints
                (take (i + 1) path) (take (i + 2) waypoints) Hcon0)
      as (grid1 & -> & Hcon1).
    - split_and!.
      + intros k Hk. apply lookup_take_Some in Hk as [Hk Hki].
        apply Hemp in Hk. lia.
      + rewrite !length_take. lia.
      + rewrite !length_take. lia.
    - intros seg p Hseg Hp.
      eapply find_path_cells_in_grid; [done|exact Hfp| |done].
      apply elem_of_take in Hseg as (k & Hk & _).
      by eapply list_elem_of_lookup_2.
    - by apply Forall_take.
    - cbn [mbind result_bind].
      rewrite (draw_grid_commands N M grid1 _ _ _ _ (con_rect _ _ _ _ Hcon1)
                 (con_values _ _ _ _ Hcon1)).
      cbn [mbind result_bind]. apply IH; [done|].
      intros j Hj. apply His. by right. }
  destruct (Hloop (seq 0 (length path - 1)) grid Hcon) as (grid1 & -> & Hcon1).
  { intros i Hi%elem_of_seq. lia. }
  cbn [mbind result_bind].
  destruct (update_path_on_grid_consistent grid1 waypoints path waypoints Hcon1)
    as (grid' & -> & Hcon'); [done| |done|eauto].
  intros seg p. by eapply find_path_cells_in_grid.
Qed.

Lemma in_window_in_grid (pos : Z * Z) :
  in_window N M pos ->
  in_grid N M (pos.2 `div` (APCSP_gui.height + APCSP_gui.margin),
               pos.1 `div` (APCSP_gui.width + APCSP_gui.margin)).
Proof.
  unfold in_window, in_grid, APCSP_gui.width, APCSP_gui.height, APCSP_gui.margin.
  simpl. intros [[? ?] [? ?]]. split_and!.
  - by apply Z.div_pos.
  - apply Z.div_lt_upper_bound; lia.
  - by apply Z.div_pos.
  - apply Z.div_lt_upper_bound; lia.
Qed.

Lemma on_event_consistent st (event : APCSP_gui.Event) :
  consistent N M (APCSP_gui.grid st) (APCSP_gui.waypoints st) ->
  reads_in_window N M event ->
  exists out, APCSP_gui.on_event (F:=F) N M st event = Some (Ok out)
    /\ match out with
       | APCSP_gui.Continue st' =>
           consistent N M (APCSP_gui.grid st') (APCSP_gui.waypoints st')
       | APCSP_gui.Exit => True
       end.
Proof.
  intros Hcon Hwin. unfold APCSP_gui.on_event.
  assert (Hmouse :
    APCSP_gui.e_type event <> APCSP_gui.KEYDOWN ->
    exists out,
      (if APCSP_gui.get_pressed event then
         let pos := APCSP_gui.get_pos event in
         let column := pos.1 `div` (APCSP_gui.width + APCSP_gui.margin) in
         let row := pos.2 `div` (APCSP_gui.height + APCSP_gui.margin) in
         if bool_decide ((row, column) <> APCSP_gui.last_grid_changed st) then
           Some ('(grid, waypoints) ←
                   APCSP_gui.update_grid (APCSP_gui.grid st)
                     (APCSP_gui.waypoints st) row column (APCSP_gui.last_key st);
                 Ok (APCSP_gui.Continue
                       {| APCSP_gui.grid := grid;
                          APCSP_gui.waypoints := waypoints;
                          APCSP_gui.last_grid_changed := (row, column);
                          APCSP_gui.last_key := APCSP_gui.last_key st |}))
         else Some (Ok (APCSP_gui.Continue st))
       else
         match APCSP_gui.e_type event with
         | APCSP_gui.QUIT => Some (Ok APCSP_gui.Exit)
         | _ => Some (Ok (APCSP_gui.Continue st))
         end) = Some (Ok out)
      /\ match out with
         | APCSP_gui.Continue st' =>
             consistent N M (APCSP_gui.grid st') (APCSP_gui.waypoints st')
         | APCSP_gui.Exit => True
         end).
  { intros Hne. destruct (APCSP_gui.get_pressed event) eqn:Hp.
    - cbv zeta. destruct (bool_decide _); [|by eexists].
      destruct (update_grid_keeps_consistent N M _ _ _ _ (APCSP_gui.last_key st) Hcon
                  (in_window_in_grid _ (Hwin Hne Hp)))
        as (grid' & waypoints' & -> & Hcon').
      by eexists.
    - destruct (APCSP_gui.e_type event); [done|by eexists..]. }
  destruct (APCSP_gui.e_type event) eqn:Ht; [|by apply Hmouse..].
  destruct (APCSP_gui.e_key event); try (by eexists).
  - destruct (length (APCSP_gui.waypoints st) <=? 1)%nat; [by eexists|].
    destruct (find_and_show_consistent _ _ Hcon) as (grid' & -> & Hcon').
    by eexists.
  - eexists. split; [done|]. apply consistent_replicate.
Qed.

Lemma events_loop_consistent (events : list APCSP_gui.Event) st :
  consistent N M (APCSP_gui.grid st) (APCSP_gui.waypoints st) ->
  Forall (reads_in_window N M) events ->
  exists out, APCSP_gui.events_loop (F:=F) N M events st = Some (Ok out)
    /\ match out with
       | APCSP_gui.Continue st' =>
           consistent N M (APCSP_gui.grid st') (APCSP_gui.waypoints st')
       | APCSP_gui.Exit => True
       end.
Proof.
  revert st. induction events as [|event events IH]; intros st Hcon Hall.
  { by exists (APCSP_gui.Continue st). }
  apply Forall_cons in Hall as [Hev Hall]. cbn [APCSP_gui.events_loop].
  destruct (on_event_consistent st event Hcon Hev) as (out & -> & Hout).
  cbn [mbind option_bind]. destruct out as [st'|]; [by apply IH|by eexists].
Qed.

(** X21: [main] of APCSP_pathfinder.py raises no exception, whatever the
    keys and the clicks, as long as the mouse positions it reads lie inside
    its window: after every sequence of events the loop is still running,
    or has left by [sys.exit]. *)
Theorem main_never_raises (frames : list (list APCSP_gui.Event)) :
  Forall (Forall (reads_in_window N M)) frames ->
  exists out, APCSP_gui.main (F:=F) N M frames = Some (Ok out).
Proof.
  unfold APCSP_gui.main.
  set (st0 := {| APCSP_gui.grid := _ |}).
  assert (Hcon0 : consistent N M (APCSP_gui.grid st0) (APCSP_gui.waypoints st0))
    by apply consistent_replicate.
  clearbody st0. revert st0 Hcon0.
  induction frames as [|events frames IH]; intros st Hcon Hall.
  { by eexists. }
  apply Forall_cons in Hall as [Hev Hall]. cbn [APCSP_gui.main_loop].
  destruct (events_loop_consistent events st Hcon Hev) as (out & -> & Hout).
  cbn [mbind option_bind]. destruct out as [st'|]; [|by eexists].
  rewrite (draw_grid_commands N M _ _ _ _ _ (con_rect _ _ _ _ Hout)
             (con_values _ _ _ _ Hout)).
  by apply IH.
Qed.
End main_facts.

Lemma remove_app_last {A} `{!EqDecision A} (x : A) (l : list A) :
  x ∉ l -> remove x (l ++ [x]) = Ok l.
Proof.
  induction l as [|y l IH]; intros Hnot; simpl.
  { by rewrite decide_True. }
  rewrite decide_False by (intros ->; apply Hnot; left).
  rewrite IH; [done|]. intros ?. apply Hnot. by right.
Qed.

(** X16: adding a waypoint on an empty cell that is no waypoint yet (key
    [a]) and erasing it again (key [d]) gives back the grid and the list of
    waypoints. *)
Theorem update_grid_add_then_erase (N M : Z) (grid : Grid) (waypoints : list Cell)
    (row column : Z) :
  rectangular N M grid -> in_grid N M (row, column) ->
  getcell grid row column = Ok 0 -> (row, column) ∉ waypoints ->
  exists grid1 waypoints1,
    APCSP_gui.update_grid grid waypoints row column "a" = Ok (grid1, waypoints1)
    /\ APCSP_gui.update_grid grid1 waypoints1 row column "d"
       = Ok (grid, waypoints).
Proof.
  intros Hrect Hin H0 Hnot. unfold APCSP_gui.update_grid.
  cbn [String.eqb Ascii.eqb Bool.eqb andb].
  destruct (setcell_spec N M grid row column 1 Hrect Hin)
    as (grid1 & Hset & Hrect1 & Hget1 & _).
  rewrite Hset. cbn [mbind result_bind]. eexists _, _. split; [done|].
  rewrite Hget1. cbn [mbind result_bind Z.eqb Pos.eqb].
  rewrite remove_app_last by done. cbn [mbind result_bind].
  rewrite (setcell_in_grid N M) by done.
  rewrite (setcell_in_grid N M) in Hset by done. injection Hset as <-.
  cbn [mbind result_bind]. do 2 f_equal.
  destruct Hin as [Hr Hc]. simpl in Hr, Hc.
  destruct (rectangular_row N M grid row Hrect Hr) as (r & Hrow & Hlen).
  rewrite (getcell_in_grid N M) in H0 by done. injection H0 as H0.
  rewrite (list_lookup_total_correct _ _ _ Hrow) in *.
  rewrite list_lookup_total_insert_eq by (apply lookup_lt_Some in Hrow; lia).
  rewrite list_insert_insert_eq, list_insert_insert_eq.
  rewrite (list_insert_id r); [by apply list_insert_id|].
  rewrite <- H0. apply list_lookup_lookup_total_lt. lia.
Qed.

Section click.
Context {F : Type} `{!Score F}.
Variables (N M : Z).

(** X20: a click inside the rectangle that [draw_grid] draws for the cell
    [(row, column)] is a click on that cell: when the mouse button is down
    at such a position, the event is no key event and the cell is not the
    one changed last, [main] calls [update_grid] for [(row, column)] and
    records it as the cell changed last. *)
Theorem click_edits_drawn_cell (st : APCSP_gui.Locals) (event : APCSP_gui.Event)
    (row column px py : Z) :
  APCSP_gui.e_type event <> APCSP_gui.KEYDOWN ->
  APCSP_gui.get_pressed event = true ->
  APCSP_gui.get_pos event = (px, py) ->
  (APCSP_gui.margin + APCSP_gui.width) * column + APCSP_gui.margin <= px
    < (APCSP_gui.margin + APCSP_gui.width) * column + APCSP_gui.margin
      + APCSP_gui.width ->
  (APCSP_gui.margin + APCSP_gui.height) * row + APCSP_gui.margin <= py
    < (APCSP_gui.margin + APCSP_gui.height) * row + APCSP_gui.margin
      + APCSP_gui.height ->
  (row, column) <> APCSP_gui.last_grid_changed st ->
  APCSP_gui.on_event (F:=F) N M st event
  = Some ('(grid, waypoints) ←
            APCSP_gui.update_grid (APCSP_gui.grid st) (APCSP_gui.waypoints st)
              row column (APCSP_gui.last_key st);
          Ok (APCSP_gui.Continue
                {| APCSP_gui.grid := grid;
                   APCSP_gui.waypoints := waypoints;
                   APCSP_gui.last_grid_changed := (row, column);
                   APCSP_gui.last_key := APCSP_gui.last_key st |})).
Proof.
  intros Hne Hp Hpos Hx Hy Hlast. unfold APCSP_gui.on_event.
  rewrite Hp, Hpos. cbv zeta. cbn [fst snd].
  unfold APCSP_gui.margin, APCSP_gui.width, APCSP_gui.height in *.
  assert (px `div` (20 + 1) = column) as ->.
  { symmetry. apply (Z.div_unique px 21 column (px - 21 * column)); lia. }
  assert (py `div` (20 + 1) = row) as ->.
  { symmetry. apply (Z.div_unique py 21 row (py - 21 * row)); lia. }
  rewrite bool_decide_eq_true_2 by done.
  by destruct (APCSP_gui.e_type event).
Qed.
End click.

(** ** pathfinder.py: [draw], [gui_to_obstacles] and the key [f] *)

Section Pathfinder_gui_facts.
Context {F : Type} `{!Score F}.
Implicit Types (grid : Grid) (waypoints_grid : list Cell).



(** X22: on a consistent state and for a cell of the grid, [draw] of
    pathfinder.py raises no exception, whatever the key, and leaves a
    consistent state. *)
Theorem draw_keeps_consistent (N M : Z) grid waypoints_grid (row column : Z)
    (last_key : string) :
  consistent N M grid waypoints_grid -> in_grid N M (row, column) ->
  exists grid' waypoints_grid',
    Pathfinder_gui.draw grid waypoints_grid row column last_key
      = Ok (grid', waypoints_grid')
    /\ consistent N M grid' waypoints_grid'.
Proof.
  intros [Hrect Hval Hall Hone] Hrc. unfold Pathfinder_gui.draw.
  assert (Hread : exists v, getcell grid row column = Ok v)
    by (rewrite (getcell_in_grid N M) by done; eauto).
  destruct Hread as [v0 Hv0].
  assert (Hrem : forall v, 0 <= v <= 4 -> v <> 1 ->
    exists grid' waypoints',
      (waypoints_grid ← (if v0 =? 1 then remove (row, column) waypoints_grid
                         else Ok waypoints_grid);
       grid ← setcell grid row column v;
       Ok (grid, waypoints_grid)) = Ok (grid', waypoints')
      /\ consistent N M grid' waypoints').
  { intros v Hv Hv1. destruct (v0 =? 1) eqn:E1.
    - apply Z.eqb_eq in E1 as ->.
      destruct (remove_elem (row, column) waypoints_grid) as [w' Hw'];
        [by apply Hone|].
      rewrite Hw'. apply remove_Ok in Hw' as Hperm. cbn [mbind result_bind].
      destruct (setcell_consistent N M grid waypoints_grid w' row column v)
        as (grid' & -> & Hcon); try done.
      + rewrite Hperm in Hall. by apply Forall_cons in Hall as [_ ?].
      + intros r' c' Hin Hne H1. apply Hone in H1; [|done].
        rewrite Hperm in H1. by apply elem_of_cons in H1 as [?|?].
      + simpl. eauto.
    - cbn [mbind result_bind].
      destruct (setcell_consistent N M grid waypoints_grid waypoints_grid
                  row column v) as (grid' & -> & Hcon); try done.
      + intros r' c' Hin _. by apply Hone.
      + simpl. eauto. }
  destruct (String.eqb last_key "a").
  { destruct (setcell_consistent N M grid waypoints_grid
                (waypoints_grid ++ [(row, column)]) row column 1)
      as (grid' & -> & Hcon); try done.
    - apply Forall_app. split; [done|]. by apply Forall_singleton.
    - intros _. apply elem_of_app. right. left.
    - intros r' c' Hin _ H1. apply elem_of_app. left. by apply Hone.
    - simpl. eauto. }
  destruct (String.eqb last_key "d").
  { rewrite Hv0. cbn [mbind result_bind]. by apply Hrem. }
  destruct (String.eqb last_key "s").
  { rewrite Hv0. cbn [mbind result_bind]. by apply Hrem. }
  by exists grid, waypoints_grid.
Qed.



End Pathfinder_gui_facts.

(** ** Runs on concrete grids, with binary64 floats *)

(** A concrete cell is not in a concrete list of cells. *)
Ltac not_in_cells :=
  let H := fresh in
  intros H; repeat (apply elem_of_cons in H as [H|H]; [discriminate H|]);
  by apply elem_of_nil in H.

(** A concrete path is a walk along the steps of [neighbors]. *)
Ltac concrete_walk :=
  cbn [is_walk];
  unfold APCSP_parts.edge, APCSP_parts.ok, Pathfinder_parts.edge,
    Pathfinder_parts.ok, adjacent8;
  cbn [fst snd];
  repeat match goal with
         | |- _ /\ _ => split
         | |- _ -> _ => intros ?
         | |- True => exact I
         | |- _ ∉ _ => not_in_cells
         | |- _ <> _ => discriminate
         | |- _ => lia
         end.

(** C1: [navigate] does not return a shortest path.  In
    APCSP_pathfinder.py the path found from (1,1) to (3,3) around the
    obstacles (2,2) and (2,3) has two orthogonal and two diagonal steps,
    while a walk with two orthogonal steps and one diagonal step exists; in
    pathfinder.py the path found from (4,1) to (1,3) has five orthogonal
    steps and a diagonal one, while five orthogonal steps are enough. *)
Theorem navigate_not_shortest :
  (APCSP.navigate (F:=float) (1, 1) (3, 3) [(2, 2); (2, 3)] 5 5
     = Some [(1, 1); (1, 2); (1, 3); (2, 4); (3, 3)]
   /\ is_walk (APCSP_parts.edge [(2, 2); (2, 3)] 5 5)
        [(1, 1); (2, 1); (3, 2); (3, 3)]
   /\ shorter (steps [(1, 1); (2, 1); (3, 2); (3, 3)])
        (steps [(1, 1); (1, 2); (1, 3); (2, 4); (3, 3)]))
  /\ (Pathfinder.navigate (F:=float) (4, 1) (1, 3) [(2, 2); (2, 3)] 5 5
        = Some [(4, 1); (3, 2); (3, 3); (3, 4); (2, 4); (1, 4); (1, 3)]
      /\ is_walk (Pathfinder_parts.edge [(2, 2); (2, 3)] 5 5)
           [(4, 1); (3, 1); (2, 1); (1, 1); (1, 2); (1, 3)]
      /\ shorter (steps [(4, 1); (3, 1); (2, 1); (1, 1); (1, 2); (1, 3)])
           (steps [(4, 1); (3, 2); (3, 3); (3, 4); (2, 4); (1, 4); (1, 3)])).
Proof.
  split; split_and!.
  - vm_compute. reflexivity.
  - concrete_walk.
  - vm_compute. split_and!; [lia..|discriminate].
  - vm_compute. reflexivity.
  - concrete_walk.
  - vm_compute. split_and!; [lia..|discriminate].
Qed.

#[export] Instance integer_ScoreOrder : ScoreOrder Z.
Proof.
  split; simpl; intros a b.
  - rewrite Z.ltb_lt, Z.ltb_ge. lia.
  - intros c. rewrite !Z.ltb_ge. lia.
Qed.


(** [Point.__lt__] of APCSP_pathfinder.py does not read the
    [dist_to_start] of [other]. *)
Lemma APCSP_Point_lt_ignores_other_start {F : Type} `{!Score F}
    (self other : @APCSP.Point F) (d : F) :
  APCSP.Point_lt self
    (APCSP.mkPoint (APCSP.x other) (APCSP.y other) d (APCSP.dist_to_end other)
       (APCSP.visited other) (APCSP.parent other))
  = APCSP.Point_lt self other.
Proof. reflexivity. Qed.

(** C5: in APCSP_pathfinder.py the loop does not pop a point of minimal
    [dist_to_start + dist_to_end].  In the search from (1,1) to (2,4) on
    the free 5 x 5 grid the second iteration pops (2,2), of total
    [sqrt 2 + 2], while (1,2), of total [1 + sqrt 5], is in the heap. *)
Theorem APCSP_pop_not_minimal :
  match APCSP_parts.loop_state (F:=float) (2, 4) [] 5 5 1 (1, 1) with
  | Some (candidates, point_dict) =>
      match Heapq.heappop (APCSP.ref_lt point_dict) candidates with
      | Some (current, candidates) =>
          current = (2, 2) /\ (1, 2) ∈ candidates
          /\ s_lt (APCSP_parts.total (point_dict !!! (1, 2)))
                  (APCSP_parts.total (point_dict !!! current)) = true
      | None => False
      end
  | None => False
  end.
Proof.
  vm_compute. split_and!; [reflexivity|repeat constructor|reflexivity].
Qed.

(** C8: in pathfinder.py the path to the nearest obstacle is searched with
    the obstacle still in the obstacle set.  With the waypoints (1,1) and
    (4,1) and a wall on the cells (3,1) to (3,4) between them, the route is
    the obstacle cell (3,1) alone; the search with that cell taken out of
    the set finds [(1,1); (2,1); (3,1)]. *)
Theorem find_path_blocked_route :
  Pathfinder.navigate (F:=float) (1, 1) (4, 1)
    [(3, 1); (3, 2); (3, 3); (3, 4)] 5 5 = Some []
  /\ Pathfinder.find_path (F:=float) [(1, 1); (4, 1)]
       [(3, 1); (3, 2); (3, 3); (3, 4)] 5 5 = Some ([(3, 1)], false)
  /\ Pathfinder.navigate (F:=float) (1, 1) (3, 1)
       [(3, 2); (3, 3); (3, 4)] 5 5 = Some [(1, 1); (2, 1); (3, 1)].
Proof. split_and!; vm_compute; reflexivity. Qed.

(** *** Inputs on which the properties C2, C3, C7 and C9 fail as the
    specification states them *)

(** C2 as stated fails twice.  From a start cell that is in the obstacle
    set, [navigate] returns a path that holds this obstacle cell.  And on a
    grid of 4 rows and 6 columns, [navigate] of pathfinder.py returns
    between two free cells of row 3 a path through row 4, which the grid
    does not have. *)
Lemma navigate_path_through_obstacle :
  APCSP.navigate (F:=float) (1, 1) (1, 3) [(1, 1)] 4 4
    = Some [(1, 1); (1, 2); (1, 3)]
  /\ Pathfinder.navigate (F:=float) (1, 1) (1, 3) [(1, 1)] 4 4
       = Some [(1, 1); (1, 2); (1, 3)]
  /\ ~ Forall (fun c : Cell => c ∉ [(1, 1)]) [(1, 1); (1, 2); (1, 3)]
  /\ Pathfinder.navigate (F:=float) (3, 1) (3, 3) [(1, 2); (2, 2); (3, 2)] 4 6
       = Some [(3, 1); (4, 1); (4, 2); (4, 3); (3, 3)].
Proof.
  split_and!; [vm_compute; reflexivity..| |vm_compute; reflexivity].
  intros Hall. apply Forall_cons in Hall as [Hnot _]. apply Hnot. left.
Qed.

(** C3 as stated fails twice.  On a grid of 3 rows and 5 columns,
    [neighbors] of pathfinder.py offers from (2,1) the cell (3,1), of row 3;
    and [navigate] of APCSP_pathfinder.py returns from the start cell (0,1),
    of row 0, a path that holds it. *)
Lemma border_cell_in_path :
  (3, 1) ∈ Pathfinder.neighbors (F:=float)
             (Pathfinder.mkPoint 2 1 s_zero s_zero 0 None) [] 3 5
  /\ APCSP.navigate (F:=float) (0, 1) (1, 1) [] 3 3 = Some [(0, 1); (1, 1)].
Proof. split; vm_compute; [repeat constructor|reflexivity]. Qed.

(** C7 as stated fails: a start cell in the obstacle set, or outside the
    grid (column 4 of 4 columns), is not rejected; the search runs and
    returns a path. *)
Lemma navigate_searches_invalid_start :
  APCSP.navigate (F:=float) (1, 1) (1, 3) [(1, 1)] 4 4
    = Some [(1, 1); (1, 2); (1, 3)]
  /\ Pathfinder.navigate (F:=float) (1, 1) (1, 3) [(1, 1)] 4 4
       = Some [(1, 1); (1, 2); (1, 3)]
  /\ APCSP.navigate (F:=float) (0, 4) (1, 3) [] 4 4 = Some [(0, 4); (1, 3)].
Proof. split_and!; vm_compute; reflexivity. Qed.

(** C9 as stated fails: with the waypoints (1,1), (3,1), (2,1) every
    segment is found, and the waypoint (2,1) is twice in the route. *)
Lemma find_path_waypoint_twice :
  Pathfinder.navigate (F:=float) (1, 1) (3, 1) [] 4 4
    = Some [(1, 1); (2, 1); (3, 1)]
  /\ Pathfinder.navigate (F:=float) (3, 1) (2, 1) [] 4 4
       = Some [(3, 1); (2, 1)]
  /\ Pathfinder.find_path (F:=float) [(1, 1); (3, 1); (2, 1)] [] 4 4
       = Some ([(1, 1); (2, 1); (3, 1); (2, 1)], true)
  /\ length (filter (fun c : Cell => c = (2, 1))
               [(1, 1); (2, 1); (3, 1); (2, 1)]) = 2%nat.
Proof. split_and!; vm_compute; reflexivity. Qed.

(** *** Witnesses: the theorems at concrete inputs *)

Lemma navigate_path_valid_witness :
  navigate_in (F:=float) APCSP_file (1, 1) (3, 3) [] 5 5
    = Some [(1, 1); (2, 2); (3, 3)]
  /\ head [(1, 1); (2, 2); (3, 3)] = Some (1, 1)
  /\ last [(1, 1); (2, 2); (3, 3)] = Some (3, 3)
  /\ is_walk adjacent8 [(1, 1); (2, 2); (3, 3)]
  /\ Forall (fun c => ~ excluded APCSP_file [] 5 5 c)
       (tail [(1, 1); (2, 2); (3, 3)]).
Proof.
  assert (Hnav : navigate_in (F:=float) APCSP_file (1, 1) (3, 3) [] 5 5
                 = Some [(1, 1); (2, 2); (3, 3)]) by (vm_compute; reflexivity).
  split; [exact Hnav|].
  apply (navigate_path_valid (F:=float) APCSP_file (1, 1) (3, 3) [] 5 5 _ Hnav).
  discriminate.
Defined.

Lemma excluded_never_in_path_witness :
  excluded APCSP_file [(2, 2)] 5 5 (0, 1)
  /\ never_neighbor (F:=float) APCSP_file [(2, 2)] 5 5 (0, 1)
  /\ forall (start end_ : Cell) path,
       navigate_in (F:=float) APCSP_file start end_ [(2, 2)] 5 5 = Some path ->
       (0, 1) ∉ tail path.
Proof.
  assert (Hex : excluded APCSP_file [(2, 2)] 5 5 (0, 1)).
  { right. left. simpl. lia. }
  split; [exact Hex|].
  exact (excluded_never_in_path (F:=float) APCSP_file [(2, 2)] 5 5 (0, 1) Hex).
Defined.

Lemma navigate_excluded_end_empty_witness :
  (1, 1) <> (2, 2) /\ excluded Pathfinder_file [(2, 2)] 5 5 (2, 2)
  /\ navigate_in (F:=float) Pathfinder_file (1, 1) (2, 2) [(2, 2)] 5 5 = Some [].
Proof.
  assert (Hne : ((1, 1) : Cell) <> (2, 2)) by discriminate.
  assert (Hex : excluded Pathfinder_file [(2, 2)] 5 5 (2, 2)) by (left; left).
  split_and!; [exact Hne|exact Hex|].
  exact (navigate_excluded_end_empty (F:=float) Pathfinder_file (1, 1) (2, 2)
           [(2, 2)] 5 5 Hne Hex).
Defined.

Lemma neighbors_no_corner_cutting_witness :
  (2, 2) ∉ Pathfinder.neighbors (F:=float)
             (Pathfinder.mkPoint 1 1 s_zero s_zero 0 None) [(2, 1)] 5 5.
Proof.
  apply (neighbors_no_corner_cutting (F:=float)
           (Pathfinder.mkPoint 1 1 s_zero s_zero 0 None) [(2, 1)] 5 5 (1, 1)).
  - unfold directions. do 4 right. left.
  - discriminate.
  - discriminate.
  - left. left.
Defined.

Lemma find_path_joins_segments_witness :
  Pathfinder.find_path (F:=float) [(1, 1); (3, 1); (2, 1)] [] 4 4
    = Some (joined [[(1, 1); (2, 1); (3, 1)]; [(3, 1); (2, 1)]], true)
  /\ is_walk adjacent8 (joined [[(1, 1); (2, 1); (3, 1)]; [(3, 1); (2, 1)]]).
Proof.
  apply (find_path_joins_segments (F:=float) [(1, 1); (3, 1); (2, 1)] [] 4 4).
  repeat constructor; (vm_compute; reflexivity) || discriminate.
Defined.

Lemma find_path_few_waypoints_witness :
  APCSP.find_path (F:=float) [(1, 1)] [(2, 2)] 5 5 = Some []
  /\ Pathfinder.find_path (F:=float) [(1, 1)] [(2, 2)] 5 5 = Some ([], true).
Proof.
  apply (find_path_few_waypoints (F:=float) [(1, 1)] [(2, 2)] 5 5).
  simpl. lia.
Defined.

(** *** Witnesses of the properties X3 to X24 *)

Lemma navigate_path_simple_witness :
  navigate_in (F:=float) APCSP_file (1, 1) (3, 3) [(2, 2)] 5 5
    = Some [(1, 1); (1, 2); (2, 3); (3, 3)]
  /\ NoDup ([(1, 1); (1, 2); (2, 3); (3, 3)] : list Cell)
  /\ (length ([(1, 1); (1, 2); (2, 3); (3, 3)]%Z : list Cell)
      <= S (Z.to_nat (5 - 1) * Z.to_nat (5 - 1)))%nat.
Proof.
  assert (Hnav : navigate_in (F:=float) APCSP_file (1, 1) (3, 3) [(2, 2)] 5 5
                 = Some [(1, 1); (1, 2); (2, 3); (3, 3)])
    by (vm_compute; reflexivity).
  split; [exact Hnav|].
  exact (navigate_path_simple (F:=float) APCSP_file (1, 1) (3, 3) [(2, 2)] 5 5
           _ Hnav).
Defined.

Lemma navigate_cuts_no_corner_witness :
  Pathfinder.navigate (F:=float) (4, 1) (1, 3) [(2, 2); (2, 3)] 5 5
    = Some [(4, 1); (3, 2); (3, 3); (3, 4); (2, 4); (1, 4); (1, 3)]
  /\ is_walk (fun a b : Cell =>
                a.1 <> b.1 -> a.2 <> b.2 ->
                ((b.1, a.2) ∉ ([(2, 2); (2, 3)] : list Cell))
                /\ ((a.1, b.2) ∉ ([(2, 2); (2, 3)] : list Cell)))
       [(4, 1); (3, 2); (3, 3); (3, 4); (2, 4); (1, 4); (1, 3)].
Proof.
  assert (Hnav : Pathfinder.navigate (F:=float) (4, 1) (1, 3) [(2, 2); (2, 3)] 5 5
                 = Some [(4, 1); (3, 2); (3, 3); (3, 4); (2, 4); (1, 4); (1, 3)])
    by (vm_compute; reflexivity).
  split; [exact Hnav|].
  exact (navigate_cuts_no_corner (F:=float) (4, 1) (1, 3) [(2, 2); (2, 3)] 5 5
           _ Hnav).
Defined.

Lemma navigate_reversible_witness :
  accepted_in APCSP_file [(2, 2)] 5 5 (1, 1)
  /\ accepted_in APCSP_file [(2, 2)] 5 5 (3, 3)
  /\ (navigate_in (F:=float) APCSP_file (1, 1) (3, 3) [(2, 2)] 5 5 = Some []
      <-> navigate_in (F:=float) APCSP_file (3, 3) (1, 1) [(2, 2)] 5 5 = Some []).
Proof.
  assert (H1 : accepted_in APCSP_file [(2, 2)] 5 5 (1, 1)).
  { split; [not_in_cells|simpl; lia]. }
  assert (H2 : accepted_in APCSP_file [(2, 2)] 5 5 (3, 3)).
  { split; [not_in_cells|simpl; lia]. }
  split_and!; [exact H1|exact H2|].
  exact (navigate_reversible (F:=float) APCSP_file (1, 1) (3, 3) [(2, 2)] 5 5
           H1 H2).
Defined.

Lemma find_path_blocked_shape_witness :
  Pathfinder.find_path (F:=float) ([(1, 1)] ++ (2, 1) :: (4, 1) :: [])
    [(3, 1); (3, 2); (3, 3); (3, 4)] 5 5
  = Some (joined [[(1, 1); (2, 1)]]
          ++ match Pathfinder.nearest_obstacle (F:=float) (2, 1) (4, 1)
                     [(3, 1); (3, 2); (3, 3); (3, 4)] with
             | Some obstacle_point => [obstacle_point]
             | None => []
             end, false).
Proof.
  apply (find_path_blocked_shape (F:=float) [(1, 1)] (2, 1) (4, 1) []
           [(3, 1); (3, 2); (3, 3); (3, 4)] 5 5 [[(1, 1); (2, 1)]]).
  - repeat constructor; (vm_compute; reflexivity) || discriminate.
  - vm_compute. reflexivity.
Defined.


Lemma navigate_obstacles_as_set_witness :
  (forall c : Cell,
     c ∈ ([(2, 2); (2, 3)] : list Cell) <-> c ∈ ([(2, 3); (2, 2); (2, 2)] : list Cell))
  /\ navigate_in (F:=float) APCSP_file (1, 1) (3, 3) [(2, 2); (2, 3)] 5 5
     = navigate_in (F:=float) APCSP_file (1, 1) (3, 3)
         [(2, 3); (2, 2); (2, 2)] 5 5.
Proof.
  assert (Hsame : forall c : Cell,
            c ∈ ([(2, 2); (2, 3)] : list Cell) <-> c ∈ ([(2, 3); (2, 2); (2, 2)] : list Cell)).
  { intros c. rewrite !elem_of_cons, !elem_of_nil. tauto. }
  split; [exact Hsame|].
  exact (navigate_obstacles_as_set (F:=float) APCSP_file (1, 1) (3, 3)
           [(2, 2); (2, 3)] [(2, 3); (2, 2); (2, 2)] 5 5 Hsame).
Defined.

Lemma find_path_visits_waypoints_witness :
  Pathfinder.find_path (F:=float) [(1, 1); (3, 1); (2, 1)] [] 4 4
    = Some ([(1, 1); (2, 1); (3, 1); (2, 1)], true)
  /\ head ([(1, 1); (2, 1); (3, 1); (2, 1)] : list Cell)
     = head ([(1, 1); (3, 1); (2, 1)] : list Cell)
  /\ last ([(1, 1); (2, 1); (3, 1); (2, 1)] : list Cell)
     = last ([(1, 1); (3, 1); (2, 1)] : list Cell)
  /\ forall w : Cell, w ∈ ([(1, 1); (3, 1); (2, 1)] : list Cell) ->
       w ∈ ([(1, 1); (2, 1); (3, 1); (2, 1)] : list Cell).
Proof.
  assert (Hfp : Pathfinder.find_path (F:=float) [(1, 1); (3, 1); (2, 1)] [] 4 4
                = Some ([(1, 1); (2, 1); (3, 1); (2, 1)], true))
    by (vm_compute; reflexivity).
  split; [exact Hfp|].
  apply (find_path_visits_waypoints (F:=float) [(1, 1); (3, 1); (2, 1)] [] 4 4
           _ ltac:(simpl; lia) Hfp).
Defined.

Lemma update_grid_consistent_witness :
  exists grid' waypoints',
    APCSP_gui.update_grid [[0; 0]; [0; 0]] [] 1 1 "a" = Ok (grid', waypoints')
    /\ consistent 2 2 grid' waypoints'.
Proof.
  apply (update_grid_consistent 2 2 [[0; 0]; [0; 0]] [] 1 1 "a").
  - exact (consistent_replicate 2 2).
  - split; simpl; lia.
Defined.

Lemma update_grid_add_then_erase_witness :
  exists grid1 waypoints1,
    APCSP_gui.update_grid [[0; 0]; [0; 0]] [] 1 1 "a" = Ok (grid1, waypoints1)
    /\ APCSP_gui.update_grid grid1 waypoints1 1 1 "d" = Ok ([[0; 0]; [0; 0]], []).
Proof.
  apply (update_grid_add_then_erase 2 2 [[0; 0]; [0; 0]] [] 1 1).
  - split; [reflexivity|by repeat constructor].
  - split; simpl; lia.
  - reflexivity.
  - apply not_elem_of_nil.
Defined.

Lemma update_path_on_grid_find_path_witness :
  APCSP.find_path (F:=float) [(1, 1); (1, 3)] [(1, 2)] 4 4
    = Some [[(1, 1); (2, 2); (1, 3)]]
  /\ exists grid',
       APCSP_gui.update_path_on_grid
         [[0; 0; 0; 0]; [0; 0; 2; 0]; [0; 0; 0; 0]; [0; 0; 0; 0]]
         [[(1, 1); (2, 2); (1, 3)]] [(1, 1); (1, 3)] = Ok grid'
       /\ rectangular 4 4 grid'
       /\ forall r c, in_grid 4 4 (r, c) ->
            getcell grid' r c
            = if decide (last [([(1, 1); (2, 2); (1, 3)] : list Cell)] = Some []
                         /\ ([(1, 1); (1, 3)] : list Cell)
                              !! length [([(1, 1); (2, 2); (1, 3)] : list Cell)]
                            = Some (r, c))
              then Ok 4
              else if decide (((r, c) ∉ ([(1, 1); (1, 3)] : list Cell))
                              /\ (r, c) ∈ concat [([(1, 1); (2, 2); (1, 3)] : list Cell)])
              then Ok 3
              else getcell
                     [[0; 0; 0; 0]; [0; 0; 2; 0]; [0; 0; 0; 0]; [0; 0; 0; 0]]
                     r c.
Proof.
  assert (Hfp : APCSP.find_path (F:=float) [(1, 1); (1, 3)] [(1, 2)] 4 4
                = Some [[(1, 1); (2, 2); (1, 3)]]) by (vm_compute; reflexivity).
  split; [exact Hfp|].
  apply (update_path_on_grid_find_path (F:=float) 4 4
           [[0; 0; 0; 0]; [0; 0; 2; 0]; [0; 0; 0; 0]; [0; 0; 0; 0]]
           [(1, 1); (1, 3)] [(1, 2)] _); [|by repeat constructor|exact Hfp].
  split; [reflexivity|by repeat constructor].
Defined.

Lemma update_path_on_grid_keeps_obstacles_witness :
  getcell [[0; 0; 0; 0]; [0; 0; 2; 0]; [0; 0; 3; 0]; [0; 0; 0; 0]] 1 2 = Ok 2.
Proof.
  apply (update_path_on_grid_keeps_obstacles (F:=float) 4 4
           [[0; 0; 0; 0]; [0; 0; 2; 0]; [0; 0; 0; 0]; [0; 0; 0; 0]]
           [(1, 1); (1, 3)] [(1, 2)] [[(1, 1); (2, 2); (1, 3)]]
           [[0; 0; 0; 0]; [0; 0; 2; 0]; [0; 0; 3; 0]; [0; 0; 0; 0]] 1 2).
  - split; [reflexivity|by repeat constructor].
  - by repeat constructor.
  - vm_compute. reflexivity.
  - vm_compute. reflexivity.
  - vm_compute. reflexivity.
  - split; simpl; lia.
  - reflexivity.
  - intros [Hlast _]. discriminate Hlast.
Defined.

Lemma draw_grid_spec_witness :
  APCSP_gui.draw_grid [[0; 0]; [0; 0]] [] 2 2 20 20 1
  = Ok (APCSP_gui.fill (10, 10, 40)
        :: ((fun c : Cell =>
               APCSP_gui.rect (color_of (cell_value [[0; 0]; [0; 0]] c))
                 ((1 + 20) * c.2 + 1, (1 + 20) * c.1 + 1, 20, 20))
            <$> list_prod (seqZ 0 2) (seqZ 0 2))).
Proof.
  apply (draw_grid_spec 2 2 [[0; 0]; [0; 0]] [] 20 20 1).
  - exact (con_rect _ _ _ _ (consistent_replicate 2 2)).
  - exact (con_values _ _ _ _ (consistent_replicate 2 2)).
Defined.

Lemma click_edits_drawn_cell_witness :
  APCSP_gui.on_event (F:=float) 2 2
    {| APCSP_gui.grid := [[0; 0]; [0; 0]]; APCSP_gui.waypoints := [];
       APCSP_gui.last_grid_changed := (-1, -1); APCSP_gui.last_key := "a" |}
    {| APCSP_gui.e_type := APCSP_gui.OTHER; APCSP_gui.e_key := APCSP_gui.K_other;
       APCSP_gui.get_pressed := true; APCSP_gui.get_pos := (25, 5) |}
  = Some ('(grid, waypoints) ←
            APCSP_gui.update_grid [[0; 0]; [0; 0]] [] 0 1 "a";
          Ok (APCSP_gui.Continue
                {| APCSP_gui.grid := grid; APCSP_gui.waypoints := waypoints;
                   APCSP_gui.last_grid_changed := (0, 1);
                   APCSP_gui.last_key := "a" |})).
Proof.
  apply (click_edits_drawn_cell (F:=float) 2 2
           {| APCSP_gui.grid := [[0; 0]; [0; 0]]; APCSP_gui.waypoints := [];
              APCSP_gui.last_grid_changed := (-1, -1);
              APCSP_gui.last_key := "a" |}
           {| APCSP_gui.e_type := APCSP_gui.OTHER;
              APCSP_gui.e_key := APCSP_gui.K_other;
              APCSP_gui.get_pressed := true; APCSP_gui.get_pos := (25, 5) |}
           0 1 25 5).
  - discriminate.
  - reflexivity.
  - reflexivity.
  - vm_compute. split; [discriminate|reflexivity].
  - vm_compute. split; [discriminate|reflexivity].
  - discriminate.
Defined.

Lemma main_never_raises_witness :
  exists out,
    APCSP_gui.main (F:=float) 4 4
      [[{| APCSP_gui.e_type := APCSP_gui.OTHER;
           APCSP_gui.e_key := APCSP_gui.K_other;
           APCSP_gui.get_pressed := true; APCSP_gui.get_pos := (25, 25) |}];
       [{| APCSP_gui.e_type := APCSP_gui.OTHER;
           APCSP_gui.e_key := APCSP_gui.K_other;
           APCSP_gui.get_pressed := true; APCSP_gui.get_pos := (67, 25) |}];
       [{| APCSP_gui.e_type := APCSP_gui.KEYDOWN;
           APCSP_gui.e_key := APCSP_gui.K_f;
           APCSP_gui.get_pressed := false; APCSP_gui.get_pos := (0, 0) |}]]
    = Some (Ok out).
Proof.
  apply (main_never_raises (F:=float) 4 4).
  repeat match goal with
         | |- Forall _ (_ :: _) => apply Forall_cons; split
         | |- Forall _ [] => constructor
         | |- reads_in_window _ _ _ =>
             intros Ht Hp;
             first [by destruct Ht
                   |unfold in_window, APCSP_gui.width, APCSP_gui.height,
                      APCSP_gui.margin; simpl; lia]
         end.
Defined.

Lemma draw_keeps_consistent_witness :
  exists grid' waypoints_grid',
    Pathfinder_gui.draw [[0; 0]; [0; 0]] [] 1 1 "a"
      = Ok (grid', waypoints_grid')
    /\ consistent 2 2 grid' waypoints_grid'.
Proof.
  apply (draw_keeps_consistent 2 2 [[0; 0]; [0; 0]] [] 1 1 "a").
  - exact (consistent_replicate 2 2).
  - split; simpl; lia.
Defined.

